(** * FamilyTree: the text-to-graph parser of [parser.ts]

    A shallow embedding of [family-tree-app/src/parser.ts] and the
    verification of its specification, followed by the functions that use
    a parsed chart: the tree store of [store.ts], the path to the root of
    [components/SearchBar.tsx] and the elements of the drawing of
    [components/FamilyTree.tsx].

    Modelling conventions.
    - A JavaScript string is the list of its UTF-16 code units ([list N]).
    - A JavaScript regular expression is a backtracking matcher that
      returns every way of matching a prefix of its input, most preferred
      first (greedy quantifiers list the longest match first, lazy ones the
      shortest); [exec] takes the first one, as the engine does.
    - Integers read by [parseInt] are natural numbers ([N]); this agrees
      with the IEEE doubles of the source for every digit string that
      denotes a value below 2^53.
    - [String.prototype.toLowerCase] is the host's Unicode case mapping; it
      is a parameter of the development.
    - A reference to a [Person] object is its key in [personMap] (an object
      is stored under its own [id] and never replaced); a reference to a
      [Spouse] object is its position in the spouse list of the person in
      focus (spouses are only ever appended). *)

From Stdlib Require Import NArith DecimalN DecimalPos.
From stdpp Require Import gmap strings list fin_maps.

Local Open Scope N_scope.

(** ** Strings *)

Abbreviation jsstring := (list N).

(** [u "abc"] is the JavaScript string with the code units of an ASCII
    literal. *)
Definition u (s : string) : jsstring :=
  map Ascii.N_of_ascii (String.list_ascii_of_string s).
Arguments u _%_string.

(** [\d] *)
Definition isDigit (c : N) : bool := (48 <=? c) && (c <=? 57).

(** [[a-z]] *)
Definition isLowerAZ (c : N) : bool := (97 <=? c) && (c <=? 122).

(** LineTerminator: LF, CR, LS, PS. *)
Definition isLineTerminator (c : N) : bool :=
  (c =? 10) || (c =? 13) || (c =? 8232) || (c =? 8233).

(** [\s]: WhiteSpace and LineTerminator; also the set [trim] strips. *)
Definition isWhiteSpace (c : N) : bool :=
  (c =? 9) || (c =? 11) || (c =? 12) || (c =? 32) || (c =? 160)
  || (c =? 5760) || ((8192 <=? c) && (c <=? 8202)) || (c =? 8239)
  || (c =? 8287) || (c =? 12288) || (c =? 65279) || isLineTerminator c.

(** [.] without the [s] flag. *)
Definition isDot (c : N) : bool := negb (isLineTerminator c).

(** [[^\s]] *)
Definition isNonSpace (c : N) : bool := negb (isWhiteSpace c).

Fixpoint dropWhile (P : N → bool) (s : jsstring) : jsstring :=
  match s with
  | c :: t => if P c then dropWhile P t else s
  | [] => []
  end.

(** [s.trim()] *)
Definition trim (s : jsstring) : jsstring :=
  rev (dropWhile isWhiteSpace (rev (dropWhile isWhiteSpace s))).

Fixpoint startsWith (w s : jsstring) : bool :=
  match w, s with
  | [], _ => true
  | a :: w', b :: s' => (a =? b) && startsWith w' s'
  | _ :: _, [] => false
  end.

(** [s.includes(w)] *)
Fixpoint includes (w s : jsstring) : bool :=
  startsWith w s || match s with
                    | [] => false
                    | _ :: t => includes w t
                    end.

(** ** Decimal numbers *)

Fixpoint digitsOf (d : Decimal.uint) : jsstring :=
  match d with
  | Decimal.Nil => []
  | Decimal.D0 d => 48 :: digitsOf d
  | Decimal.D1 d => 49 :: digitsOf d
  | Decimal.D2 d => 50 :: digitsOf d
  | Decimal.D3 d => 51 :: digitsOf d
  | Decimal.D4 d => 52 :: digitsOf d
  | Decimal.D5 d => 53 :: digitsOf d
  | Decimal.D6 d => 54 :: digitsOf d
  | Decimal.D7 d => 55 :: digitsOf d
  | Decimal.D8 d => 56 :: digitsOf d
  | Decimal.D9 d => 57 :: digitsOf d
  end.

(** The digits at the head of [s], as a decimal numeral. *)
Fixpoint uintOf (s : jsstring) : Decimal.uint :=
  match s with
  | [] => Decimal.Nil
  | c :: t =>
    match c with
    | 48 => Decimal.D0 (uintOf t)
    | 49 => Decimal.D1 (uintOf t)
    | 50 => Decimal.D2 (uintOf t)
    | 51 => Decimal.D3 (uintOf t)
    | 52 => Decimal.D4 (uintOf t)
    | 53 => Decimal.D5 (uintOf t)
    | 54 => Decimal.D6 (uintOf t)
    | 55 => Decimal.D7 (uintOf t)
    | 56 => Decimal.D8 (uintOf t)
    | 57 => Decimal.D9 (uintOf t)
    | _ => Decimal.Nil
    end
  end.

(** The template literal [`${n}`] of a non-negative integer below 2^53:
    its decimal digits. The numbers of the source are doubles; from 2^53 on
    they are no longer every integer, and from 10^21 on they are printed
    with an exponent, which this definition does not follow. The properties
    that depend on the printed form are stated for numbers below 2^53. *)
Definition toString (n : N) : jsstring := digitsOf (N.to_uint n).

(** [parseInt(s, 10)] on a string without sign or leading blanks (the only
    ones the parser passes): the value of the leading digits, [None] for
    NaN when there are none. The value is the number written; the source
    has the double nearest to it, which is the same below 2^53 (the years
    have four digits). *)
Definition parseInt (s : jsstring) : option N :=
  match s with
  | c :: _ => if isDigit c then Some (N.of_uint (uintOf s)) else None
  | [] => None
  end.

(** ** Regular expressions *)

Definition Re (A : Type) : Type := jsstring → list (A * jsstring).

Definition ret {A} (a : A) : Re A := λ s, [(a, s)].

Definition andThen {A B} (p : Re A) (f : A → Re B) : Re B :=
  λ s, p s ≫= (λ r, f r.1 r.2).

Notation "x <- p ;; q" := (andThen p (λ x, q))
  (at level 20, p at level 99, q at level 200, only parsing).
Notation "p ;;; q" := (andThen p (λ _, q))
  (at level 100, q at level 200, right associativity, only parsing).

(** One code unit of a class. *)
Definition chr (P : N → bool) : Re N :=
  λ s, match s with
       | c :: t => if P c then [(c, t)] else []
       | [] => []
       end.

(** A literal word. *)
Fixpoint lit (w : jsstring) : Re jsstring :=
  match w with
  | [] => ret []
  | a :: w' => c <- chr (N.eqb a) ;; cs <- lit w' ;; ret (c :: cs)
  end.

(** [p|q] *)
Definition alt {A} (p q : Re A) : Re A := λ s, p s ++ q s.

(** [p?], greedy; an unmatched group is [None] (undefined). *)
Definition opt {A} (p : Re A) : Re (option A) :=
  alt (a <- p ;; ret (Some a)) (ret None).

(** [[P]*], greedy: the longest run first. *)
Fixpoint star (P : N → bool) (s : jsstring) : list (jsstring * jsstring) :=
  match s with
  | c :: t =>
    if P c then map (λ r, (c :: r.1, r.2)) (star P t) ++ [([], s)]
    else [([], s)]
  | [] => [([], [])]
  end.

(** [[P]*?], lazy: the shortest run first. *)
Fixpoint starLazy (P : N → bool) (s : jsstring) : list (jsstring * jsstring) :=
  match s with
  | c :: t =>
    if P c then ([], s) :: map (λ r, (c :: r.1, r.2)) (starLazy P t)
    else [([], s)]
  | [] => [([], [])]
  end.

(** [[P]+], greedy. *)
Definition plus (P : N → bool) : Re jsstring :=
  c <- chr P ;; cs <- star P ;; ret (c :: cs).

(** [[P]{n}] *)
Fixpoint rep (n : nat) (P : N → bool) : Re jsstring :=
  match n with
  | O => ret []
  | S n' => c <- chr P ;; cs <- rep n' P ;; ret (c :: cs)
  end.

(** [$] without the [m] flag. *)
Definition eos : Re unit :=
  λ s, match s with
       | [] => [(tt, [])]
       | _ :: _ => []
       end.

(** The result of an anchored match ([^...]): the preferred alternative. *)
Definition exec {A} (p : Re A) (s : jsstring) : option A :=
  match p s with
  | (a, _) :: _ => Some a
  | [] => None
  end.

(** [s.match(p)] for an unanchored [p] without the [g] flag: the match at
    the leftmost position that has one. *)
Fixpoint search {A} (p : Re A) (s : jsstring) : option A :=
  match p s with
  | (a, _) :: _ => Some a
  | [] => match s with
          | [] => None
          | _ :: t => search p t
          end
  end.

(** [s.replace(p, '')] for a [p] with the [g] flag: every match found
    scanning left to right is removed; [skip] counts the code units of the
    current match still to drop. An empty match removes nothing and the
    scan moves on by one unit. *)
Fixpoint removeAll_go {A} (p : Re A) (skip : nat) (s : jsstring) : jsstring :=
  match s with
  | [] => []
  | c :: t =>
    match skip with
    | S k => removeAll_go p k t
    | O =>
      match p s with
      | (_, r) :: _ =>
        match (length s - length r)%nat with
        | O => c :: removeAll_go p O t
        | S k => removeAll_go p k t
        end
      | [] => c :: removeAll_go p O t
      end
    end
  end.

Definition removeAll {A} (p : Re A) (s : jsstring) : jsstring :=
  removeAll_go p O s.

(** ** [parseYears] *)

Definition isLtGt (c : N) : bool := (c =? 60) || (c =? 62).

(** [[<>]?\d{4}]; the value is the text matched. *)
Definition markedYear : Re jsstring :=
  m <- opt (chr isLtGt) ;; d <- rep 4 isDigit ;; ret (option_list m ++ d).

(** [ca\d{4}] *)
Definition caYear : Re jsstring :=
  m <- lit (u "ca") ;; d <- rep 4 isDigit ;; ret (m ++ d).

(** [/\((\d{4}|[<>]?\d{4}|ca\d{4})?\s*-\s*(\d{4}|[<>]?\d{4})?\)/] *)
Definition YEARS_REGEX : Re (option jsstring * option jsstring) :=
  lit (u "(") ;;;
  g1 <- opt (alt (rep 4 isDigit) (alt markedYear caYear)) ;;
  star isWhiteSpace ;;;
  lit (u "-") ;;;
  star isWhiteSpace ;;;
  g2 <- opt (alt (rep 4 isDigit) markedYear) ;;
  lit (u ")") ;;;
  ret (g1, g2).

(** [/[<>ca]/] *)
Definition isYearMarker (c : N) : bool :=
  (c =? 60) || (c =? 62) || (c =? 99) || (c =? 97).

Definition parseSingleYear (s : option jsstring) : option N :=
  match s with
  | None => None
  | Some [] => None
  | Some s =>
    let cleaned := removeAll (chr isYearMarker) s in
    parseInt cleaned
  end.

Record Years := mkYears { birthYear : option N; deathYear : option N }.

Definition parseYears (text : jsstring) : Years :=
  match search YEARS_REGEX text with
  | None => mkYears None None
  | Some (g1, g2) => mkYears (parseSingleYear g1) (parseSingleYear g2)
  end.

(** ** [extractName] *)

(** [/\([^)]*\)/] *)
Definition PAREN_REGEX : Re unit :=
  lit (u "(") ;;; star (λ c, negb (c =? 41)) ;;; lit (u ")") ;;; ret tt.

(** A letter under the [i] flag: the code units whose canonical
    (upper-case) form is that of the pattern letter. *)
Definition chrI (lower upper : N) : Re N :=
  chr (λ c, (c =? lower) || (c =? upper)).

(** [VN|né|née] under the [i] flag. *)
Definition MARKER_REGEX : Re unit :=
  alt (chrI 118 86 ;;; chrI 110 78 ;;; ret tt)
 (alt (chrI 110 78 ;;; chrI 233 201 ;;; ret tt)
      (chrI 110 78 ;;; chrI 233 201 ;;; chrI 101 69 ;;; ret tt)).

(** [/\s*(VN|né|née)\s+[^\s]+/i] *)
Definition VN_REGEX : Re unit :=
  star isWhiteSpace ;;; MARKER_REGEX ;;; plus isWhiteSpace ;;;
  plus isNonSpace ;;; ret tt.

Definition extractName (text : jsstring) : jsstring :=
  trim (removeAll VN_REGEX (removeAll PAREN_REGEX text)).

(** ** Data model *)

Module Spouse.
(** The interface [Spouse] of the type declarations that [parser.ts]
    imports as [./types] (the last part of [src/unnamed/part_002]). An
    optional field is an [option]. *)
Record t := mk {
  name : jsstring;
  nameVN : option jsstring;
  marriageDate : option jsstring;
  divorceDate : option jsstring;
  childrenIds : list jsstring
}.

Definition set_nameVN (v : jsstring) (s : t) : t :=
  mk (name s) (Some v) (marriageDate s) (divorceDate s) (childrenIds s).
Definition set_marriageDate (v : jsstring) (s : t) : t :=
  mk (name s) (nameVN s) (Some v) (divorceDate s) (childrenIds s).
Definition set_divorceDate (v : jsstring) (s : t) : t :=
  mk (name s) (nameVN s) (marriageDate s) (Some v) (childrenIds s).
(** [if (!s.childrenIds.includes(c)) s.childrenIds.push(c)] *)
Definition addChild (c : jsstring) (s : t) : t :=
  if bool_decide (c ∈ childrenIds s) then s
  else mk (name s) (nameVN s) (marriageDate s) (divorceDate s)
          (childrenIds s ++ [c]).
End Spouse.

Module Person.
(** The interface [Person] of the same type declarations. *)
Record t := mk {
  id : jsstring;
  generation : N;
  childIndex : jsstring;
  name : jsstring;
  birthYear : option N;
  deathYear : option N;
  spouses : list Spouse.t;
  parentId : option jsstring;
  alias : option (list jsstring);
  houseName : option jsstring;
  nameVN : option jsstring;
  memorialDate : option jsstring;
  religiousName : option jsstring
}.

Definition set_spouses (l : list Spouse.t) (p : t) : t :=
  mk (id p) (generation p) (childIndex p) (name p) (birthYear p)
     (deathYear p) l (parentId p) (alias p) (houseName p) (nameVN p)
     (memorialDate p) (religiousName p).
(** [p.alias = p.alias || []; p.alias.push(v)] *)
Definition pushAlias (v : jsstring) (p : t) : t :=
  mk (id p) (generation p) (childIndex p) (name p) (birthYear p)
     (deathYear p) (spouses p) (parentId p)
     (Some (default [] (alias p) ++ [v])) (houseName p) (nameVN p)
     (memorialDate p) (religiousName p).
Definition set_houseName (v : jsstring) (p : t) : t :=
  mk (id p) (generation p) (childIndex p) (name p) (birthYear p)
     (deathYear p) (spouses p) (parentId p) (alias p) (Some v) (nameVN p)
     (memorialDate p) (religiousName p).
Definition set_nameVN (v : jsstring) (p : t) : t :=
  mk (id p) (generation p) (childIndex p) (name p) (birthYear p)
     (deathYear p) (spouses p) (parentId p) (alias p) (houseName p)
     (Some v) (memorialDate p) (religiousName p).
Definition set_memorialDate (v : jsstring) (p : t) : t :=
  mk (id p) (generation p) (childIndex p) (name p) (birthYear p)
     (deathYear p) (spouses p) (parentId p) (alias p) (houseName p)
     (nameVN p) (Some v) (religiousName p).
Definition set_religiousName (v : jsstring) (p : t) : t :=
  mk (id p) (generation p) (childIndex p) (name p) (birthYear p)
     (deathYear p) (spouses p) (parentId p) (alias p) (houseName p)
     (nameVN p) (memorialDate p) (Some v).

(** [p.spouses.push(s)] *)
Definition pushSpouse (s : Spouse.t) (p : t) : t :=
  set_spouses (spouses p ++ [s]) p.
(** A write through a reference to the spouse at position [i]. *)
Definition alterSpouse (f : Spouse.t → Spouse.t) (i : nat) (p : t) : t :=
  set_spouses (alter f i (spouses p)) p.
(** A write to [p.spouses[p.spouses.length - 1]]. *)
Definition alterLastSpouse (f : Spouse.t → Spouse.t) (p : t) : t :=
  alterSpouse f (pred (length (spouses p))) p.
End Person.

Module FamilyData.
(** The interface [FamilyData] of the same type declarations, the shape
    of the value [parseFamilyTree] returns. *)
Record t := mk {
  allPersons : gmap jsstring Person.t;
  rootId : jsstring
}.
End FamilyData.

(** ** Line patterns *)

(** [/^(Created:.*?\d{4})(.{0,})$/], the second group being a starred dot;
    the value is the second group. *)
Definition CREATED_REGEX : Re jsstring :=
  lit (u "Created:") ;;; starLazy isDot ;;; rep 4 isDigit ;;;
  r <- star isDot ;; eos ;;; ret r.

(** [/^\((\d+)\)\s*(\d+[a-z]?)\s+(.+)$/] *)
Definition GENERATION_REGEX : Re (jsstring * jsstring * jsstring) :=
  lit (u "(") ;;;
  g <- plus isDigit ;;
  lit (u ")") ;;;
  star isWhiteSpace ;;;
  d <- plus isDigit ;;
  l <- opt (chr isLowerAZ) ;;
  plus isWhiteSpace ;;;
  r <- plus isDot ;;
  eos ;;;
  ret (g, d ++ option_list l, r).

(** [/^&\s+(.+)$/] *)
Definition SPOUSE_REGEX : Re jsstring :=
  lit (u "&") ;;; plus isWhiteSpace ;;; r <- plus isDot ;; eos ;;; ret r.

Inductive MetaKey :=
  | alias | houseName | nameVN | memorialDate | religiousName
  | marriage | divorce.

(** [/^<label>\s*(.+)$/] *)
Definition labelled1 (label : jsstring) : Re jsstring :=
  lit label ;;; star isWhiteSpace ;;; r <- plus isDot ;; eos ;;; ret r.

(** [/^<label>\s*(.{0,})$/], the group being a starred dot. *)
Definition labelled0 (label : jsstring) : Re jsstring :=
  lit label ;;; star isWhiteSpace ;;; r <- star isDot ;; eos ;;; ret r.

(** The table [METADATA_REGEX], in the order [Object.entries] lists it. The
    labels of the house name, the localized name, the memorial date and the
    religious name have letters outside ASCII and are given by code unit. *)
Definition METADATA_REGEX : list (MetaKey * Re jsstring) :=
  [ (alias, labelled1 (u "ali."));
    (houseName, labelled1 [84; 234; 110; 78; 104; 224; 46]);
    (nameVN, labelled1 [84; 234; 110; 86; 78; 46]);
    (memorialDate, labelled1 [78; 103; 224; 121; 75; 7925; 46]);
    (religiousName, labelled1 [80; 104; 225; 112; 78; 109; 46]);
    (marriage, labelled0 (u "m."));
    (divorce, labelled0 (u "div.")) ].

(** The first entry of the table whose pattern matches, with the trimmed
    first group ([match[1]?.trim() || '']). *)
Fixpoint matchMetadata (table : list (MetaKey * Re jsstring))
    (line : jsstring) : option (MetaKey * jsstring) :=
  match table with
  | [] => None
  | (key, regex) :: table' =>
    match exec regex line with
    | Some v => Some (key, trim v)
    | None => matchMetadata table' line
    end
  end.

(** [text.split(/\r?\n/)]; [cur] is the current piece, reversed. *)
Fixpoint split_go (cur : jsstring) (s : jsstring) : list jsstring :=
  match s with
  | [] => [rev cur]
  | c :: t =>
    if c =? 10 then
      rev (match cur with
           | 13 :: cur' => cur'
           | _ => cur
           end) :: split_go [] t
    else split_go (c :: cur) t
  end.

Definition splitLines (text : jsstring) : list jsstring := split_go [] text.

(** The line as the loop body sees it after trimming and removing a
    [Created:] prefix; [None] when the line is skipped. *)
Definition cleanLine (rawLine : jsstring) : option jsstring :=
  let cleanedLine := trim rawLine in
  let cleanedLine :=
    match exec CREATED_REGEX cleanedLine with
    | Some rest => trim rest
    | None => cleanedLine
    end in
  match cleanedLine with
  | [] => None
  | _ :: _ =>
    if includes (u "Descendant Chart") cleanedLine then None
    else Some cleanedLine
  end.

(** [s.replace(p, '')] for a [p] without the [g] flag: the leftmost match
    is removed. *)
Fixpoint removeFirst {A} (p : Re A) (s : jsstring) : jsstring :=
  match p s with
  | (_, r) :: _ => r
  | [] => match s with
          | [] => []
          | c :: t => c :: removeFirst p t
          end
  end.

(** The value [parseInt] gives on a string of digits: the number written.
    The source has the double nearest to it, which is the same number
    when it is below 2^53. *)
Definition parseDigits (s : jsstring) : N := N.of_uint (uintOf s).

(** ** The parse state *)

(** The variables of [parseFamilyTree]. [parentStack] has its top at the
    head; [rootId] is the empty string until a root is set. *)
Record ParseState := mkState {
  personMap : gmap jsstring Person.t;
  currentPerson : option jsstring;
  currentSpouse : option nat;
  parentStack : list (N * jsstring);
  rootId : jsstring
}.

Definition initState : ParseState := mkState ∅ None None [] [].

(** Truth value of a string that may be [undefined]. *)
Definition truthy (o : option jsstring) : bool :=
  match o with
  | Some (_ :: _) => true
  | _ => false
  end.

(** [while (stack.length > 0 && top.generation >= generation) stack.pop()] *)
Fixpoint popStack (generation : N) (stack : list (N * jsstring))
    : list (N * jsstring) :=
  match stack with
  | (g, pid) :: rest =>
    if generation <=? g then popStack generation rest else stack
  | [] => []
  end.

Definition stackTop (stack : list (N * jsstring)) : option jsstring :=
  match stack with
  | (_, pid) :: _ => Some pid
  | [] => None
  end.

Definition personCanonicalId (parentId : option jsstring) (generation : N)
    (baseIndexRaw : jsstring) : jsstring :=
  (if truthy parentId then default [] parentId else u "root")
    ++ u "_g" ++ toString generation ++ u "-" ++ baseIndexRaw.

(** [suffix === 1 ? personCanonicalId : `${personCanonicalId}_${suffix}`] *)
Definition checkId (personCanonicalId : jsstring) (suffix : N) : jsstring :=
  if suffix =? 1 then personCanonicalId
  else personCanonicalId ++ u "_" ++ toString suffix.

(** [childIndex.replace(/[a-z]$/, '')] *)
Definition baseIndex (childIndex : jsstring) : jsstring :=
  removeFirst (chr isLowerAZ ;;; eos) childIndex.

(** Linking a new person to the last spouse of the parent. *)
Definition linkToParent (parentId : option jsstring) (finalId : jsstring)
    (pm : gmap jsstring Person.t) : gmap jsstring Person.t :=
  if truthy parentId then
    let pid := default [] parentId in
    match pm !! pid with
    | Some parent =>
      match Person.spouses parent with
      | _ :: _ =>
        <[pid := Person.alterLastSpouse (Spouse.addChild finalId) parent]> pm
      | [] => pm
      end
    | None => pm
    end
  else pm.

(** ** The tree store ([store.ts])

    The state of the store, with the functions that update it written as
    functions from state to state. A [Set] of identities that the source
    only tests for membership is a finite set; [Object.values] lists the
    persons of a record, in an order that these functions do not depend
    on. A property access [allPersons[id]] is a lookup in the map: the
    identities looked up are those a result holds, none of which names a
    property of the object prototype. *)

Module TreeStore.
Record t := mk {
  familyData : option FamilyData.t;
  expandedNodes : gset jsstring;
  highlightedNode : option jsstring;
  backgroundColor : jsstring
}.
End TreeStore.

(** [Object.values(allPersons)] *)
Definition values (allPersons : gmap jsstring Person.t) : list Person.t :=
  (map_to_list allPersons).*2.

Definition setFamilyData (data : FamilyData.t) (st : TreeStore.t)
    : TreeStore.t :=
  let initialExpanded :=
    foldl (λ acc person, acc ∪ {[Person.id person]}) ∅
          (values (FamilyData.allPersons data)) in
  TreeStore.mk (Some data) initialExpanded (TreeStore.highlightedNode st)
               (TreeStore.backgroundColor st).

Definition toggleNode (id : jsstring) (st : TreeStore.t) : TreeStore.t :=
  let expandedNodes := TreeStore.expandedNodes st in
  let newSet :=
    if bool_decide (id ∈ expandedNodes) then expandedNodes ∖ {[id]}
    else expandedNodes ∪ {[id]} in
  TreeStore.mk (TreeStore.familyData st) newSet
               (TreeStore.highlightedNode st) (TreeStore.backgroundColor st).

Definition toggleGeneration (generation : N) (expand : bool)
    (st : TreeStore.t) : TreeStore.t :=
  match TreeStore.familyData st with
  | None => st
  | Some familyData =>
    let newSet :=
      foldl (λ acc person,
               if bool_decide (Person.generation person = generation) then
                 if expand then acc ∪ {[Person.id person]}
                 else acc ∖ {[Person.id person]}
               else acc)
            (TreeStore.expandedNodes st)
            (values (FamilyData.allPersons familyData)) in
    TreeStore.mk (TreeStore.familyData st) newSet
                 (TreeStore.highlightedNode st) (TreeStore.backgroundColor st)
  end.

Definition expandPath (ids : list jsstring) (st : TreeStore.t) : TreeStore.t :=
  let newSet := foldl (λ acc id, acc ∪ {[id]}) (TreeStore.expandedNodes st) ids in
  TreeStore.mk (TreeStore.familyData st) newSet
               (TreeStore.highlightedNode st) (TreeStore.backgroundColor st).

Definition isExpanded (id : jsstring) (st : TreeStore.t) : bool :=
  bool_decide (id ∈ TreeStore.expandedNodes st).

(** ** The path to the root ([getPathToRoot] of [SearchBar.tsx]) *)

(** The loop [while (current)]; [fuel] bounds the number of turns and
    [None] means that the bound was reached before the loop left. *)
Fixpoint pathLoop (fuel : nat) (allPersons : gmap jsstring Person.t)
    (current : option Person.t) (path : list jsstring)
    : option (list jsstring) :=
  match current with
  | None => Some path
  | Some cur =>
    match fuel with
    | O => None
    | S fuel' =>
      let path := path ++ [Person.id cur] in
      if truthy (Person.parentId cur) then
        pathLoop fuel' allPersons
                 (allPersons !! default [] (Person.parentId cur)) path
      else Some path
    end
  end.

Definition getPathToRoot (fuel : nat) (familyData : option FamilyData.t)
    (personId : jsstring) : option (list jsstring) :=
  match familyData with
  | None => Some []
  | Some familyData =>
    pathLoop fuel (FamilyData.allPersons familyData)
             (FamilyData.allPersons familyData !! personId) []
  end.

(** ** The elements of the drawing ([getLayoutedElements] of
    [FamilyTree.tsx])

    The nodes and edges that the function hands to the layout library, in
    the order in which it creates them. The positions, which the library
    computes, and the constant style of the edges are left out. *)

Module FamilyNodeData.
Record t := mk {
  name : jsstring;
  nameVN : option jsstring;
  houseName : option jsstring;
  birthYear : option N;
  deathYear : option N;
  generation : N;
  hasChildren : bool;
  personId : jsstring;
  spouses : list (jsstring * option jsstring * option jsstring)
}.
End FamilyNodeData.

Module Node.
Record t := mk { id : jsstring; data : FamilyNodeData.t }.
End Node.

Module Edge.
Record t := mk { id : jsstring; source : jsstring; target : jsstring }.
End Edge.

(** [set.add(x)] on a [Set] that is iterated later: the elements in the
    order of their first insertion. *)
Definition setAdd (x : jsstring) (set : list jsstring) : list jsstring :=
  if bool_decide (x ∈ set) then set else set ++ [x].

(** The recursive closure [addVisible]; [fuel] bounds the depth of the
    recursion and [None] means that the bound was reached. *)
Fixpoint addVisible (fuel : nat) (allPersons : gmap jsstring Person.t)
    (expandedNodes : gset jsstring) (personId : jsstring)
    (visiblePersons : list jsstring) : option (list jsstring) :=
  match fuel with
  | O => None
  | S fuel' =>
    match allPersons !! personId with
    | None => Some visiblePersons
    | Some person =>
      let visiblePersons := setAdd personId visiblePersons in
      if bool_decide (personId ∈ expandedNodes) then
        foldl (λ acc spouse,
                 foldl (λ acc childId,
                          acc ≫= addVisible fuel' allPersons expandedNodes
                                            childId)
                       acc (Spouse.childrenIds spouse))
              (Some visiblePersons) (Person.spouses person)
      else Some visiblePersons
    end
  end.

Definition nodeOf (person : Person.t) : Node.t :=
  let hasChildren :=
    existsb (λ s, negb (bool_decide (Spouse.childrenIds s = [])))
            (Person.spouses person) in
  Node.mk (Person.id person)
    (FamilyNodeData.mk (Person.name person) (Person.nameVN person)
       (Person.houseName person) (Person.birthYear person)
       (Person.deathYear person) (Person.generation person) hasChildren
       (Person.id person)
       (map (λ s, (Spouse.name s, Spouse.marriageDate s, Spouse.divorceDate s))
            (Person.spouses person))).

(** The edges from a person to its visible children. *)
Definition edgesOf (visiblePersons : list jsstring) (person : Person.t)
    : list Edge.t :=
  spouse ← Person.spouses person;
  childId ← Spouse.childrenIds spouse;
  if bool_decide (childId ∈ visiblePersons) then
    [Edge.mk (Person.id person ++ u "-" ++ childId) (Person.id person) childId]
  else [].

(** The set [visiblePersons] once the closure has run from the root. *)
Definition visiblePersonsOf (fuel : nat) (allPersons : gmap jsstring Person.t)
    (rootId : jsstring) (expandedNodes : gset jsstring)
    : option (list jsstring) :=
  if truthy (Some rootId) && bool_decide (is_Some (allPersons !! rootId)) then
    addVisible fuel allPersons expandedNodes rootId []
  else Some [].

Definition getLayoutedElements (fuel : nat)
    (allPersons : gmap jsstring Person.t) (rootId : jsstring)
    (expandedNodes : gset jsstring) : option (list Node.t * list Edge.t) :=
  visiblePersons ← visiblePersonsOf fuel allPersons rootId expandedNodes;
  Some (omap (λ personId, nodeOf <$> allPersons !! personId) visiblePersons,
        visiblePersons ≫= (λ personId,
          match allPersons !! personId with
          | Some person => edgesOf visiblePersons person
          | None => []
          end)).

(** Lower case on ASCII letters; it agrees with [toLowerCase] on strings of
    ASCII code units. *)
Definition toLowerAscii (s : jsstring) : jsstring :=
  map (λ c, if (65 <=? c) && (c <=? 90) then c + 32 else c) s.

Section Parser.

(** [String.prototype.toLowerCase]. *)
Variable toLowerCase : jsstring → jsstring.

(** [name.toLowerCase().replace(/\s+/g, '')] *)
Definition normalizeName (name : jsstring) : jsstring :=
  removeAll (plus isWhiteSpace) (toLowerCase name).

(** The loop [while (true)] of the collision resolution, from [suffix] on;
    [fuel] bounds the number of probes and [None] means that the bound was
    reached before the loop left. The result is [(finalId, foundExisting)]. *)
Fixpoint probe (fuel : nat) (pm : gmap jsstring Person.t)
    (personCanonicalId name : jsstring) (suffix : N)
    : option (jsstring * bool) :=
  match fuel with
  | O => None
  | S fuel' =>
    let checkId := checkId personCanonicalId suffix in
    match pm !! checkId with
    | Some existing =>
      let name1 := normalizeName (Person.name existing) in
      let name2 := normalizeName name in
      if bool_decide (name1 = name2) then Some (checkId, true)
      else probe fuel' pm personCanonicalId name (suffix + 1)
    | None => Some (checkId, false)
    end
  end.

(** The loop run from [suffix = 1]. One probe more than there are persons
    always suffices ([probe_total] below), so the fallback is never
    taken. *)
Definition resolveId (pm : gmap jsstring Person.t)
    (personCanonicalId name : jsstring) : jsstring * bool :=
  default (personCanonicalId, false)
          (probe (S (size pm)) pm personCanonicalId name 1).

(** The body of [if (personMatch)]. *)
Definition processPerson (s : ParseState) (generation : N)
    (childIndex rest : jsstring) : ParseState :=
  let baseIndexRaw := baseIndex childIndex in
  let stack := popStack generation (parentStack s) in
  let parentId := stackTop stack in
  let personCanonicalId := personCanonicalId parentId generation baseIndexRaw in
  let years := parseYears rest in
  let name := extractName rest in
  let (finalId, foundExisting) := resolveId (personMap s) personCanonicalId name in
  if foundExisting then
    mkState (personMap s) (Some finalId) None
            ((generation, finalId) :: stack) (rootId s)
  else
    let newPerson :=
      Person.mk finalId generation childIndex name (birthYear years)
                (deathYear years) [] parentId None None None None None in
    let pm := <[finalId := newPerson]> (personMap s) in
    let rootId' :=
      if (generation =? 1) && bool_decide (rootId s = []) then finalId
      else rootId s in
    mkState (linkToParent parentId finalId pm) (Some finalId) None
            ((generation, finalId) :: stack) rootId'.

(** The spouse list of the person stored under [pid]. *)
Definition spousesOf (pm : gmap jsstring Person.t) (pid : jsstring)
    : list Spouse.t :=
  default [] (Person.spouses <$> pm !! pid).

(** The body of [if (spouseMatch && currentPerson)], [pid] being the person
    in focus. *)
Definition processSpouse (s : ParseState) (pid spouseText : jsstring)
    : ParseState :=
  let newSpouse := Spouse.mk (extractName spouseText) None None None [] in
  mkState (alter (Person.pushSpouse newSpouse) pid (personMap s))
          (Some pid) (Some (length (spousesOf (personMap s) pid)))
          (parentStack s) (rootId s).

Definition onPerson (s : ParseState) (pid : jsstring)
    (f : Person.t → Person.t) : ParseState :=
  mkState (alter f pid (personMap s)) (currentPerson s) (currentSpouse s)
          (parentStack s) (rootId s).

(** The [switch (key)] of the metadata block, [pid] being the person in
    focus. *)
Definition processMetadata (s : ParseState) (pid : jsstring)
    (key : MetaKey) (value : jsstring) : ParseState :=
  match key with
  | alias => onPerson s pid (Person.pushAlias value)
  | houseName => onPerson s pid (Person.set_houseName value)
  | nameVN =>
    match currentSpouse s with
    | Some i => onPerson s pid (Person.alterSpouse (Spouse.set_nameVN value) i)
    | None => onPerson s pid (Person.set_nameVN value)
    end
  | memorialDate => onPerson s pid (Person.set_memorialDate value)
  | religiousName => onPerson s pid (Person.set_religiousName value)
  | marriage =>
    match currentSpouse s with
    | Some i =>
      onPerson s pid (Person.alterSpouse (Spouse.set_marriageDate value) i)
    | None => s
    end
  | divorce =>
    match currentSpouse s with
    | Some i =>
      onPerson s pid (Person.alterSpouse (Spouse.set_divorceDate value) i)
    | None => s
    end
  end.

(** One turn of the loop [for (const rawLine of lines)]. *)
Definition processLine (s : ParseState) (rawLine : jsstring) : ParseState :=
  match cleanLine rawLine with
  | None => s
  | Some cleanedLine =>
    match exec GENERATION_REGEX cleanedLine with
    | Some (g, childIndex, rest) =>
      processPerson s (parseDigits g) childIndex rest
    | None =>
      match exec SPOUSE_REGEX cleanedLine, currentPerson s with
      | Some spouseText, Some pid => processSpouse s pid spouseText
      | _, _ =>
        match currentPerson s with
        | Some pid =>
          match matchMetadata METADATA_REGEX cleanedLine with
          | Some (key, value) => processMetadata s pid key value
          | None => s
          end
        | None => s
        end
      end
    end
  end.

Definition parseLines (s : ParseState) (lines : list jsstring) : ParseState :=
  foldl processLine s lines.

Definition parseFamilyTree (text : jsstring) : FamilyData.t :=
  let s := parseLines initState (splitLines text) in
  FamilyData.mk (personMap s) (rootId s).

(** ** Notions of the specification *)

(** A string of decimal digits. *)
Definition digits (s : jsstring) : Prop := Forall (λ c, isDigit c = true) s.

(** The shape of every canonical identity. *)
Definition slotId (pre : jsstring) (g : N) (b : jsstring) : jsstring :=
  pre ++ u "_g" ++ toString g ++ u "-" ++ b.

(** The identities of a slot: its canonical identity and the numbered
    variants. *)
Definition inSlot (canon key : jsstring) : bool :=
  bool_decide (key = canon)
  || (let r := drop (length (canon ++ u "_")) key in
      bool_decide (key = canon ++ u "_" ++ r)
      && bool_decide (r = toString (parseDigits r))
      && (2 <=? parseDigits r)).

(** The number of persons stored under identities of the slot, under the
    canonical identity or a numbered variant: the candidates the loop can
    find occupied. *)
Definition slotOccupancy (pm : gmap jsstring Person.t) (canon : jsstring)
    : nat :=
  size (filter (λ key, inSlot canon key = true) (dom pm)).

(** The candidate with suffix [k] is taken by a person of another name:
    the loop goes on to the next suffix. *)
Definition collides (pm : gmap jsstring Person.t) (canon name : jsstring)
    (k : N) : Prop :=
  ∃ p, pm !! checkId canon k = Some p
       ∧ normalizeName (Person.name p) ≠ normalizeName name.

(** The candidate with suffix [k] is free, or taken by a person of the same
    normalized name: the loop leaves. *)
Definition stops (pm : gmap jsstring Person.t) (canon name : jsstring)
    (k : N) : Prop :=
  ∀ p, pm !! checkId canon k = Some p →
       normalizeName (Person.name p) = normalizeName name.

(** The consistency of the person map: every person is stored under its
    own identity, which has the shape of a candidate of a slot of the
    person's generation; a parent reference points to a stored person of a
    smaller generation; the children a spouse lists are stored persons
    whose parent is the owner of the spouse, each listed once. *)
Record MapInv (pm : gmap jsstring Person.t) : Prop := {
  inv_id : ∀ key p, pm !! key = Some p → Person.id p = key;
  inv_shape : ∀ key p, pm !! key = Some p →
    ∃ pre b k, key = checkId (slotId pre (Person.generation p) b) k
               ∧ digits b;
  inv_parent : ∀ key p par,
    pm !! key = Some p → Person.parentId p = Some par →
    ∃ q, pm !! par = Some q ∧ Person.generation q < Person.generation p;
  inv_children : ∀ key p sp c,
    pm !! key = Some p → sp ∈ Person.spouses p → c ∈ Spouse.childrenIds sp →
    ∃ q, pm !! c = Some q ∧ Person.parentId q = Some key;
  inv_nodup : ∀ key p sp,
    pm !! key = Some p → sp ∈ Person.spouses p →
    NoDup (Spouse.childrenIds sp)
}.

(** The consistency of the parse state: the map is consistent; the stack
    holds stored persons with their generations; the person in focus is
    stored and the spouse in focus is the last spouse of that person; as
    long as no root is set no person of generation 1 is stored. *)
Record Inv (s : ParseState) : Prop := {
  inv_map : MapInv (personMap s);
  inv_stack : ∀ g pid, (g, pid) ∈ parentStack s →
    ∃ p, personMap s !! pid = Some p ∧ Person.generation p = g;
  inv_focus : ∀ pid, currentPerson s = Some pid →
    is_Some (personMap s !! pid);
  inv_spouse : ∀ i, currentSpouse s = Some i →
    ∃ pid p, currentPerson s = Some pid ∧ personMap s !! pid = Some p
             ∧ length (Person.spouses p) = S i;
  inv_root : rootId s = [] →
    ∀ key p, personMap s !! key = Some p → Person.generation p ≠ 1
}.

(** A write to a person that leaves the identity, the generation, the
    parent reference and the name alone. *)
Definition keeps (f : Person.t → Person.t) : Prop :=
  ∀ p, Person.id (f p) = Person.id p
       ∧ Person.generation (f p) = Person.generation p
       ∧ Person.parentId (f p) = Person.parentId p
       ∧ Person.name (f p) = Person.name p.

(** A write that moreover adds no child to any spouse. *)
Definition tame (f : Person.t → Person.t) : Prop :=
  keeps f
  ∧ ∀ p sp, sp ∈ Person.spouses (f p) →
      Spouse.childrenIds sp = []
      ∨ ∃ sp', sp' ∈ Person.spouses p
               ∧ Spouse.childrenIds sp = Spouse.childrenIds sp'.

(** The canonical identity a person record of generation [g] and index
    [childIndex] gets in state [s]. *)
Definition slotOf (s : ParseState) (g : N) (childIndex : jsstring)
    : jsstring :=
  personCanonicalId (stackTop (popStack g (parentStack s))) g
                    (baseIndex childIndex).

(** The person a record creates when its identity [fid] is new. *)
Definition newPersonOf (s : ParseState) (g : N) (childIndex rest : jsstring)
    (fid : jsstring) : Person.t :=
  Person.mk fid g childIndex (extractName rest)
            (birthYear (parseYears rest)) (deathYear (parseYears rest)) []
            (stackTop (popStack g (parentStack s))) None None None None None.

(** The states the parser can be in: those it reaches from the initial
    state over some lines. *)
Definition reachable (s : ParseState) : Prop :=
  ∃ lines, s = parseLines initState lines.

(** A raw line that the loop takes as a new-person record of
    generation 1. *)
Definition isGen1Record (rawLine : jsstring) : bool :=
  match cleanLine rawLine with
  | Some line =>
    match exec GENERATION_REGEX line with
    | Some (g, _, _) => parseDigits g =? 1
    | None => false
    end
  | None => false
  end.

(** The parent relation of a result: [parent] is the [parentId] of the
    person stored under [child]. *)
Definition parentOf (fd : FamilyData.t) (child parent : jsstring) : Prop :=
  ∃ p, FamilyData.allPersons fd !! child = Some p
       ∧ Person.parentId p = Some parent.


(** A raw line that the loop takes as a metadata record with label [key]
    and value [value]. *)
Definition isMetadataLine (rawLine : jsstring) (key : MetaKey)
    (value : jsstring) : Prop :=
  ∃ line, cleanLine rawLine = Some line
          ∧ matchMetadata METADATA_REGEX line = Some (key, value).

(** The state [s] with the person [p'] stored under [pid] and nothing else
    changed. *)
Definition setPerson (s : ParseState) (pid : jsstring) (p' : Person.t)
    : ParseState :=
  mkState (<[pid := p']> (personMap s)) (currentPerson s) (currentSpouse s)
          (parentStack s) (rootId s).

(** The string has a parenthesis character. *)
Definition hasParenthesis (s : jsstring) : bool :=
  existsb (λ c, (c =? 40) || (c =? 41)) s.

(** The marker words of a localized-name annotation, VN, né and née, each
    letter with its lower-case and its upper-case code unit. *)
Definition markerWords : list (list (N * N)) :=
  [ [(118, 86); (110, 78)];
    [(110, 78); (233, 201)];
    [(110, 78); (233, 201); (101, 69)] ].

(** What is left of [s] after the word [w] in either case, if [s] starts
    with it. *)
Fixpoint stripWordI (w : list (N * N)) (s : jsstring) : option jsstring :=
  match w, s with
  | [], _ => Some s
  | (lo, up) :: w', c :: s' =>
    if (c =? lo) || (c =? up) then stripWordI w' s' else None
  | _ :: _, [] => None
  end.

(** The letters of a marker word stand at the head of [s], white space
    follows them and a code unit that is no white space comes after it.
    Whether a word starts at the head of [s] is not asked. *)
Definition markerOccursAt (s : jsstring) : bool :=
  existsb (λ w, match stripWordI w s with
                | Some (c :: r) =>
                  isWhiteSpace c && negb (forallb isWhiteSpace r)
                | _ => false
                end) markerWords.

(** The letters of a marker word, followed by white space and a token,
    occur somewhere in the string, at the start of a word or inside
    one. *)
Fixpoint markerOccurs (s : jsstring) : bool :=
  markerOccursAt s || match s with
                    | [] => false
                    | _ :: t => markerOccurs t
                    end.

(** The fields of a person that the parser writes once, when it creates
    the person. *)
Definition sameCore (p p' : Person.t) : Prop :=
  Person.id p' = Person.id p
  ∧ Person.generation p' = Person.generation p
  ∧ Person.childIndex p' = Person.childIndex p
  ∧ Person.name p' = Person.name p
  ∧ Person.birthYear p' = Person.birthYear p
  ∧ Person.deathYear p' = Person.deathYear p
  ∧ Person.parentId p' = Person.parentId p.

(** A spouse record at a later point of the parse: the same name, and the
    children list extended at its end. *)
Definition spouseGrows (sp sp' : Spouse.t) : Prop :=
  Spouse.name sp' = Spouse.name sp
  ∧ Spouse.childrenIds sp `prefix_of` Spouse.childrenIds sp'.

(** A person at a later point of the parse: the same core fields, the
    spouse list extended at its end, each spouse of before grown, and the
    alias list extended at its end. *)
Definition personGrows (p p' : Person.t) : Prop :=
  sameCore p p'
  ∧ (∃ l1 l2, Person.spouses p' = l1 ++ l2
              ∧ Forall2 spouseGrows (Person.spouses p) l1)
  ∧ default [] (Person.alias p) `prefix_of` default [] (Person.alias p').

(** A write under which every person grows. *)
Definition growing (f : Person.t → Person.t) : Prop :=
  ∀ p, personGrows p (f p).

(** A raw line that the loop takes as a new-person record. *)
Definition isPersonRecord (rawLine : jsstring) : bool :=
  match cleanLine rawLine with
  | Some line => bool_decide (is_Some (exec GENERATION_REGEX line))
  | None => false
  end.

(** The generations of the ancestry stack strictly decrease from the top
    down. *)
Fixpoint stackSorted (stack : list (N * jsstring)) : Prop :=
  match stack with
  | (g, _) :: stack' =>
    match stack' with
    | (g', _) :: _ => g' < g
    | [] => True
    end ∧ stackSorted stack'
  | [] => True
  end.

(** The code units identities are made of: the letters of [root] and
    [g], the digits, the underscore and the hyphen. *)
Definition isIdChar (c : N) : bool :=
  isDigit c || (c =? 114) || (c =? 111) || (c =? 116) || (c =? 103)
  || (c =? 95) || (c =? 45).

(** [lines.join('\n')], the inverse of splitting at line feeds. *)
Fixpoint joinLines (lines : list jsstring) : jsstring :=
  match lines with
  | [] => []
  | l :: lines' =>
    match lines' with
    | [] => l
    | _ :: _ => l ++ 10 :: joinLines lines'
    end
  end.

(** A string of white space. *)
Definition blank (w : jsstring) : Prop :=
  Forall (λ c, isWhiteSpace c = true) w.


(** The children of a person over all its spouses, in the order of the
    lists. *)
Definition childrenOf (p : Person.t) : list jsstring :=
  Person.spouses p ≫= Spouse.childrenIds.

(** No person lists a child twice, be it with one spouse or with two. *)
Definition ChildOnce (pm : gmap jsstring Person.t) : Prop :=
  ∀ key p, pm !! key = Some p → NoDup (childrenOf p).

(** The line of ancestors of the person stored under [key]: the person,
    its parent, the parent of the parent and so on, up to a person without
    parent. *)
Inductive ancestry (pm : gmap jsstring Person.t)
    : jsstring → list jsstring → Prop :=
  | ancestry_top key p :
      pm !! key = Some p → Person.parentId p = None →
      ancestry pm key [key]
  | ancestry_step key p par path :
      pm !! key = Some p → Person.parentId p = Some par →
      ancestry pm par path → ancestry pm key (key :: path).

(** The largest generation of a person of the map (0 for the empty map). *)
Definition maxGeneration (pm : gmap jsstring Person.t) : N :=
  foldr N.max 0 (Person.generation <$> values pm).

(** [visibleFrom pm E a x]: the drawing that starts at the stored person
    [a] shows [x], which is [a] itself or is reached from [a] through the
    children lists of expanded persons. *)
Inductive visibleFrom (pm : gmap jsstring Person.t) (E : gset jsstring)
    : jsstring → jsstring → Prop :=
  | visible_self a : is_Some (pm !! a) → visibleFrom pm E a a
  | visible_child a p c x :
      pm !! a = Some p → a ∈ E → c ∈ childrenOf p →
      visibleFrom pm E c x → visibleFrom pm E a x.

(** The names of a person and of its spouses are their own trimmed
    forms: they neither start nor end with white space. *)
Definition trimmedNames (p : Person.t) : Prop :=
  trim (Person.name p) = Person.name p
  ∧ Forall (λ sp, trim (Spouse.name sp) = Spouse.name sp) (Person.spouses p).

(** The generation of a raw line that the loop takes as a person record. *)
Definition recordGeneration (rawLine : jsstring) : option N :=
  match cleanLine rawLine with
  | Some line =>
    match exec GENERATION_REGEX line with
    | Some (g, _, _) => Some (parseDigits g)
    | None => None
    end
  | None => None
  end.

(** The generation numbers of the person records are below 2^53: there the
    numbers of the source, which are doubles, are the numbers written, and
    are printed into the identities as their digits. *)
Definition exactGenerations (lines : list jsstring) : Prop :=
  Forall (λ l, ∀ g, recordGeneration l = Some g → g < 2 ^ 53) lines.

(** What follows the lazy run in the header pattern: four digits, then
    the rest of the line. *)
Definition afterHeader : Re jsstring :=
  rep 4 isDigit ;;; r <- star isDot ;; eos ;;; ret r.



(** The person [p] with the spouse list [l] in the place of its own, every
    other field as it is. *)
Definition withSpouses (l : list Spouse.t) (p : Person.t) : Person.t :=
  Person.mk (Person.id p) (Person.generation p) (Person.childIndex p)
            (Person.name p) (Person.birthYear p) (Person.deathYear p) l
            (Person.parentId p) (Person.alias p) (Person.houseName p)
            (Person.nameVN p) (Person.memorialDate p)
            (Person.religiousName p).

(** The words of a string: its maximal runs of code units that are no
    white space; [cur] is the current word, reversed. *)
Fixpoint words_go (cur : jsstring) (s : jsstring) : list jsstring :=
  match s with
  | [] =>
    match cur with
    | [] => []
    | _ :: _ => [rev cur]
    end
  | c :: t =>
    if isWhiteSpace c then
      match cur with
      | [] => words_go [] t
      | _ :: _ => rev cur :: words_go [] t
      end
    else words_go (c :: cur) t
  end.

Definition words (s : jsstring) : list jsstring := words_go [] s.

(** A marker word: VN, né or née as a whole word, in either case. *)
Definition isMarkerWord (w : jsstring) : bool :=
  existsb (λ m, match stripWordI m w with
                | Some [] => true
                | _ => false
                end) markerWords.

(** A localized-name annotation as the specification words it: a marker
    word immediately followed by a token. *)
Fixpoint annotated (ws : list jsstring) : bool :=
  match ws with
  | w :: ws' =>
    match ws' with
    | _ :: _ => isMarkerWord w || annotated ws'
    | [] => false
    end
  | [] => false
  end.

Definition hasMarkerWord (s : jsstring) : bool := annotated (words s).

(** The persons stored under the numbered variants of a slot: each is a
    collision that was resolved by a new identity. *)
Definition resolvedCollisions (pm : gmap jsstring Person.t)
    (canon : jsstring) : nat :=
  size (filter (λ key, inSlot canon key = true ∧ key ≠ canon) (dom pm)).

(** * Properties *)

(** ** Regular expressions: what a result says about the input *)

Lemma elem_of_andThen {A B} (p : Re A) (f : A → Re B) s b r :
  (b, r) ∈ andThen p f s ↔ ∃ a s', (a, s') ∈ p s ∧ (b, r) ∈ f a s'.
Proof.
  unfold andThen. rewrite list_elem_of_bind. split.
  - intros [[a s'] [H1 H2]]. eauto.
  - intros (a & s' & H1 & H2). exists (a, s'). auto.
Qed.

Lemma elem_of_ret {A} (a b : A) s r : (b, r) ∈ ret a s ↔ b = a ∧ r = s.
Proof.
  unfold ret. rewrite list_elem_of_singleton. split.
  - by intros [= -> ->].
  - by intros [-> ->].
Qed.

Lemma elem_of_chr P s c r : (c, r) ∈ chr P s ↔ s = c :: r ∧ P c = true.
Proof.
  unfold chr. destruct s as [|c' t].
  - rewrite elem_of_nil. split; [done|]. by intros [? _].
  - destruct (P c') eqn:E.
    + rewrite list_elem_of_singleton. split.
      * by intros [= -> ->].
      * by intros [[= -> ->] _].
    + rewrite elem_of_nil. split; [done|]. intros [[= -> ->] ?]. congruence.
Qed.

Lemma elem_of_lit w s m r : (m, r) ∈ lit w s → m = w ∧ s = w ++ r.
Proof.
  revert s m r. induction w as [|a w IH]; intros s m r; simpl.
  - rewrite elem_of_ret. by intros [-> ->].
  - rewrite elem_of_andThen. intros (c & s1 & H1 & H2).
    apply elem_of_chr in H1 as [-> Hc]. apply N.eqb_eq in Hc as <-.
    apply elem_of_andThen in H2 as (cs & s2 & H2 & H3).
    apply IH in H2 as [-> ->]. apply elem_of_ret in H3 as [-> ->]. done.
Qed.

Lemma elem_of_alt {A} (p q : Re A) s a r :
  (a, r) ∈ alt p q s ↔ (a, r) ∈ p s ∨ (a, r) ∈ q s.
Proof. unfold alt. apply elem_of_app. Qed.

Lemma elem_of_opt {A} (p : Re A) s o r :
  (o, r) ∈ opt p s ↔ (∃ a, o = Some a ∧ (a, r) ∈ p s) ∨ (o = None ∧ r = s).
Proof.
  unfold opt. rewrite elem_of_alt, elem_of_andThen, elem_of_ret. split.
  - intros [(a & s' & H1 & H2)|H]; [left|by right].
    apply elem_of_ret in H2 as [-> ->]. eauto.
  - intros [(a & -> & H)|H]; [left|by right].
    exists a, r. split; [done|]. by apply elem_of_ret.
Qed.

Lemma elem_of_star P s m r :
  (m, r) ∈ star P s → s = m ++ r ∧ Forall (λ c, P c = true) m.
Proof.
  revert m. induction s as [|c t IH]; intros m; simpl.
  - rewrite list_elem_of_singleton. intros [= -> ->]. by split.
  - destruct (P c) eqn:E.
    + rewrite elem_of_app, list_elem_of_fmap, list_elem_of_singleton.
      intros [([m' r'] & [= -> ->] & H)|[= -> ->]]; [|by split].
      apply IH in H as [-> H]. simpl. split; [done|]. by constructor.
    + rewrite list_elem_of_singleton. intros [= -> ->]. by split.
Qed.

Lemma elem_of_starLazy P s m r :
  (m, r) ∈ starLazy P s → s = m ++ r ∧ Forall (λ c, P c = true) m.
Proof.
  revert m. induction s as [|c t IH]; intros m; simpl.
  - rewrite list_elem_of_singleton. intros [= -> ->]. by split.
  - destruct (P c) eqn:E.
    + rewrite elem_of_cons, list_elem_of_fmap.
      intros [[= -> ->]|([m' r'] & [= -> ->] & H)]; [by split|].
      apply IH in H as [-> H]. simpl. split; [done|]. by constructor.
    + rewrite list_elem_of_singleton. intros [= -> ->]. by split.
Qed.

Lemma elem_of_plus P s m r :
  (m, r) ∈ plus P s → s = m ++ r ∧ Forall (λ c, P c = true) m ∧ m ≠ [].
Proof.
  unfold plus. rewrite elem_of_andThen. intros (c & s1 & H1 & H2).
  apply elem_of_chr in H1 as [-> Hc].
  apply elem_of_andThen in H2 as (cs & s2 & H2 & H3).
  apply elem_of_star in H2 as [-> H2]. apply elem_of_ret in H3 as [-> ->].
  split; [done|]. split; [by constructor|done].
Qed.

Lemma elem_of_rep n P s m r :
  (m, r) ∈ rep n P s →
  s = m ++ r ∧ Forall (λ c, P c = true) m ∧ length m = n.
Proof.
  revert s m r. induction n as [|n IH]; intros s m r; simpl.
  - rewrite elem_of_ret. intros [-> ->]. by split.
  - rewrite elem_of_andThen. intros (c & s1 & H1 & H2).
    apply elem_of_chr in H1 as [-> Hc].
    apply elem_of_andThen in H2 as (cs & s2 & H2 & H3).
    apply IH in H2 as (-> & H2 & <-). apply elem_of_ret in H3 as [-> ->].
    split; [done|]. split; [by constructor|done].
Qed.

Lemma elem_of_eos s x r : (x, r) ∈ eos s → s = [] ∧ r = [].
Proof.
  destruct s; simpl.
  - rewrite list_elem_of_singleton. by intros [= -> ->].
  - by rewrite elem_of_nil.
Qed.

Lemma exec_Some {A} (p : Re A) s a : exec p s = Some a → ∃ r, (a, r) ∈ p s.
Proof.
  unfold exec. destruct (p s) as [|[a' r] l] eqn:E; [done|].
  intros [= ->]. exists r. by left.
Qed.

Lemma exec_None {A} (p : Re A) s : p s = [] → exec p s = None.
Proof. unfold exec. by intros ->. Qed.

(** A pattern that starts with a literal fails on a line that starts with
    another code unit. *)
Lemma lit_head_ne {A} a w (q : Re A) c t :
  c ≠ a → (lit (a :: w) ;;; q) (c :: t) = [].
Proof.
  intros Hne. unfold andThen. simpl. unfold andThen at 1. simpl.
  destruct (N.eqb_spec a c); [congruence|done].
Qed.

(** ** Examples of the two extractors *)

Example parseYears_full :
  parseYears (u "Ann (1920-1995)") = mkYears (Some 1920) (Some 1995).
Proof. vm_compute. reflexivity. Qed.

Example parseYears_ca : parseYears (u "(ca1920-)") = mkYears (Some 1920) None.
Proof. vm_compute. reflexivity. Qed.

Example parseYears_empty : parseYears (u "()") = mkYears None None.
Proof. vm_compute. reflexivity. Qed.

Example parseYears_lt :
  parseYears (u "Bob ( <1920 - >1995)") = mkYears None None.
Proof. vm_compute. reflexivity. Qed.

Example extractName_ex :
  extractName (u "  Ann Lee (1920-1995) VN Foo  bar") = u "Ann Lee  bar".
Proof. vm_compute. reflexivity. Qed.

(** ** Decimal numerals *)

Lemma digitsOf_digits d : digits (digitsOf d).
Proof. induction d; simpl; constructor; done. Qed.

Lemma digitsOf_inj d d' : digitsOf d = digitsOf d' → d = d'.
Proof.
  revert d'. induction d; intros []; simpl; try done;
    intros [= H]; f_equal; auto.
Qed.

Lemma uintOf_digitsOf d : uintOf (digitsOf d) = d.
Proof. induction d; simpl; congruence. Qed.

Lemma toString_digits n : digits (toString n).
Proof. apply digitsOf_digits. Qed.

Lemma toString_inj n n' : toString n = toString n' → n = n'.
Proof. intros H. by apply DecimalN.Unsigned.to_uint_inj, digitsOf_inj. Qed.

Lemma toString_nonempty n : toString n ≠ [].
Proof.
  unfold toString. destruct n as [|p]; [done|]. simpl.
  pose proof (DecimalPos.Unsigned.to_uint_nonnil p) as H.
  destruct (Pos.to_uint p); done.
Qed.

Lemma parseDigits_toString n : parseDigits (toString n) = n.
Proof.
  unfold parseDigits, toString. rewrite uintOf_digitsOf.
  apply DecimalN.Unsigned.of_to.
Qed.

(** A string that ends with a run of digits after a code unit that is not
    a digit splits in one way only. *)
Lemma digit_run_inj (x x' d d' : jsstring) (c c' : N) :
  isDigit c = false → isDigit c' = false → digits d → digits d' →
  x ++ c :: d = x' ++ c' :: d' → x = x' ∧ c = c' ∧ d = d'.
Proof.
  intros Hc Hc' Hd Hd' E.
  assert (rev d ++ c :: rev x = rev d' ++ c' :: rev x') as E'.
  { apply (f_equal (@rev N)) in E. rewrite !rev_app_distr in E. simpl in E.
    by rewrite <- !app_assoc in E. }
  assert (∀ l l' r r' : jsstring, digits l → digits l' →
            l ++ c :: r = l' ++ c' :: r' → l = l' ∧ c = c' ∧ r = r') as aux.
  { clear -Hc Hc'. induction l as [|a l IH]; intros [|a' l'] r r' Hl Hl'; simpl.
    - by intros [= -> ->].
    - intros [= -> _]. apply Forall_cons in Hl' as [? _]. congruence.
    - intros [= -> _]. apply Forall_cons in Hl as [? _]. congruence.
    - intros [= -> H]. apply Forall_cons in Hl as [_ Hl].
      apply Forall_cons in Hl' as [_ Hl'].
      destruct (IH _ _ _ Hl Hl' H) as (-> & -> & ->). done. }
  apply aux in E' as (E1 & -> & E2).
  - split; [|split]; [|done|].
    + apply (f_equal (@rev N)) in E2. by rewrite !rev_involutive in E2.
    + apply (f_equal (@rev N)) in E1. by rewrite !rev_involutive in E1.
  - by apply Forall_rev.
  - by apply Forall_rev.
Qed.

(** ** Identities *)

Lemma personCanonicalId_slotId parentId g b :
  personCanonicalId parentId g b
  = slotId (if truthy parentId then default [] parentId else u "root") g b.
Proof. done. Qed.

Lemma slotId_inj pre g b pre' g' b' :
  digits b → digits b' →
  slotId pre g b = slotId pre' g' b' → pre = pre' ∧ g = g' ∧ b = b'.
Proof.
  intros Hb Hb'. unfold slotId.
  change (u "_g") with [95; 103]. change (u "-") with [45].
  intros E.
  assert ((pre ++ [95; 103] ++ toString g) ++ 45 :: b
          = (pre' ++ [95; 103] ++ toString g') ++ 45 :: b') as E1.
  { by rewrite <- !app_assoc. }
  apply digit_run_inj in E1 as (E2 & _ & ->); [|done..].
  assert ((pre ++ [95]) ++ 103 :: toString g
          = (pre' ++ [95]) ++ 103 :: toString g') as E3.
  { by rewrite <- !app_assoc. }
  apply digit_run_inj in E3 as (E4 & _ & E5);
    [|done|done|apply toString_digits..].
  apply app_inv_tail in E4 as ->. apply toString_inj in E5 as ->. done.
Qed.

Lemma checkId_ne_1 canon k :
  k ≠ 1 → checkId canon k = canon ++ 95 :: toString k.
Proof. unfold checkId. by destruct (N.eqb_spec k 1). Qed.

Lemma checkId_1 canon : checkId canon 1 = canon.
Proof. done. Qed.

(** The candidates of one slot are pairwise distinct. *)
Lemma checkId_inj canon k k' : checkId canon k = checkId canon k' → k = k'.
Proof.
  destruct (decide (k = 1)) as [->|Hk], (decide (k' = 1)) as [->|Hk'];
    rewrite ?checkId_1, ?checkId_ne_1 by done; [done| | |].
  - intros E. apply (f_equal length) in E. rewrite length_app in E.
    simpl in E. lia.
  - intros E. apply (f_equal length) in E. rewrite length_app in E.
    simpl in E. lia.
  - intros E. apply app_inv_head in E. injection E as E.
    by apply toString_inj.
Qed.

(** An identity determines its slot, its generation included, and its
    suffix. *)
Lemma checkId_slotId_inj pre g b k pre' g' b' k' :
  digits b → digits b' →
  checkId (slotId pre g b) k = checkId (slotId pre' g' b') k' →
  pre = pre' ∧ g = g' ∧ b = b' ∧ k = k'.
Proof.
  intros Hb Hb'.
  assert (∀ pre g b, slotId pre g b
            = (pre ++ [95; 103] ++ toString g) ++ 45 :: b) as shape.
  { intros. unfold slotId. by rewrite <- !app_assoc. }
  destruct (decide (k = 1)) as [->|Hk], (decide (k' = 1)) as [->|Hk'];
    rewrite ?checkId_1, ?checkId_ne_1 by done.
  - intros E. apply slotId_inj in E as (-> & -> & ->); done.
  - rewrite (shape pre). intros E.
    apply digit_run_inj in E as (_ & ? & _);
      [done|done|done|done|apply toString_digits].
  - rewrite (shape pre'). intros E.
    apply digit_run_inj in E as (_ & ? & _);
      [done|done|done|apply toString_digits|done].
  - intros E.
    apply digit_run_inj in E as (E1 & _ & E2);
      [|done|done|apply toString_digits..].
    apply slotId_inj in E1 as (-> & -> & ->); [|done..].
    apply toString_inj in E2 as ->. done.
Qed.

Lemma slotId_nonempty pre g b : slotId pre g b ≠ [].
Proof.
  unfold slotId. change (u "_g") with [95; 103]. by destruct pre.
Qed.

Lemma checkId_nonempty pre g b k : checkId (slotId pre g b) k ≠ [].
Proof.
  pose proof (slotId_nonempty pre g b).
  unfold checkId. destruct (k =? 1); [done|].
  by destruct (slotId pre g b).
Qed.

Lemma inSlot_checkId canon k : 1 ≤ k → inSlot canon (checkId canon k) = true.
Proof.
  intros Hk. unfold inSlot. destruct (decide (k = 1)) as [->|Hne].
  - rewrite checkId_1. by rewrite bool_decide_eq_true_2.
  - rewrite checkId_ne_1 by done. apply orb_true_iff. right.
    change (u "_") with [95].
    replace (drop (length (canon ++ [95])) (canon ++ 95 :: toString k))
      with (toString k).
    2:{ change (canon ++ 95 :: toString k)
          with (canon ++ [95] ++ toString k).
        rewrite (app_assoc canon [95]). by rewrite drop_app_length. }
    rewrite parseDigits_toString.
    rewrite !bool_decide_eq_true_2 by done. simpl. apply N.leb_le. lia.
Qed.

Lemma inSlot_spec canon key :
  inSlot canon key = true ↔ ∃ k, 1 ≤ k ∧ key = checkId canon k.
Proof.
  split; [|by intros (k & Hk & ->); apply inSlot_checkId].
  unfold inSlot. intros [H|H]%orb_true_iff.
  - apply bool_decide_eq_true in H as ->. exists 1. by rewrite checkId_1.
  - apply andb_true_iff in H as [[H1 H2]%andb_true_iff H3].
    apply bool_decide_eq_true in H1, H2. apply N.leb_le in H3.
    set (r := drop (length (canon ++ u "_")) key) in *.
    exists (parseDigits r). split; [lia|].
    rewrite checkId_ne_1 by lia. by rewrite <- H2.
Qed.

Lemma slotOccupancy_le_size pm canon : (slotOccupancy pm canon ≤ size pm)%nat.
Proof.
  unfold slotOccupancy. rewrite <- size_dom.
  apply subseteq_size. intros x. rewrite elem_of_filter. tauto.
Qed.

(** If the first [m] candidates of a slot are occupied, the slot holds at
    least [m] persons. *)
Lemma occupied_prefix_le pm canon (m : nat) :
  (∀ j : nat, (j < m)%nat →
     is_Some (pm !! checkId canon (1 + N.of_nat j))) →
  (m ≤ slotOccupancy pm canon)%nat.
Proof.
  intros Hocc. unfold slotOccupancy.
  set (l := (λ j : nat, checkId canon (1 + N.of_nat j)) <$> seq 0 m).
  assert (NoDup l) as Hnd.
  { apply NoDup_fmap_2; [|apply NoDup_seq].
    intros i j E. apply checkId_inj in E. lia. }
  assert (length l = m) as Hlen.
  { unfold l. by rewrite length_fmap, length_seq. }
  transitivity (size (list_to_set (C:=gset jsstring) l)).
  { by rewrite size_list_to_set, Hlen. }
  apply subseteq_size. intros x. rewrite elem_of_list_to_set.
  unfold l. rewrite list_elem_of_fmap. intros (j & -> & Hj).
  apply elem_of_seq in Hj. rewrite elem_of_filter. split.
  - apply inSlot_checkId. lia.
  - apply elem_of_dom, Hocc. lia.
Qed.

(** ** The probing loop *)

Lemma collides_or_stops pm canon name k :
  collides pm canon name k ∨ stops pm canon name k.
Proof.
  unfold collides, stops. destruct (pm !! checkId canon k) as [p|]; [|by right].
  destruct (decide (normalizeName (Person.name p) = normalizeName name)).
  - right. by intros ? [= <-].
  - left. eauto.
Qed.

(** What the loop returns when it meets [n] collisions and then leaves. *)
Lemma probe_exact pm canon name (n fuel : nat) (k0 : N) :
  (∀ j : nat, (j < n)%nat → collides pm canon name (k0 + N.of_nat j)) →
  stops pm canon name (k0 + N.of_nat n) →
  probe fuel pm canon name k0
  = if decide (fuel ≤ n)%nat then None
    else Some (checkId canon (k0 + N.of_nat n),
               bool_decide (is_Some (pm !! checkId canon (k0 + N.of_nat n)))).
Proof.
  revert fuel k0. induction n as [|n IH]; intros fuel k0 Hcol Hstop.
  - rewrite N.add_0_r in *. destruct fuel as [|fuel]; [done|].
    rewrite decide_False by lia. simpl.
    destruct (pm !! checkId canon k0) as [p|] eqn:E.
    + rewrite bool_decide_eq_true_2 by by apply Hstop.
      by rewrite bool_decide_eq_true_2.
    + by rewrite bool_decide_eq_false_2 by by intros [??].
  - destruct fuel as [|fuel]; [done|]. simpl.
    destruct (Hcol 0%nat) as (p & Hp & Hne); [lia|].
    rewrite N.add_0_r in Hp. rewrite Hp.
    rewrite bool_decide_eq_false_2 by done.
    rewrite (IH fuel (k0 + 1)).
    + replace (k0 + 1 + N.of_nat n) with (k0 + N.of_nat (S n)) by lia.
      destruct (decide (fuel ≤ n)%nat), (decide (S fuel ≤ S n)%nat);
        done || lia.
    + intros j Hj.
      replace (k0 + 1 + N.of_nat j) with (k0 + N.of_nat (S j)) by lia.
      apply Hcol. lia.
    + by replace (k0 + 1 + N.of_nat n) with (k0 + N.of_nat (S n)) by lia.
Qed.

(** The loop leaves after at most as many collisions as the slot holds
    persons. *)
Lemma first_stop pm canon name :
  ∃ n : nat, (n ≤ slotOccupancy pm canon)%nat
    ∧ (∀ j : nat, (j < n)%nat → collides pm canon name (1 + N.of_nat j))
    ∧ stops pm canon name (1 + N.of_nat n).
Proof.
  assert (∀ m : nat,
    (∀ j : nat, (j < m)%nat → collides pm canon name (1 + N.of_nat j))
    ∨ ∃ n : nat, (n < m)%nat
        ∧ (∀ j : nat, (j < n)%nat → collides pm canon name (1 + N.of_nat j))
        ∧ stops pm canon name (1 + N.of_nat n)) as search.
  { induction m as [|m [IH|(n & Hn & IH)]].
    - left. lia.
    - destruct (collides_or_stops pm canon name (1 + N.of_nat m)) as [Hc|Hs].
      + left. intros j Hj. destruct (decide (j = m)) as [->|]; [done|].
        apply IH. lia.
      + right. exists m. split; [lia|done].
    - right. exists n. split; [lia|done]. }
  destruct (search (S (slotOccupancy pm canon))) as [Hall|(n & Hn & H)].
  - exfalso. enough (S (slotOccupancy pm canon) ≤ slotOccupancy pm canon)%nat
      by lia.
    apply occupied_prefix_le. intros j Hj.
    destruct (Hall j Hj) as (p & Hp & _). eauto.
  - exists n. split; [lia|done].
Qed.

(** One probe more than there are persons suffices: [resolveId] is the
    result of the loop. *)
Lemma resolveId_spec pm canon name :
  ∃ n : nat, (n ≤ slotOccupancy pm canon)%nat
    ∧ (∀ j : nat, (j < n)%nat → collides pm canon name (1 + N.of_nat j))
    ∧ stops pm canon name (1 + N.of_nat n)
    ∧ resolveId pm canon name
      = (checkId canon (1 + N.of_nat n),
         bool_decide (is_Some (pm !! checkId canon (1 + N.of_nat n)))).
Proof.
  destruct (first_stop pm canon name) as (n & Hn & Hcol & Hstop).
  exists n. split; [done|]. split; [done|]. split; [done|].
  unfold resolveId. rewrite (probe_exact pm canon name n) by done.
  pose proof (slotOccupancy_le_size pm canon).
  by rewrite decide_False by lia.
Qed.

Lemma probe_total pm canon name :
  probe (S (size pm)) pm canon name 1 = Some (resolveId pm canon name).
Proof.
  destruct (first_stop pm canon name) as (n & Hn & Hcol & Hstop).
  unfold resolveId. rewrite (probe_exact pm canon name n) by done.
  pose proof (slotOccupancy_le_size pm canon).
  by rewrite decide_False by lia.
Qed.

(** The two ways the loop leaves. *)
Lemma resolveId_found pm canon name fid :
  resolveId pm canon name = (fid, true) →
  ∃ k p, 1 ≤ k ∧ fid = checkId canon k ∧ pm !! fid = Some p
    ∧ normalizeName (Person.name p) = normalizeName name.
Proof.
  destruct (resolveId_spec pm canon name) as (n & _ & _ & Hstop & ->).
  intros [= <- Hb]. apply bool_decide_eq_true in Hb as [p Hp].
  exists (1 + N.of_nat n), p. split; [lia|]. split; [done|].
  split; [done|]. by apply Hstop.
Qed.

Lemma resolveId_new pm canon name fid :
  resolveId pm canon name = (fid, false) →
  ∃ k, 1 ≤ k ∧ fid = checkId canon k ∧ pm !! fid = None.
Proof.
  destruct (resolveId_spec pm canon name) as (n & _ & _ & Hstop & ->).
  intros [= <- Hb]. apply bool_decide_eq_false in Hb.
  exists (1 + N.of_nat n). split; [lia|]. split; [done|].
  by apply eq_None_not_Some.
Qed.

(** ** Writes to the person map *)

Lemma elem_of_list_alter {A} (f : A → A) (i : nat) (l : list A) x :
  x ∈ alter f i l → x ∈ l ∨ ∃ y, y ∈ l ∧ x = f y.
Proof.
  revert i. induction l as [|a l IH]; intros i; [by left|].
  destruct i as [|i]; simpl; rewrite !elem_of_cons.
  - intros [->|H]; [right|left; by right]. exists a. split; [by left|done].
  - intros [->|H]; [left; by left|].
    destruct (IH _ H) as [?|(y & ? & ->)]; [left; by right|right].
    exists y. split; [by right|done].
Qed.

Lemma alter_last {A} (f : A → A) (l : list A) (x : A) :
  alter f (pred (length (l ++ [x]))) (l ++ [x]) = l ++ [f x].
Proof.
  rewrite length_app. simpl.
  replace (pred (length l + 1)) with (length l + 0)%nat by lia.
  by rewrite alter_app_r.
Qed.

Lemma keeps_lookup_alter (pm : gmap jsstring Person.t) pid f key p :
  keeps f → pm !! key = Some p →
  ∃ p', alter f pid pm !! key = Some p'
    ∧ Person.id p' = Person.id p
    ∧ Person.generation p' = Person.generation p
    ∧ Person.parentId p' = Person.parentId p
    ∧ Person.name p' = Person.name p.
Proof.
  intros Hf Hp. rewrite lookup_alter. destruct (decide (pid = key)) as [->|].
  - rewrite Hp. simpl. exists (f p). split; [done|]. apply Hf.
  - exists p. done.
Qed.

Lemma keeps_lookup_alter_inv (pm : gmap jsstring Person.t) pid f key p' :
  keeps f → alter f pid pm !! key = Some p' →
  ∃ p, pm !! key = Some p
    ∧ Person.id p' = Person.id p
    ∧ Person.generation p' = Person.generation p
    ∧ Person.parentId p' = Person.parentId p
    ∧ Person.name p' = Person.name p
    ∧ (p' = p ∨ key = pid ∧ p' = f p).
Proof.
  intros Hf. rewrite lookup_alter_Some.
  intros [(-> & p & Hp & ->)|(Hne & Hp)].
  - exists p. split; [done|]. destruct (Hf p) as (? & ? & ? & ?).
    repeat (split; [done|]). by right.
  - exists p'. repeat (split; [done|]). by left.
Qed.

(** A write that keeps the identity, and whose new children are stored
    persons with the right parent, keeps the map consistent. *)
Lemma MapInv_alter pm pid f :
  MapInv pm → keeps f →
  (∀ p sp, pm !! pid = Some p → sp ∈ Person.spouses (f p) →
     NoDup (Spouse.childrenIds sp)
     ∧ ∀ c, c ∈ Spouse.childrenIds sp →
         ∃ q, pm !! c = Some q ∧ Person.parentId q = Some pid) →
  MapInv (alter f pid pm).
Proof.
  intros [Hid Hshape Hpar Hch Hnd] Hf Hnew. split.
  - intros key p' Hp'.
    apply keeps_lookup_alter_inv in Hp' as (p & Hp & -> & _); [|done].
    eauto.
  - intros key p' Hp'.
    apply keeps_lookup_alter_inv in Hp' as (p & Hp & _ & -> & _); [|done].
    eauto.
  - intros key p' par Hp' Hpar'.
    apply keeps_lookup_alter_inv in Hp' as (p & Hp & _ & -> & E & _); [|done].
    rewrite E in Hpar'. destruct (Hpar _ _ _ Hp Hpar') as (q & Hq & Hlt).
    destruct (keeps_lookup_alter pm pid f par q Hf Hq)
      as (q' & Hq' & _ & Eg & _).
    exists q'. split; [done|]. by rewrite Eg.
  - intros key p' sp c Hp' Hsp Hc.
    apply keeps_lookup_alter_inv in Hp' as (p & Hp & _ & _ & _ & _ & Hcase);
      [|done].
    assert (∃ q, pm !! c = Some q ∧ Person.parentId q = Some key)
      as (q & Hq & Hqp).
    { destruct Hcase as [->|[-> ->]]; [eauto|].
      destruct (Hnew _ _ Hp Hsp) as [_ H]. by apply H. }
    destruct (keeps_lookup_alter pm pid f c q Hf Hq)
      as (q' & Hq' & _ & _ & Ep & _).
    exists q'. split; [done|]. by rewrite Ep.
  - intros key p' sp Hp' Hsp.
    apply keeps_lookup_alter_inv in Hp' as (p & Hp & _ & _ & _ & _ & Hcase);
      [|done].
    destruct Hcase as [->|[-> ->]]; [eauto|].
    by destruct (Hnew _ _ Hp Hsp) as [H _].
Qed.

Lemma MapInv_alter_tame pm pid f :
  MapInv pm → tame f → MapInv (alter f pid pm).
Proof.
  intros HI [Hk Ht]. apply MapInv_alter; [done..|].
  intros p sp Hp Hsp. destruct (Ht _ _ Hsp) as [->|(sp' & Hsp' & ->)].
  - split; [constructor|]. intros c Hc. by apply elem_of_nil in Hc.
  - split.
    + by eapply (inv_nodup _ HI).
    + intros c Hc. by eapply (inv_children _ HI).
Qed.

(** Storing a new person without spouses under a free identity keeps the
    map consistent. *)
Lemma MapInv_insert pm fid newP :
  MapInv pm → pm !! fid = None →
  Person.id newP = fid →
  (∃ pre b k, fid = checkId (slotId pre (Person.generation newP) b) k
              ∧ digits b) →
  Person.spouses newP = [] →
  (∀ par, Person.parentId newP = Some par →
     ∃ q, pm !! par = Some q
          ∧ Person.generation q < Person.generation newP) →
  MapInv (<[fid := newP]> pm).
Proof.
  intros [Hid Hshape Hpar Hch Hnd] Hfree Hnid Hnshape Hnsp Hnpar.
  assert (∀ key q, pm !! key = Some q → <[fid := newP]> pm !! key = Some q)
    as keep.
  { intros key q Hq. rewrite lookup_insert_ne; [done|]. congruence. }
  split.
  - intros key p. rewrite lookup_insert_Some.
    intros [[<- <-]|[_ Hp]]; eauto.
  - intros key p. rewrite lookup_insert_Some.
    intros [[<- <-]|[_ Hp]]; eauto.
  - intros key p par. rewrite lookup_insert_Some.
    intros [[<- <-]|[_ Hp]] Hpp.
    + destruct (Hnpar _ Hpp) as (q & Hq & Hlt). eauto.
    + destruct (Hpar _ _ _ Hp Hpp) as (q & Hq & Hlt). eauto.
  - intros key p sp c. rewrite lookup_insert_Some.
    intros [[<- <-]|[_ Hp]] Hsp Hc.
    + rewrite Hnsp in Hsp. by apply elem_of_nil in Hsp.
    + destruct (Hch _ _ _ _ Hp Hsp Hc) as (q & Hq & Hqp). eauto.
  - intros key p sp. rewrite lookup_insert_Some.
    intros [[<- <-]|[_ Hp]] Hsp.
    + rewrite Hnsp in Hsp. by apply elem_of_nil in Hsp.
    + eauto.
Qed.

(** ** The writes of the parser *)

Lemma tame_pushAlias v : tame (Person.pushAlias v).
Proof. split; [done|]. intros p sp Hsp. right. by exists sp. Qed.

Lemma tame_set_houseName v : tame (Person.set_houseName v).
Proof. split; [done|]. intros p sp Hsp. right. by exists sp. Qed.

Lemma tame_set_nameVN v : tame (Person.set_nameVN v).
Proof. split; [done|]. intros p sp Hsp. right. by exists sp. Qed.

Lemma tame_set_memorialDate v : tame (Person.set_memorialDate v).
Proof. split; [done|]. intros p sp Hsp. right. by exists sp. Qed.

Lemma tame_set_religiousName v : tame (Person.set_religiousName v).
Proof. split; [done|]. intros p sp Hsp. right. by exists sp. Qed.

Lemma tame_pushSpouse sp0 :
  Spouse.childrenIds sp0 = [] → tame (Person.pushSpouse sp0).
Proof.
  intros H0. split; [done|]. intros p sp. simpl. rewrite elem_of_app.
  intros [Hsp|Hsp%list_elem_of_singleton].
  - right. by exists sp.
  - left. by subst.
Qed.

Lemma tame_alterSpouse h i :
  (∀ sp, Spouse.childrenIds (h sp) = Spouse.childrenIds sp) →
  tame (Person.alterSpouse h i).
Proof.
  intros Hh. split; [done|]. intros p sp. simpl.
  intros [Hsp|(y & Hy & ->)]%elem_of_list_alter; right.
  - by exists sp.
  - exists y. by rewrite Hh.
Qed.

Lemma keeps_alterLastSpouse h : keeps (Person.alterLastSpouse h).
Proof. done. Qed.

Lemma addChild_children (fid : jsstring) sp :
  Spouse.childrenIds (Spouse.addChild fid sp)
  = if bool_decide (fid ∈ Spouse.childrenIds sp) then Spouse.childrenIds sp
    else Spouse.childrenIds sp ++ [fid].
Proof. unfold Spouse.addChild. by case_bool_decide. Qed.

Lemma linkToParent_eq (parentId : option jsstring) (fid : jsstring)
    (pm : gmap jsstring Person.t) :
  linkToParent parentId fid pm
  = if truthy parentId
    then alter (Person.alterLastSpouse (Spouse.addChild fid))
               (default [] parentId) pm
    else pm.
Proof.
  unfold linkToParent. destruct (truthy parentId); [|done].
  cbv zeta. generalize (default [] parentId). intros pid.
  destruct (pm !! pid) as [parent|] eqn:E.
  - destruct (Person.spouses parent) as [|sp0 sps] eqn:Es.
    + apply map_eq. intros j. rewrite lookup_alter.
      case_decide as Hj; [subst j|done].
      rewrite E. simpl. f_equal.
      unfold Person.alterLastSpouse, Person.alterSpouse, Person.set_spouses.
      rewrite Es. simpl. destruct parent. simpl in Es. by subst.
    + apply map_eq. intros j. rewrite lookup_alter, lookup_insert.
      case_decide as Hj; [subst j|done]. by rewrite E.
  - apply map_eq. intros j. rewrite lookup_alter.
    case_decide as Hj; [subst j|done]. by rewrite E.
Qed.

(** ** The ancestry stack *)

Lemma popStack_sub g st x : x ∈ popStack g st → x ∈ st.
Proof.
  induction st as [|[g' pid] st IH]; simpl; [done|].
  destruct (g <=? g'); [|done]. intros H. right. auto.
Qed.

Lemma popStack_top g st pid :
  stackTop (popStack g st) = Some pid →
  ∃ g', (g', pid) ∈ popStack g st ∧ g' < g.
Proof.
  induction st as [|[g' pid'] st IH]; simpl; [done|].
  destruct (N.leb_spec g g'); [done|]. simpl. intros [= ->].
  exists g'. split; [by left|done].
Qed.

(** ** The person lines *)

(** What a line that matches [GENERATION_REGEX] gives: a generation in
    digits, and an index whose base is in digits. *)
Lemma digit_not_lower c : isDigit c = true → isLowerAZ c = false.
Proof.
  unfold isDigit, isLowerAZ. intros [H1 H2]%andb_true_iff.
  apply N.leb_le in H1, H2. apply andb_false_iff. left. apply N.leb_gt. lia.
Qed.

Lemma baseIndex_digits d : digits d → baseIndex d = d.
Proof.
  unfold baseIndex. induction 1 as [|c d Hc Hd IH]; [done|].
  simpl. unfold andThen at 1. simpl.
  rewrite (digit_not_lower c Hc). simpl. by rewrite IH.
Qed.

Lemma baseIndex_letter d l :
  digits d → isLowerAZ l = true → baseIndex (d ++ [l]) = d.
Proof.
  intros Hd Hl. unfold baseIndex. induction Hd as [|c d Hc Hd IH].
  - simpl. unfold andThen. simpl. by rewrite Hl.
  - simpl. unfold andThen at 1. simpl.
    rewrite (digit_not_lower c Hc). simpl. by rewrite IH.
Qed.

Lemma GENERATION_REGEX_shape line g childIndex rest :
  exec GENERATION_REGEX line = Some (g, childIndex, rest) →
  digits g ∧ g ≠ [] ∧ digits (baseIndex childIndex)
  ∧ baseIndex childIndex ≠ [] ∧ rest ≠ [].
Proof.
  intros [r H]%exec_Some. unfold GENERATION_REGEX in H.
  apply elem_of_andThen in H as (? & s1 & _ & H).
  apply elem_of_andThen in H as (g' & s2 & (_ & Hg & Hg')%elem_of_plus & H).
  apply elem_of_andThen in H as (? & s3 & _ & H).
  apply elem_of_andThen in H as (? & s4 & _ & H).
  apply elem_of_andThen in H as (d & s5 & (_ & Hd & Hd')%elem_of_plus & H).
  apply elem_of_andThen in H as (l & s6 & Hl & H).
  apply elem_of_andThen in H as (? & s7 & _ & H).
  apply elem_of_andThen in H as (r' & s8 & (_ & _ & Hr)%elem_of_plus & H).
  apply elem_of_andThen in H as (? & s9 & _ & H).
  apply elem_of_ret in H as [[= -> -> ->] _].
  split; [done|]. split; [done|].
  apply elem_of_opt in Hl as [(c & -> & [_ Hc]%elem_of_chr)|[-> _]]; simpl.
  - by rewrite baseIndex_letter.
  - by rewrite app_nil_r, baseIndex_digits.
Qed.

(** The two branches of a person line. *)
Lemma processPerson_found s g childIndex rest (fid : jsstring) :
  resolveId (personMap s) (slotOf s g childIndex) (extractName rest)
    = (fid, true) →
  processPerson s g childIndex rest
  = mkState (personMap s) (Some fid) None
            ((g, fid) :: popStack g (parentStack s)) (rootId s).
Proof. unfold processPerson, slotOf. by intros ->. Qed.

Lemma processPerson_new s g childIndex rest (fid : jsstring) :
  resolveId (personMap s) (slotOf s g childIndex) (extractName rest)
    = (fid, false) →
  processPerson s g childIndex rest
  = mkState (linkToParent (stackTop (popStack g (parentStack s))) fid
               (<[fid := newPersonOf s g childIndex rest fid]> (personMap s)))
            (Some fid) None
            ((g, fid) :: popStack g (parentStack s))
            (if (g =? 1) && bool_decide (rootId s = []) then fid
             else rootId s).
Proof. unfold processPerson, slotOf. by intros ->. Qed.

Lemma slotOf_shape s g childIndex :
  ∃ pre, slotOf s g childIndex = slotId pre g (baseIndex childIndex).
Proof. unfold slotOf. rewrite personCanonicalId_slotId. eauto. Qed.

(** The top of the popped stack is a stored person of a smaller
    generation, and a true value. *)
Lemma parent_of_record s g pid :
  Inv s → stackTop (popStack g (parentStack s)) = Some pid →
  truthy (Some pid) = true
  ∧ ∃ q, personMap s !! pid = Some q ∧ Person.generation q < g.
Proof.
  intros HI Htop. apply popStack_top in Htop as (g' & Hin & Hlt).
  apply popStack_sub in Hin.
  destruct (inv_stack _ HI _ _ Hin) as (q & Hq & <-).
  split; [|eauto].
  destruct (inv_shape _ (inv_map _ HI) _ _ Hq) as (pre & b & k & E & _).
  pose proof (checkId_nonempty pre (Person.generation q) b k) as Hne.
  rewrite <- E in Hne. by destruct pid.
Qed.

Lemma Inv_initState : Inv initState.
Proof.
  split; simpl.
  - split; intros *; by rewrite lookup_empty.
  - intros g pid H. by apply elem_of_nil in H.
  - done.
  - done.
  - intros _ key p. by rewrite lookup_empty.
Qed.

(** The map after a record has created the person [fid]. *)
Lemma MapInv_new s g childIndex rest (fid : jsstring) k :
  Inv s → digits (baseIndex childIndex) →
  fid = checkId (slotOf s g childIndex) k →
  personMap s !! fid = None →
  MapInv (linkToParent (stackTop (popStack g (parentStack s))) fid
            (<[fid := newPersonOf s g childIndex rest fid]> (personMap s))).
Proof.
  intros HI Hd Hfid Hfree.
  set (newP := newPersonOf s g childIndex rest fid).
  assert (MapInv (<[fid := newP]> (personMap s))) as HI1.
  { apply MapInv_insert; [apply HI|done|done| |done|].
    - destruct (slotOf_shape s g childIndex) as [pre E].
      exists pre, (baseIndex childIndex), k. simpl. by rewrite <- E.
    - simpl. intros par Hpar.
      by destruct (parent_of_record s g par HI Hpar) as [_ ?]. }
  rewrite linkToParent_eq.
  destruct (stackTop (popStack g (parentStack s))) as [pid|] eqn:Htop;
    [|done].
  destruct (parent_of_record s g pid HI Htop) as [-> (q & Hq & Hlt)].
  simpl. apply MapInv_alter; [done|done|].
  intros p sp Hp Hsp. simpl in Hsp.
  apply elem_of_list_alter in Hsp as [Hsp|(y & Hy & ->)].
  - split.
    + by eapply (inv_nodup _ HI1).
    + intros c Hc. by eapply (inv_children _ HI1).
  - pose proof (inv_nodup _ HI1 _ _ _ Hp Hy) as Hnd.
    rewrite addChild_children. case_bool_decide as Hin.
    + split; [done|]. intros c Hc. by eapply (inv_children _ HI1).
    + split.
      * apply NoDup_app. split; [done|]. split; [|apply NoDup_singleton].
        intros x Hx ->%list_elem_of_singleton. done.
      * intros c [Hc|Hc%list_elem_of_singleton]%elem_of_app.
        -- by eapply (inv_children _ HI1).
        -- subst c. exists newP. split; [apply lookup_insert_eq|]. simpl. done.
Qed.

(** Lookups after a record has created the person [fid]: the persons
    stored before are still there, with the same identity, generation,
    parent and name. *)
Lemma lookup_new_old s g childIndex rest (fid : jsstring) key p :
  personMap s !! fid = None → personMap s !! key = Some p →
  ∃ p', linkToParent (stackTop (popStack g (parentStack s))) fid
          (<[fid := newPersonOf s g childIndex rest fid]> (personMap s))
          !! key = Some p'
    ∧ Person.id p' = Person.id p
    ∧ Person.generation p' = Person.generation p
    ∧ Person.parentId p' = Person.parentId p
    ∧ Person.name p' = Person.name p.
Proof.
  intros Hfree Hp. rewrite linkToParent_eq.
  assert (<[fid := newPersonOf s g childIndex rest fid]> (personMap s) !! key
          = Some p) as Hp1.
  { rewrite lookup_insert_ne; [done|]. congruence. }
  destruct (truthy _); [|by exists p].
  by apply keeps_lookup_alter.
Qed.

Lemma lookup_new_self s g childIndex rest (fid : jsstring) :
  ∃ p', linkToParent (stackTop (popStack g (parentStack s))) fid
          (<[fid := newPersonOf s g childIndex rest fid]> (personMap s))
          !! fid = Some p'
    ∧ Person.id p' = fid
    ∧ Person.generation p' = g
    ∧ Person.parentId p' = stackTop (popStack g (parentStack s))
    ∧ Person.name p' = extractName rest.
Proof.
  rewrite linkToParent_eq.
  pose proof (lookup_insert_eq (personMap s) fid
                (newPersonOf s g childIndex rest fid)) as Hp1.
  destruct (truthy _); [|by eexists].
  eapply keeps_lookup_alter in Hp1 as (p' & Hp' & ? & ? & ? & ?);
    [|apply keeps_alterLastSpouse].
  exists p'. split; [exact Hp'|]. done.
Qed.

Lemma lookup_new_inv s g childIndex rest (fid : jsstring) key p' :
  linkToParent (stackTop (popStack g (parentStack s))) fid
    (<[fid := newPersonOf s g childIndex rest fid]> (personMap s))
    !! key = Some p' →
  (key = fid ∧ Person.generation p' = g)
  ∨ ∃ p, personMap s !! key = Some p
         ∧ Person.generation p' = Person.generation p.
Proof.
  rewrite linkToParent_eq. intros H.
  assert (∃ p1, <[fid := newPersonOf s g childIndex rest fid]> (personMap s)
                  !! key = Some p1
                ∧ Person.generation p' = Person.generation p1)
    as (p1 & Hp1 & Eg).
  { destruct (truthy _); [|by exists p'].
    apply keeps_lookup_alter_inv in H as (p1 & ? & _ & ? & _);
      [|apply keeps_alterLastSpouse].
    by exists p1. }
  apply lookup_insert_Some in Hp1 as [[<- <-]|[_ Hp1]].
  - by left.
  - right. by exists p1.
Qed.

(** A person line keeps the state consistent. *)
Lemma Inv_processPerson s g childIndex rest :
  Inv s → digits (baseIndex childIndex) →
  Inv (processPerson s g childIndex rest).
Proof.
  intros HI Hd.
  destruct (resolveId (personMap s) (slotOf s g childIndex) (extractName rest))
    as [fid found] eqn:E.
  destruct found.
  - rewrite (processPerson_found _ _ _ _ _ E).
    apply resolveId_found in E as (k & p & Hk & Hfid & Hp & _).
    split; simpl.
    + apply HI.
    + intros g' pid [[= -> ->]|Hin]%elem_of_cons.
      * exists p. split; [done|].
        destruct (inv_shape _ (inv_map _ HI) _ _ Hp) as (pre' & b' & k' & E' & Hb').
        destruct (slotOf_shape s g childIndex) as [pre Es].
        rewrite Hfid, Es in E'.
        apply checkId_slotId_inj in E' as (_ & -> & _); done.
      * apply (inv_stack _ HI). by eapply popStack_sub.
    + intros pid [= <-]. eauto.
    + done.
    + apply HI.
  - rewrite (processPerson_new _ _ _ _ _ E).
    apply resolveId_new in E as (k & Hk & Hfid & Hfree).
    split; simpl.
    + by eapply MapInv_new.
    + intros g' pid [[= -> ->]|Hin]%elem_of_cons.
      * destruct (lookup_new_self s g childIndex rest fid)
          as (p' & Hp' & _ & Hg & _). eauto.
      * apply popStack_sub in Hin.
        destruct (inv_stack _ HI _ _ Hin) as (p & Hp & <-).
        destruct (lookup_new_old s g childIndex rest fid pid p Hfree Hp)
          as (p' & Hp' & _ & Hg & _). eauto.
    + intros pid [= <-].
      destruct (lookup_new_self s g childIndex rest fid) as (p' & Hp' & _).
      eauto.
    + done.
    + intros Hroot key p' Hp'.
      destruct (N.eqb_spec g 1) as [->|Hg]; simpl in Hroot.
      * case_bool_decide as Hr.
        -- destruct (slotOf_shape s 1 childIndex) as [pre Es].
           rewrite Hfid, Es in Hroot. by apply checkId_nonempty in Hroot.
        -- done.
      * apply lookup_new_inv in Hp' as [[_ ->]|(p & Hp & ->)]; [done|].
        by eapply (inv_root _ HI).
Qed.

(** ** Spouse and metadata lines *)

Lemma Inv_onPerson s pid f :
  Inv s → tame f →
  (∀ p, length (Person.spouses (f p)) = length (Person.spouses p)) →
  Inv (onPerson s pid f).
Proof.
  intros HI Hf Hlen. split; simpl.
  - apply MapInv_alter_tame; [apply HI|done].
  - intros g pid' Hin. destruct (inv_stack _ HI _ _ Hin) as (p & Hp & <-).
    destruct (keeps_lookup_alter (personMap s) pid f pid' p (proj1 Hf) Hp)
      as (p' & Hp' & _ & Hg & _). eauto.
  - intros pid' Hc. apply lookup_alter_is_Some. by apply HI.
  - intros i Hi. destruct (inv_spouse _ HI _ Hi) as (pid' & p & Hc & Hp & Hl).
    exists pid'. rewrite lookup_alter. case_decide; [subst pid'|eauto].
    rewrite Hp. simpl. exists (f p). by rewrite Hlen.
  - intros Hroot key p' Hp'.
    apply keeps_lookup_alter_inv in Hp' as (p & Hp & _ & -> & _);
      [|apply Hf].
    by eapply (inv_root _ HI).
Qed.

Lemma length_alterSpouse h i p :
  length (Person.spouses (Person.alterSpouse h i p))
  = length (Person.spouses p).
Proof. simpl. apply length_alter. Qed.

Lemma Inv_processMetadata s pid key value :
  Inv s → Inv (processMetadata s pid key value).
Proof.
  intros HI. destruct key; simpl; try destruct (currentSpouse s);
    try done;
    apply Inv_onPerson;
    auto using tame_pushAlias, tame_set_houseName, tame_set_nameVN,
      tame_set_memorialDate, tame_set_religiousName, tame_alterSpouse,
      length_alterSpouse.
Qed.

Lemma Inv_processSpouse s pid spouseText :
  Inv s → currentPerson s = Some pid →
  Inv (processSpouse s pid spouseText).
Proof.
  intros HI Hcur. destruct (inv_focus _ HI _ Hcur) as [p Hp].
  set (sp0 := Spouse.mk (extractName spouseText) None None None []).
  assert (tame (Person.pushSpouse sp0)) as Hf by by apply tame_pushSpouse.
  split; simpl.
  - by apply MapInv_alter_tame; [apply HI|].
  - intros g pid' Hin. destruct (inv_stack _ HI _ _ Hin) as (q & Hq & <-).
    destruct (keeps_lookup_alter (personMap s) pid _ pid' q (proj1 Hf) Hq)
      as (q' & Hq' & _ & Hg & _). eauto.
  - intros pid' [= <-]. apply lookup_alter_is_Some. eauto.
  - intros i [= <-]. exists pid, (Person.pushSpouse sp0 p).
    split; [done|]. rewrite lookup_alter_eq, Hp. split; [done|].
    unfold spousesOf. rewrite Hp. simpl. rewrite length_app. simpl. lia.
  - intros Hroot key p' Hp'.
    apply keeps_lookup_alter_inv in Hp' as (q & Hq & _ & -> & _);
      [|apply Hf].
    by eapply (inv_root _ HI).
Qed.

(** ** Every reachable state is consistent *)

Lemma Inv_processLine s rawLine : Inv s → Inv (processLine s rawLine).
Proof.
  intros HI. unfold processLine.
  destruct (cleanLine rawLine) as [line|]; [|done].
  destruct (exec GENERATION_REGEX line) as [[[g childIndex] rest]|] eqn:Eg.
  - apply Inv_processPerson; [done|].
    by apply GENERATION_REGEX_shape in Eg as (_ & _ & ? & _).
  - destruct (exec SPOUSE_REGEX line) as [spouseText|],
      (currentPerson s) as [pid|] eqn:Ec; try done.
    + by apply Inv_processSpouse.
    + destruct (matchMetadata METADATA_REGEX line) as [[key value]|];
        [|done].
      by apply Inv_processMetadata.
Qed.

Lemma parseLines_app s l1 l2 :
  parseLines s (l1 ++ l2) = parseLines (parseLines s l1) l2.
Proof. apply foldl_app. Qed.

Lemma Inv_parseLines s lines : Inv s → Inv (parseLines s lines).
Proof.
  revert s. induction lines as [|l lines IH]; intros s HI; [done|].
  simpl. apply IH. by apply Inv_processLine.
Qed.

Lemma reachable_Inv s : reachable s → Inv s.
Proof. intros [lines ->]. apply Inv_parseLines, Inv_initState. Qed.

Lemma reachable_processLine s rawLine :
  reachable s → reachable (processLine s rawLine).
Proof.
  intros [lines ->]. exists (lines ++ [rawLine]). by rewrite parseLines_app.
Qed.

Lemma reachable_parseLines s lines :
  reachable s → reachable (parseLines s lines).
Proof.
  intros [lines0 ->]. exists (lines0 ++ lines). by rewrite parseLines_app.
Qed.

(** ** Persons persist *)

Lemma processPerson_persist s g childIndex rest key p :
  personMap s !! key = Some p →
  ∃ p', personMap (processPerson s g childIndex rest) !! key = Some p'
        ∧ Person.name p' = Person.name p.
Proof.
  intros Hp.
  destruct (resolveId (personMap s) (slotOf s g childIndex) (extractName rest))
    as [fid found] eqn:E.
  destruct found.
  - rewrite (processPerson_found _ _ _ _ _ E). simpl. eauto.
  - rewrite (processPerson_new _ _ _ _ _ E). simpl.
    apply resolveId_new in E as (k & _ & _ & Hfree).
    destruct (lookup_new_old s g childIndex rest fid key p Hfree Hp)
      as (p' & Hp' & _ & _ & _ & Hn). eauto.
Qed.

Lemma onPerson_persist s pid f key p :
  keeps f → personMap s !! key = Some p →
  ∃ p', personMap (onPerson s pid f) !! key = Some p'
        ∧ Person.name p' = Person.name p.
Proof.
  intros Hf Hp. simpl.
  destruct (keeps_lookup_alter (personMap s) pid f key p Hf Hp)
    as (p' & Hp' & _ & _ & _ & Hn). eauto.
Qed.

Lemma processMetadata_persist s pid mkey value key p :
  personMap s !! key = Some p →
  ∃ p', personMap (processMetadata s pid mkey value) !! key = Some p'
        ∧ Person.name p' = Person.name p.
Proof.
  intros Hp. destruct mkey; simpl; try destruct (currentSpouse s);
    eauto; by apply onPerson_persist.
Qed.

Lemma processLine_persist s rawLine key p :
  personMap s !! key = Some p →
  ∃ p', personMap (processLine s rawLine) !! key = Some p'
        ∧ Person.name p' = Person.name p.
Proof.
  intros Hp. unfold processLine.
  destruct (cleanLine rawLine) as [line|]; [|eauto].
  destruct (exec GENERATION_REGEX line) as [[[g childIndex] rest]|].
  - by apply processPerson_persist.
  - destruct (exec SPOUSE_REGEX line) as [spouseText|],
      (currentPerson s) as [pid|]; eauto.
    + simpl.
      destruct (keeps_lookup_alter (personMap s) pid
                  (Person.pushSpouse
                     (Spouse.mk (extractName spouseText) None None None []))
                  key p) as (p' & Hp' & _ & _ & _ & Hn); [done|done|]. eauto.
    + destruct (matchMetadata METADATA_REGEX line) as [[mkey value]|];
        [|eauto].
      by apply processMetadata_persist.
Qed.

Lemma parseLines_persist s lines key p :
  personMap s !! key = Some p →
  ∃ p', personMap (parseLines s lines) !! key = Some p'
        ∧ Person.name p' = Person.name p.
Proof.
  revert s p. induction lines as [|l lines IH]; intros s p Hp; [eauto|].
  simpl. destruct (processLine_persist s l key p Hp) as (p1 & Hp1 & <-).
  by apply IH.
Qed.

(** A candidate of a slot under a parent differs from the parent. *)
Lemma candidate_ne_parent (parentId : option jsstring) g b k :
  truthy parentId = true →
  checkId (personCanonicalId parentId g b) k ≠ default [] parentId.
Proof.
  intros Ht E. apply (f_equal length) in E. revert E.
  unfold personCanonicalId. rewrite Ht. unfold checkId.
  destruct (k =? 1); rewrite !length_app; simpl; lia.
Qed.

(** The person a record has created is stored as created: linking it to
    its parent writes to the parent only. *)
Lemma lookup_new_exact s g childIndex rest k :
  linkToParent (stackTop (popStack g (parentStack s)))
    (checkId (slotOf s g childIndex) k)
    (<[checkId (slotOf s g childIndex) k
       := newPersonOf s g childIndex rest (checkId (slotOf s g childIndex) k)]>
       (personMap s))
    !! checkId (slotOf s g childIndex) k
  = Some (newPersonOf s g childIndex rest (checkId (slotOf s g childIndex) k)).
Proof.
  rewrite linkToParent_eq.
  destruct (truthy _) eqn:Ht; [|apply lookup_insert_eq].
  rewrite lookup_alter_ne; [apply lookup_insert_eq|].
  intros E. symmetry in E. revert E. by apply candidate_ne_parent.
Qed.


(** A line that matches [GENERATION_REGEX] is processed as a person
    record. *)
Lemma processLine_person s rawLine line g childIndex rest :
  cleanLine rawLine = Some line →
  exec GENERATION_REGEX line = Some (g, childIndex, rest) →
  processLine s rawLine = processPerson s (parseDigits g) childIndex rest.
Proof. intros Hc Hg. unfold processLine. by rewrite Hc, Hg. Qed.

(** ** The claims on identity resolution *)


Lemma free_candidate_within (pm : gmap jsstring Person.t) canon :
  ∃ n : nat, (n ≤ slotOccupancy pm canon)%nat
             ∧ pm !! checkId canon (1 + N.of_nat n) = None.
Proof.
  assert (∀ m : nat,
    (∀ j : nat, (j < m)%nat → is_Some (pm !! checkId canon (1 + N.of_nat j)))
    ∨ ∃ n : nat, (n < m)%nat ∧ pm !! checkId canon (1 + N.of_nat n) = None)
    as search.
  { induction m as [|m [IH|(n & Hn & IH)]].
    - left. lia.
    - destruct (pm !! checkId canon (1 + N.of_nat m)) as [p|] eqn:E.
      + left. intros j Hj. destruct (decide (j = m)) as [->|]; [eauto|].
        apply IH. lia.
      + right. exists m. split; [lia|done].
    - right. exists n. split; [lia|done]. }
  destruct (search (S (slotOccupancy pm canon))) as [Hall|(n & Hn & H)].
  - apply occupied_prefix_le in Hall. lia.
  - exists n. split; [lia|done].
Qed.







(** C8 (amended). The probing loop terminates. For every person map,
    canonical identity and name there is a number of probes, at most one
    more than the number of persons stored under identities of the slot
    (the canonical identity and its numbered variants), after which
    the loop has left: with that many probes or more the loop returns
    the result [resolveId], with fewer it is still running. When the
    result is not a merge the candidate reached is unoccupied, and an
    unoccupied candidate exists within the same bound. *)
Theorem probing_terminates (pm : gmap jsstring Person.t) canon name :
  ∃ probes : nat,
    (1 ≤ probes ≤ S (slotOccupancy pm canon))%nat
    ∧ (∀ fuel : nat, (probes ≤ fuel)%nat →
         probe fuel pm canon name 1 = Some (resolveId pm canon name))
    ∧ (∀ fuel : nat, (fuel < probes)%nat →
         probe fuel pm canon name 1 = None)
    ∧ resolveId pm canon name
      = (checkId canon (N.of_nat probes),
         bool_decide (is_Some (pm !! checkId canon (N.of_nat probes))))
    ∧ ∃ k : nat, (1 ≤ k ≤ S (slotOccupancy pm canon))%nat
                 ∧ pm !! checkId canon (N.of_nat k) = None.
Proof.
  destruct (resolveId_spec pm canon name) as (n & Hn & Hcol & Hstop & E).
  exists (S n). split; [lia|].
  replace (N.of_nat (S n)) with (1 + N.of_nat n) by lia.
  split; [|split; [|split; [done|]]].
  - intros fuel Hf. rewrite (probe_exact pm canon name n) by done.
    rewrite decide_False by lia. by rewrite E.
  - intros fuel Hf. rewrite (probe_exact pm canon name n) by done.
    by rewrite decide_True by lia.
  - destruct (free_candidate_within pm canon) as (m & Hm & Hfree).
    exists (S m). split; [lia|].
    by replace (N.of_nat (S m)) with (1 + N.of_nat m) by lia.
Qed.


(** ** The root *)

Lemma rootId_processPerson_kept s g childIndex rest :
  rootId s ≠ [] ∨ g ≠ 1 →
  rootId (processPerson s g childIndex rest) = rootId s.
Proof.
  intros H.
  destruct (resolveId (personMap s) (slotOf s g childIndex) (extractName rest))
    as [fid found] eqn:E.
  destruct found.
  - by rewrite (processPerson_found _ _ _ _ _ E).
  - rewrite (processPerson_new _ _ _ _ _ E). simpl.
    destruct H as [H|H].
    + rewrite bool_decide_eq_false_2 by done. by rewrite andb_false_r.
    + by destruct (N.eqb_spec g 1).
Qed.

Lemma rootId_processMetadata s pid key value :
  rootId (processMetadata s pid key value) = rootId s.
Proof. destruct key; simpl; by try destruct (currentSpouse s). Qed.

Lemma rootId_processLine_kept s rawLine :
  rootId s ≠ [] ∨ isGen1Record rawLine = false →
  rootId (processLine s rawLine) = rootId s.
Proof.
  unfold processLine, isGen1Record.
  destruct (cleanLine rawLine) as [line|]; [|done].
  destruct (exec GENERATION_REGEX line) as [[[g childIndex] rest]|].
  - intros H. apply rootId_processPerson_kept.
    destruct H as [H|H%N.eqb_neq]; auto.
  - intros _.
    destruct (exec SPOUSE_REGEX line) as [spouseText|],
      (currentPerson s) as [pid|]; try done;
      destruct (matchMetadata METADATA_REGEX line) as [[key value]|];
      try done; apply rootId_processMetadata.
Qed.

Lemma rootId_parseLines_kept s lines :
  rootId s ≠ [] → rootId (parseLines s lines) = rootId s.
Proof.
  revert s. induction lines as [|l lines IH]; intros s Hs; [done|].
  simpl. rewrite IH; rewrite rootId_processLine_kept; auto.
Qed.

Lemma rootId_parseLines_none s lines :
  Forall (λ l, isGen1Record l = false) lines →
  rootId (parseLines s lines) = rootId s.
Proof.
  intros H. revert s. induction H as [|l lines Hl _ IH]; intros s; [done|].
  simpl. rewrite IH. apply rootId_processLine_kept. auto.
Qed.

(** The first record of generation 1 creates a person and makes it the
    root. *)
Lemma rootId_first_record s rawLine :
  Inv s → rootId s = [] → isGen1Record rawLine = true →
  rootId (processLine s rawLine) ≠ []
  ∧ currentPerson (processLine s rawLine)
    = Some (rootId (processLine s rawLine))
  ∧ ∃ pre b k, rootId (processLine s rawLine) = checkId (slotId pre 1 b) k
               ∧ digits b.
Proof.
  intros HI Hroot. unfold processLine, isGen1Record.
  destruct (cleanLine rawLine) as [line|]; [|done].
  destruct (exec GENERATION_REGEX line) as [[[g childIndex] rest]|] eqn:Eg;
    [|done].
  intros ->%N.eqb_eq.
  apply GENERATION_REGEX_shape in Eg as (_ & _ & Hd & _).
  destruct (slotOf_shape s 1 childIndex) as [pre Es].
  destruct (resolveId (personMap s) (slotOf s 1 childIndex) (extractName rest))
    as [fid found] eqn:E.
  destruct found.
  - exfalso. apply resolveId_found in E as (k & p & _ & Hfid & Hp & _).
    destruct (inv_shape _ (inv_map _ HI) _ _ Hp) as (pre' & b' & k' & E' & Hb').
    rewrite Hfid, Es in E'.
    apply checkId_slotId_inj in E' as (_ & Hg & _); [|done..].
    by eapply (inv_root _ HI).
  - rewrite (processPerson_new _ _ _ _ _ E). simpl.
    rewrite bool_decide_eq_true_2 by done.
    apply resolveId_new in E as (k & _ & Hfid & _). rewrite Es in Hfid.
    split; [rewrite Hfid; apply checkId_nonempty|]. split; [done|].
    by exists pre, (baseIndex childIndex), k.
Qed.

(** C2. The root of the result is the identity assigned to the first
    new-person record of generation 1 in line order: if no line is such a
    record the root stays unset (empty); otherwise the root is set, it is
    the identity in focus right after the first such line is processed, and
    it is the identity of a stored person of generation 1. Once a root is
    set after some prefix of the lines, it is the same after every longer
    prefix. *)
Theorem root_is_first_generation_1 text :
  let lines := splitLines text in
  let fd := parseFamilyTree text in
  (Forall (λ l, isGen1Record l = false) lines → FamilyData.rootId fd = [])
  ∧ (∀ before l after,
       lines = before ++ l :: after →
       Forall (λ x, isGen1Record x = false) before →
       isGen1Record l = true →
       FamilyData.rootId fd ≠ []
       ∧ currentPerson (parseLines initState (before ++ [l]))
         = Some (FamilyData.rootId fd)
       ∧ ∃ p, FamilyData.allPersons fd !! FamilyData.rootId fd = Some p
              ∧ Person.generation p = 1
              ∧ Person.id p = FamilyData.rootId fd)
  ∧ (∀ n m : nat, (n ≤ m)%nat →
       rootId (parseLines initState (take n lines)) ≠ [] →
       rootId (parseLines initState (take m lines))
       = rootId (parseLines initState (take n lines))).
Proof.
  intros lines fd. unfold fd, parseFamilyTree. fold lines. simpl.
  split; [|split].
  - intros H. by rewrite rootId_parseLines_none.
  - intros before l after -> Hbefore Hl.
    rewrite (parseLines_app _ before [l]). simpl.
    replace (before ++ l :: after) with ((before ++ [l]) ++ after)
      by by rewrite <- app_assoc.
    rewrite (parseLines_app _ (before ++ [l]) after).
    rewrite (parseLines_app _ before [l]). simpl.
    set (s0 := parseLines initState before).
    assert (Inv s0) as HI0 by apply Inv_parseLines, Inv_initState.
    assert (rootId s0 = []) as Hr0 by by apply rootId_parseLines_none.
    destruct (rootId_first_record s0 l HI0 Hr0 Hl)
      as (Hne & Hcur & pre & b & k & Hshape & Hb).
    set (s1 := processLine s0 l) in *.
    rewrite rootId_parseLines_kept by done.
    split; [done|]. split; [done|].
    assert (Inv s1) as HI1 by by apply Inv_processLine.
    destruct (inv_focus _ HI1 _ Hcur) as [p1 Hp1].
    destruct (parseLines_persist s1 after _ p1 Hp1) as (p & Hp & _).
    assert (Inv (parseLines s1 after)) as HI by by apply Inv_parseLines.
    exists p. split; [done|]. split.
    + destruct (inv_shape _ (inv_map _ HI) _ _ Hp)
        as (pre' & b' & k' & E' & Hb').
      rewrite Hshape in E'.
      by apply checkId_slotId_inj in E' as (_ & <- & _).
    + by apply (inv_id _ (inv_map _ HI)).
  - intros n m Hnm Hset.
    rewrite <- (take_drop n (take m lines)) at 1.
    rewrite take_take, Nat.min_l by done.
    rewrite parseLines_app. by apply rootId_parseLines_kept.
Qed.

(** ** The claims on the result graph *)

Lemma parseFamilyTree_Inv text :
  MapInv (FamilyData.allPersons (parseFamilyTree text)).
Proof.
  unfold parseFamilyTree. simpl.
  apply inv_map, Inv_parseLines, Inv_initState.
Qed.

(** C9. In the result of any input, every identity in the children list of
    a spouse is a key of the person map, the person stored under it has the
    owner of the spouse as its parent, and no children list has a
    duplicate. *)
Theorem children_lists_consistent text key p sp :
  FamilyData.allPersons (parseFamilyTree text) !! key = Some p →
  sp ∈ Person.spouses p →
  NoDup (Spouse.childrenIds sp)
  ∧ ∀ c, c ∈ Spouse.childrenIds sp →
      ∃ q, FamilyData.allPersons (parseFamilyTree text) !! c = Some q
           ∧ Person.parentId q = Some (Person.id p).
Proof.
  intros Hp Hsp. pose proof (parseFamilyTree_Inv text) as HI. split.
  - by eapply (inv_nodup _ HI).
  - intros c Hc. rewrite (inv_id _ HI _ _ Hp).
    by eapply (inv_children _ HI).
Qed.

Lemma parentOf_generation text a b :
  tc (parentOf (parseFamilyTree text)) a b →
  ∃ pa pb, FamilyData.allPersons (parseFamilyTree text) !! a = Some pa
    ∧ FamilyData.allPersons (parseFamilyTree text) !! b = Some pb
    ∧ Person.generation pb < Person.generation pa.
Proof.
  pose proof (parseFamilyTree_Inv text) as HI.
  induction 1 as [a b (pa & Hpa & Hpar)|a b c (pa & Hpa & Hpar) _ IH].
  - destruct (inv_parent _ HI _ _ _ Hpa Hpar) as (pb & Hpb & Hlt). eauto.
  - destruct (inv_parent _ HI _ _ _ Hpa Hpar) as (pb & Hpb & Hlt).
    destruct IH as (pb' & pc & Hpb' & Hpc & Hlt').
    rewrite Hpb in Hpb'. injection Hpb' as <-.
    exists pa, pc. split; [done|]. split; [done|]. lia.
Qed.

(** C10. In the result of any input, the parent reference of a person, when
    set, is a key of the person map, and the person stored under it has a
    strictly smaller generation; hence no chain of parent references leads
    from a person back to that person. *)
Theorem parent_references_acyclic text :
  (∀ key p par,
     FamilyData.allPersons (parseFamilyTree text) !! key = Some p →
     Person.parentId p = Some par →
     ∃ q, FamilyData.allPersons (parseFamilyTree text) !! par = Some q
          ∧ Person.generation q < Person.generation p)
  ∧ (∀ a, ¬ tc (parentOf (parseFamilyTree text)) a a).
Proof.
  split.
  - intros key p par Hp Hpar.
    by eapply (inv_parent _ (parseFamilyTree_Inv text)).
  - intros a (pa & pb & Hpa & Hpb & Hlt)%parentOf_generation.
    rewrite Hpa in Hpb. injection Hpb as <-. lia.
Qed.

(** ** The claims on single lines *)


(** C7. When the record of a line resolves to an existing identity [fid],
    the person map is left as it is, so no person is created and no field
    of any person changes; the existing person comes into focus, the pair of
    the record's generation and [fid] is pushed on the popped ancestry
    stack, the spouse in focus is cleared, and the root is kept. *)
Theorem merge_changes_no_person s rawLine line g childIndex rest fid :
  cleanLine rawLine = Some line →
  exec GENERATION_REGEX line = Some (g, childIndex, rest) →
  resolveId (personMap s) (slotOf s (parseDigits g) childIndex)
            (extractName rest) = (fid, true) →
  is_Some (personMap s !! fid)
  ∧ processLine s rawLine
    = mkState (personMap s) (Some fid) None
              ((parseDigits g, fid)
                 :: popStack (parseDigits g) (parentStack s))
              (rootId s).
Proof.
  intros Hc Hg E. unfold processLine. rewrite Hc, Hg.
  rewrite (processPerson_found _ _ _ _ _ E). split; [|done].
  apply resolveId_found in E as (k & p & _ & _ & Hp & _). eauto.
Qed.

(** ** Metadata lines *)

Lemma labelled1_head lbl line v :
  exec (labelled1 lbl) line = Some v → ∃ r, line = lbl ++ r.
Proof.
  intros [r H]%exec_Some. unfold labelled1 in H.
  apply elem_of_andThen in H as (? & s1 & [_ ->]%elem_of_lit & _). eauto.
Qed.

Lemma labelled0_head lbl line v :
  exec (labelled0 lbl) line = Some v → ∃ r, line = lbl ++ r.
Proof.
  intros [r H]%exec_Some. unfold labelled0 in H.
  apply elem_of_andThen in H as (? & s1 & [_ ->]%elem_of_lit & _). eauto.
Qed.

(** A metadata line starts with none of the marks of the person and the
    spouse lines, so it reaches the metadata block. *)
Lemma metadata_not_person line kv :
  matchMetadata METADATA_REGEX line = Some kv →
  exec GENERATION_REGEX line = None ∧ exec SPOUSE_REGEX line = None.
Proof.
  intros H.
  assert (∃ c t, line = c :: t ∧ c ≠ 40 ∧ c ≠ 38) as (c & t & -> & H1 & H2).
  { unfold METADATA_REGEX in H. simpl in H.
    repeat match type of H with
    | match exec (labelled1 ?l) ?x with _ => _ end = _ =>
      let E := fresh "E" in
      destruct (exec (labelled1 l) x) eqn:E;
        [apply labelled1_head in E as [r ->]; eexists _, _;
         split; [reflexivity|done]|]
    | match exec (labelled0 ?l) ?x with _ => _ end = _ =>
      let E := fresh "E" in
      destruct (exec (labelled0 l) x) eqn:E;
        [apply labelled0_head in E as [r ->]; eexists _, _;
         split; [reflexivity|done]|]
    end.
    done. }
  split; apply exec_None.
  - unfold GENERATION_REGEX. change (u "(") with [40]. by apply lit_head_ne.
  - unfold SPOUSE_REGEX. change (u "&") with [38]. by apply lit_head_ne.
Qed.

Lemma processLine_metadata s rawLine key value :
  isMetadataLine rawLine key value →
  processLine s rawLine
  = match currentPerson s with
    | Some pid => processMetadata s pid key value
    | None => s
    end.
Proof.
  intros (line & Hc & Hm). unfold processLine. rewrite Hc.
  destruct (metadata_not_person line _ Hm) as [-> ->]. rewrite Hm.
  by destruct (currentPerson s).
Qed.

Lemma onPerson_setPerson s pid f p :
  personMap s !! pid = Some p → onPerson s pid f = setPerson s pid (f p).
Proof.
  intros Hp. unfold onPerson, setPerson. f_equal.
  apply map_eq. intros j. rewrite lookup_alter, lookup_insert.
  case_decide; [subst j; by rewrite Hp|done].
Qed.

Lemma alterSpouse_last h p sps sp :
  Person.spouses p = sps ++ [sp] →
  Person.alterSpouse h (length sps) p
  = Person.set_spouses (sps ++ [h sp]) p.
Proof.
  intros Hsp. unfold Person.alterSpouse. rewrite Hsp.
  replace (length sps) with (length sps + 0)%nat by lia.
  by rewrite alter_app_r.
Qed.

(** In a reachable state the spouse in focus is the last spouse of the
    person in focus. *)
Lemma focus_spouse_last s pid i :
  Inv s → currentPerson s = Some pid → currentSpouse s = Some i →
  ∃ p sps sp, personMap s !! pid = Some p
              ∧ Person.spouses p = sps ++ [sp] ∧ length sps = i.
Proof.
  intros HI Hc Hi.
  destruct (inv_spouse _ HI _ Hi) as (pid' & p & Hc' & Hp & Hl).
  rewrite Hc in Hc'. injection Hc' as <-.
  destruct (Person.spouses p) as [|sp0 l] eqn:Hs using rev_ind; [done|].
  exists p, l, sp0. rewrite length_app in Hl. simpl in Hl.
  split; [done|]. split; [done|]. lia.
Qed.

(** C6. For a metadata line: without a person in focus the line leaves
    the parse state as it is, whatever the state. In a reachable state with
    a person in focus: a marriage or divorce date is written to the spouse
    in focus, which is the last spouse of the person in focus, and the line
    changes nothing when no spouse is in focus; a localized name is written
    to the spouse in focus when there is one and to the person in focus
    otherwise. The record written is spelled out field by field: the field
    named by the line holds the value of the line, every other field of the
    spouse and of the person is as before, and nothing else in the state
    changes. *)
Theorem metadata_line_targets rawLine key value :
  isMetadataLine rawLine key value →
  (∀ s, currentPerson s = None → processLine s rawLine = s)
  ∧ (∀ s pid, reachable s → currentPerson s = Some pid →
       ∃ p, personMap s !! pid = Some p
         ∧ match key, currentSpouse s with
           | marriage, None | divorce, None => processLine s rawLine = s
           | marriage, Some _ =>
             ∃ sps sp, Person.spouses p = sps ++ [sp]
               ∧ processLine s rawLine
                 = setPerson s pid
                     (withSpouses
                        (sps ++ [Spouse.mk (Spouse.name sp) (Spouse.nameVN sp)
                                           (Some value) (Spouse.divorceDate sp)
                                           (Spouse.childrenIds sp)]) p)
           | divorce, Some _ =>
             ∃ sps sp, Person.spouses p = sps ++ [sp]
               ∧ processLine s rawLine
                 = setPerson s pid
                     (withSpouses
                        (sps ++ [Spouse.mk (Spouse.name sp) (Spouse.nameVN sp)
                                           (Spouse.marriageDate sp) (Some value)
                                           (Spouse.childrenIds sp)]) p)
           | nameVN, Some _ =>
             ∃ sps sp, Person.spouses p = sps ++ [sp]
               ∧ processLine s rawLine
                 = setPerson s pid
                     (withSpouses
                        (sps ++ [Spouse.mk (Spouse.name sp) (Some value)
                                           (Spouse.marriageDate sp)
                                           (Spouse.divorceDate sp)
                                           (Spouse.childrenIds sp)]) p)
           | nameVN, None =>
             processLine s rawLine
             = setPerson s pid
                 (Person.mk (Person.id p) (Person.generation p)
                    (Person.childIndex p) (Person.name p) (Person.birthYear p)
                    (Person.deathYear p) (Person.spouses p) (Person.parentId p)
                    (Person.alias p) (Person.houseName p) (Some value)
                    (Person.memorialDate p) (Person.religiousName p))
           | _, _ => True
           end).
Proof.
  intros Hm. split.
  - intros s Hc. by rewrite (processLine_metadata _ _ _ _ Hm), Hc.
  - intros s pid HI%reachable_Inv Hc.
    rewrite (processLine_metadata _ _ _ _ Hm), Hc.
    destruct (inv_focus _ HI _ Hc) as [p Hp]. exists p. split; [done|].
    destruct (currentSpouse s) as [i|] eqn:Hi.
    + destruct (focus_spouse_last s pid i HI Hc Hi)
        as (p' & sps & sp & Hp' & Hsp & <-).
      rewrite Hp in Hp'. injection Hp' as <-.
      destruct key; simpl; rewrite ?Hi; try done;
        exists sps, sp; (split; [done|]);
        rewrite (onPerson_setPerson _ _ _ _ Hp);
        by rewrite (alterSpouse_last _ _ _ _ Hsp).
    + destruct key; simpl; rewrite ?Hi; try done.
      by rewrite (onPerson_setPerson _ _ _ _ Hp).
Qed.

(** ** The extractors *)

Lemma removeAll_no_match {A} (p : Re A) s :
  (∀ i : nat, p (drop i s) = []) → removeAll p s = s.
Proof.
  unfold removeAll. induction s as [|c t IH]; intros H; [done|].
  pose proof (H 0%nat) as H0. simpl in *. rewrite H0. f_equal.
  apply IH. intros i. apply (H (S i)).
Qed.

Lemma PAREN_REGEX_no_match s : hasParenthesis s = false → PAREN_REGEX s = [].
Proof.
  destruct s as [|c t]; [done|]. simpl.
  intros [[Hc _]%orb_false_iff _]%orb_false_iff.
  unfold PAREN_REGEX. change (u "(") with [40]. apply lit_head_ne.
  by apply N.eqb_neq.
Qed.

Lemma hasParenthesis_drop s (i : nat) :
  hasParenthesis s = false → hasParenthesis (drop i s) = false.
Proof.
  revert i. induction s as [|c t IH]; intros [|i] H; try done.
  simpl in *. apply orb_false_iff in H as [_ H]. by apply IH.
Qed.

Lemma markerOccurs_drop s (i : nat) :
  markerOccurs s = false → markerOccurs (drop i s) = false.
Proof.
  revert i. induction s as [|c t IH]; intros [|i] H; try done.
  simpl in H. apply orb_false_iff in H as [_ H]. by apply IH.
Qed.

Lemma markerOccurs_skip ws s :
  markerOccursAt s = true → markerOccurs (ws ++ s) = true.
Proof.
  intros H. induction ws as [|c ws IH].
  - destruct s as [|c t]; [by vm_compute in H|].
    change (markerOccursAt (c :: t) || markerOccurs t = true). by rewrite H.
  - change (markerOccursAt (c :: ws ++ s) || markerOccurs (ws ++ s) = true).
    rewrite IH. apply orb_true_r.
Qed.

(** A match of the marker alternative is one of the marker words. *)
Lemma MARKER_REGEX_word s x r :
  (x, r) ∈ MARKER_REGEX s → ∃ w, w ∈ markerWords ∧ stripWordI w s = Some r.
Proof.
  unfold MARKER_REGEX, chrI. rewrite !elem_of_alt.
  intros [H|[H|H]];
    repeat match type of H with
    | _ ∈ andThen _ _ _ =>
      let c := fresh "c" in let Hc := fresh "Hc" in
      apply elem_of_andThen in H as (c & ? & [-> Hc]%elem_of_chr & H)
    | _ ∈ ret _ _ => apply elem_of_ret in H as [_ ->]
    end.
  - exists [(118, 86); (110, 78)]. split; [by left|]. simpl.
    by rewrite Hc, Hc0.
  - exists [(110, 78); (233, 201)]. split; [right; by left|]. simpl.
    by rewrite Hc, Hc0.
  - exists [(110, 78); (233, 201); (101, 69)].
    split; [right; right; by left|]. simpl. by rewrite Hc, Hc0, Hc1.
Qed.

Lemma VN_REGEX_no_match s : markerOccurs s = false → VN_REGEX s = [].
Proof.
  intros Hno. destruct (VN_REGEX s) as [|[x r] l] eqn:E; [done|]. exfalso.
  assert ((x, r) ∈ VN_REGEX s) as H by (rewrite E; by left).
  unfold VN_REGEX in H.
  apply elem_of_andThen in H as (ws0 & s1 & [-> _]%elem_of_star & H).
  apply elem_of_andThen in H as (? & s2 & (w & Hw & Hs)%MARKER_REGEX_word & H).
  apply elem_of_andThen in H as (ws1 & s3 & (-> & Hws1 & Hne1)%elem_of_plus & H).
  apply elem_of_andThen in H as (tok & s4 & (-> & Htok & Hne2)%elem_of_plus & _).
  rewrite markerOccurs_skip in Hno; [done|].
  unfold markerOccursAt. apply existsb_exists. exists w.
  split; [by apply list_elem_of_In|]. rewrite Hs.
  destruct ws1 as [|c ws1]; [done|]. simpl.
  apply Forall_cons in Hws1 as [-> _]. simpl.
  apply negb_true_iff, not_true_is_false. intros Hall.
  rewrite forallb_app in Hall. apply andb_true_iff in Hall as [_ Hall].
  destruct tok as [|t tok]; [done|]. apply Forall_cons in Htok as [Ht _].
  simpl in Hall. apply andb_true_iff in Hall as [Hall _].
  unfold isNonSpace in Ht. by rewrite Hall in Ht.
Qed.

(** Where the pattern of the code finds nothing, the name is the trimmed
    string: a string with no parenthesis character in which the letters of
    a marker word never occur before white space and a token. *)
Lemma extractName_plain s :
  hasParenthesis s = false → markerOccurs s = false →
  extractName s = trim s.
Proof.
  intros Hp Ha. unfold extractName.
  rewrite (removeAll_no_match PAREN_REGEX).
  - rewrite (removeAll_no_match VN_REGEX); [done|].
    intros i. by apply VN_REGEX_no_match, markerOccurs_drop.
  - intros i. by apply PAREN_REGEX_no_match, hasParenthesis_drop.
Qed.

(** * Further properties: the parser and the functions that use its result *)

(** ** Persons only grow *)

Lemma spouseGrows_refl sp : spouseGrows sp sp.
Proof. by split. Qed.

Lemma Forall2_spouseGrows_refl l : Forall2 spouseGrows l l.
Proof. induction l; constructor; auto using spouseGrows_refl. Qed.

Lemma spouseGrows_trans sp1 sp2 sp3 :
  spouseGrows sp1 sp2 → spouseGrows sp2 sp3 → spouseGrows sp1 sp3.
Proof.
  intros [H1 H2] [H3 H4]. split; [congruence|]. by etrans.
Qed.

Lemma sameCore_refl p : sameCore p p.
Proof. by repeat split. Qed.

Lemma sameCore_trans p1 p2 p3 :
  sameCore p1 p2 → sameCore p2 p3 → sameCore p1 p3.
Proof.
  intros (?&?&?&?&?&?&?) (?&?&?&?&?&?&?). repeat split; congruence.
Qed.

Lemma personGrows_refl p : personGrows p p.
Proof.
  split; [apply sameCore_refl|]. split; [|done].
  exists (Person.spouses p), []. split; [by rewrite app_nil_r|].
  apply Forall2_spouseGrows_refl.
Qed.

Lemma personGrows_trans p1 p2 p3 :
  personGrows p1 p2 → personGrows p2 p3 → personGrows p1 p3.
Proof.
  intros (Hc1 & (l1 & l2 & E1 & F1) & Ha1) (Hc2 & (m1 & m2 & E2 & F2) & Ha2).
  split; [by eapply sameCore_trans|]. split; [|by etrans].
  rewrite E1 in F2. apply Forall2_app_inv_l in F2 as (a & b & Fa & Fb & ->).
  exists a, (b ++ m2). split; [by rewrite E2, <- app_assoc|].
  clear -F1 Fa. revert a Fa.
  induction F1 as [|x y l l' Hxy _ IH]; intros a Fa.
  - by apply Forall2_nil_inv_l in Fa as ->.
  - apply Forall2_cons_inv_l in Fa as (z & a' & Hyz & Fa & ->).
    constructor; [by eapply spouseGrows_trans|auto].
Qed.

Lemma growing_same_spouses f :
  (∀ p, sameCore p (f p)) →
  (∀ p, Person.spouses (f p) = Person.spouses p) →
  (∀ p, default [] (Person.alias p) `prefix_of` default [] (Person.alias (f p))) →
  growing f.
Proof.
  intros Hc Hs Ha p. split; [done|]. split; [|done].
  exists (Person.spouses p), []. rewrite Hs, app_nil_r.
  split; [done|apply Forall2_spouseGrows_refl].
Qed.

Lemma growing_pushAlias v : growing (Person.pushAlias v).
Proof.
  apply growing_same_spouses; [by repeat split|done|].
  intros p. simpl. by apply prefix_app_r.
Qed.

Lemma growing_set_houseName v : growing (Person.set_houseName v).
Proof. by apply growing_same_spouses; [repeat split|..]. Qed.

Lemma growing_set_nameVN v : growing (Person.set_nameVN v).
Proof. by apply growing_same_spouses; [repeat split|..]. Qed.

Lemma growing_set_memorialDate v : growing (Person.set_memorialDate v).
Proof. by apply growing_same_spouses; [repeat split|..]. Qed.

Lemma growing_set_religiousName v : growing (Person.set_religiousName v).
Proof. by apply growing_same_spouses; [repeat split|..]. Qed.

Lemma growing_pushSpouse sp0 : growing (Person.pushSpouse sp0).
Proof.
  intros p. split; [by repeat split|]. split; [|done].
  exists (Person.spouses p), [sp0]. split; [done|].
  apply Forall2_spouseGrows_refl.
Qed.

Lemma Forall2_spouseGrows_alter h (i : nat) l :
  (∀ sp, spouseGrows sp (h sp)) → Forall2 spouseGrows l (alter h i l).
Proof.
  intros Hh. revert i. induction l as [|sp l IH]; intros [|i]; simpl.
  - constructor.
  - constructor.
  - constructor; [done|apply Forall2_spouseGrows_refl].
  - constructor; [apply spouseGrows_refl|apply IH].
Qed.

Lemma growing_alterSpouse h i :
  (∀ sp, spouseGrows sp (h sp)) → growing (Person.alterSpouse h i).
Proof.
  intros Hh p. split; [by repeat split|]. split; [|done].
  exists (alter h i (Person.spouses p)), []. split; [by rewrite app_nil_r|].
  by apply Forall2_spouseGrows_alter.
Qed.

Lemma growing_alterLastSpouse h :
  (∀ sp, spouseGrows sp (h sp)) → growing (Person.alterLastSpouse h).
Proof. intros Hh p. by apply (growing_alterSpouse h _ Hh p). Qed.

Lemma spouseGrows_addChild (c : jsstring) sp :
  spouseGrows sp (Spouse.addChild c sp).
Proof.
  unfold Spouse.addChild. case_bool_decide; [apply spouseGrows_refl|].
  split; [done|]. simpl. by apply prefix_app_r.
Qed.

Lemma lookup_alter_grows (pm : gmap jsstring Person.t) pid f key p :
  growing f → pm !! key = Some p →
  ∃ p', alter f pid pm !! key = Some p' ∧ personGrows p p'.
Proof.
  intros Hf Hp. rewrite lookup_alter. case_decide.
  - subst key. rewrite Hp. simpl. eauto.
  - exists p. split; [done|apply personGrows_refl].
Qed.

Lemma processPerson_grows s g childIndex rest key p :
  personMap s !! key = Some p →
  ∃ p', personMap (processPerson s g childIndex rest) !! key = Some p'
        ∧ personGrows p p'.
Proof.
  intros Hp.
  destruct (resolveId (personMap s) (slotOf s g childIndex) (extractName rest))
    as [fid found] eqn:E.
  destruct found.
  - rewrite (processPerson_found _ _ _ _ _ E). simpl.
    exists p. split; [done|apply personGrows_refl].
  - rewrite (processPerson_new _ _ _ _ _ E). simpl.
    apply resolveId_new in E as (k & _ & _ & Hfree).
    rewrite linkToParent_eq.
    assert (<[fid := newPersonOf s g childIndex rest fid]> (personMap s) !! key
            = Some p) as Hp1.
    { rewrite lookup_insert_ne; [done|]. congruence. }
    destruct (truthy _); [|exists p; split; [done|apply personGrows_refl]].
    apply lookup_alter_grows; [|done].
    apply growing_alterLastSpouse, spouseGrows_addChild.
Qed.

Lemma processMetadata_grows s pid mkey value key p :
  personMap s !! key = Some p →
  ∃ p', personMap (processMetadata s pid mkey value) !! key = Some p'
        ∧ personGrows p p'.
Proof.
  intros Hp.
  destruct mkey; simpl; try destruct (currentSpouse s);
    first [ by exists p; split; [|apply personGrows_refl]
          | apply lookup_alter_grows; [|done];
            first [ apply growing_pushAlias | apply growing_set_houseName
                  | apply growing_set_nameVN | apply growing_set_memorialDate
                  | apply growing_set_religiousName
                  | by apply growing_alterSpouse ] ].
Qed.

Lemma processLine_grows s rawLine key p :
  personMap s !! key = Some p →
  ∃ p', personMap (processLine s rawLine) !! key = Some p'
        ∧ personGrows p p'.
Proof.
  intros Hp. unfold processLine.
  assert (∃ p', personMap s !! key = Some p' ∧ personGrows p p') as Hsame.
  { exists p. split; [done|apply personGrows_refl]. }
  destruct (cleanLine rawLine) as [line|]; [|done].
  destruct (exec GENERATION_REGEX line) as [[[g childIndex] rest]|].
  - by apply processPerson_grows.
  - destruct (exec SPOUSE_REGEX line) as [spouseText|],
      (currentPerson s) as [pid|]; try done.
    + simpl. apply lookup_alter_grows; [apply growing_pushSpouse|done].
    + destruct (matchMetadata METADATA_REGEX line) as [[mkey value]|];
        [|done].
      by apply processMetadata_grows.
Qed.

Lemma parseLines_grows s lines key p :
  personMap s !! key = Some p →
  ∃ p', personMap (parseLines s lines) !! key = Some p' ∧ personGrows p p'.
Proof.
  revert s p. induction lines as [|l lines IH]; intros s p Hp.
  - exists p. split; [done|apply personGrows_refl].
  - simpl. destruct (processLine_grows s l key p Hp) as (p1 & Hp1 & G1).
    destruct (IH _ _ Hp1) as (p2 & Hp2 & G2).
    exists p2. split; [done|]. by eapply personGrows_trans.
Qed.

(** X1. A person, once stored, stays stored for the rest of the parse,
    under the same key and with the same identity, generation, sibling
    index, name, birth year, death year and parent reference. *)
Theorem person_core_never_changes s lines key p :
  personMap s !! key = Some p →
  ∃ p', personMap (parseLines s lines) !! key = Some p'
    ∧ Person.id p' = Person.id p
    ∧ Person.generation p' = Person.generation p
    ∧ Person.childIndex p' = Person.childIndex p
    ∧ Person.name p' = Person.name p
    ∧ Person.birthYear p' = Person.birthYear p
    ∧ Person.deathYear p' = Person.deathYear p
    ∧ Person.parentId p' = Person.parentId p.
Proof.
  intros Hp. destruct (parseLines_grows s lines key p Hp) as (p' & Hp' & Hc & _).
  exists p'. split; [done|exact Hc].
Qed.

(** X2. The lists of a stored person are append-only over the rest of the
    parse: the later spouse list is the earlier one, each spouse under the
    same name and with its children list extended at the end, followed by
    the spouses added since; the later alias list starts with the earlier
    one. *)
Theorem person_lists_append_only s lines key p :
  personMap s !! key = Some p →
  ∃ p' l1 l2,
    personMap (parseLines s lines) !! key = Some p'
    ∧ Person.spouses p' = l1 ++ l2
    ∧ Forall2 (λ sp sp', Spouse.name sp' = Spouse.name sp
                 ∧ Spouse.childrenIds sp `prefix_of` Spouse.childrenIds sp')
              (Person.spouses p) l1
    ∧ default [] (Person.alias p) `prefix_of` default [] (Person.alias p').
Proof.
  intros Hp.
  destruct (parseLines_grows s lines key p Hp)
    as (p' & Hp' & _ & (l1 & l2 & E & F) & Ha).
  by exists p', l1, l2.
Qed.

(** ** Where persons come from *)

Lemma dom_processMetadata s pid mkey value :
  dom (personMap (processMetadata s pid mkey value)) = dom (personMap s).
Proof.
  destruct mkey; simpl; try destruct (currentSpouse s); simpl;
    by rewrite ?dom_alter_L.
Qed.

(** A person stored after a line was stored before it, or is the person
    that the record of the line has created under a free identity. *)
Lemma processLine_lookup_inv s rawLine key p' :
  personMap (processLine s rawLine) !! key = Some p' →
  (∃ p, personMap s !! key = Some p ∧ personGrows p p')
  ∨ (personMap s !! key = None
     ∧ ∃ line g childIndex rest k,
         cleanLine rawLine = Some line
         ∧ exec GENERATION_REGEX line = Some (g, childIndex, rest)
         ∧ 1 ≤ k
         ∧ key = checkId (slotOf s (parseDigits g) childIndex) k
         ∧ p' = newPersonOf s (parseDigits g) childIndex rest key).
Proof.
  intros Hp'. destruct (personMap s !! key) as [p|] eqn:Hp.
  { left. destruct (processLine_grows s rawLine key p Hp) as (p1 & Hp1 & G).
    exists p. split; [done|]. congruence. }
  right. split; [done|]. revert Hp'. unfold processLine.
  destruct (cleanLine rawLine) as [line|] eqn:Hc; [|congruence].
  destruct (exec GENERATION_REGEX line) as [[[g childIndex] rest]|] eqn:Hg.
  - destruct (resolveId (personMap s)
                (slotOf s (parseDigits g) childIndex) (extractName rest))
      as [fid found] eqn:E.
    destruct found.
    + rewrite (processPerson_found _ _ _ _ _ E). simpl. congruence.
    + rewrite (processPerson_new _ _ _ _ _ E). simpl.
      apply resolveId_new in E as (k & Hk & Hfid & Hfree).
      intros Hp'. assert (key = fid) as ->.
      { destruct (decide (key = fid)) as [|Hne]; [done|]. exfalso.
        rewrite linkToParent_eq in Hp'.
        assert (<[fid := newPersonOf s (parseDigits g) childIndex rest fid]>
                  (personMap s) !! key = None) as Hnone
          by by rewrite lookup_insert_ne.
        destruct (truthy _); [|congruence].
        apply (lookup_alter_None (Person.alterLastSpouse (Spouse.addChild fid))
                 _ (default [] (stackTop (popStack (parseDigits g)
                                            (parentStack s))))) in Hnone.
        congruence. }
      exists line, g, childIndex, rest, k. repeat (split; [done|]).
      subst fid. rewrite lookup_new_exact in Hp'. congruence.
  - intros Hp'. exfalso.
    assert (key ∈ dom (personMap s) → False) as Hnot.
    { rewrite elem_of_dom, Hp. by intros [??]. }
    apply Hnot. revert Hp'.
    destruct (exec SPOUSE_REGEX line) as [spouseText|],
      (currentPerson s) as [pid|]; try congruence.
    + simpl. intros Hp'. apply elem_of_dom.
      eapply lookup_alter_is_Some. eauto.
    + destruct (matchMetadata METADATA_REGEX line) as [[mkey value]|];
        [|congruence].
      intros Hp'. rewrite <- (dom_processMetadata s pid mkey value).
      apply elem_of_dom. eauto.
Qed.

(** Every person of a reachable state was created by a person record in
    an earlier reachable state, and has the core fields it was created
    with. *)
Lemma reachable_created s key p :
  reachable s → personMap s !! key = Some p →
  ∃ s0 g childIndex rest k,
    reachable s0 ∧ digits (baseIndex childIndex) ∧ 1 ≤ k
    ∧ key = checkId (slotOf s0 g childIndex) k
    ∧ personMap s0 !! key = None
    ∧ sameCore (newPersonOf s0 g childIndex rest key) p.
Proof.
  intros [lines ->]. revert key p.
  induction lines as [|l lines IH] using rev_ind; intros key p.
  { simpl. by rewrite lookup_empty. }
  rewrite parseLines_app. simpl. intros Hp.
  apply processLine_lookup_inv in Hp
    as [(p0 & Hp0 & G)|(Hnone & line & g & ci & rest & k & Hc & Hg & Hk & -> & ->)].
  - destruct (IH _ _ Hp0) as (s0 & g & ci & rest & k & Hr & Hd & Hk & E & Hn & Hc).
    exists s0, g, ci, rest, k. repeat (split; [done|]).
    eapply sameCore_trans; [exact Hc|apply G].
  - exists (parseLines initState lines), (parseDigits g), ci, rest, k.
    split; [by eexists|].
    split; [by apply GENERATION_REGEX_shape in Hg as (_ & _ & ? & _)|].
    repeat (split; [done|]). apply sameCore_refl.
Qed.

(** The identity of a person of a reachable state, read off the record
    that has created it. *)
Lemma reachable_identity s key p :
  reachable s → personMap s !! key = Some p →
  digits (baseIndex (Person.childIndex p))
  ∧ ∃ k, 1 ≤ k
      ∧ key = checkId (default (u "root") (Person.parentId p)
                         ++ u "_g" ++ toString (Person.generation p)
                         ++ u "-" ++ baseIndex (Person.childIndex p)) k.
Proof.
  intros Hs Hp.
  apply reachable_created in Hp
    as (s0 & g & ci & rest & k & Hr & Hd & Hk & E & Hn & Hc); [|done].
  destruct Hc as (_ & Hg & Hci & _ & _ & _ & Hpar).
  simpl in Hg, Hci, Hpar.
  subst g ci. split; [done|]. exists k. split; [done|].
  rewrite E. f_equal. unfold slotOf, personCanonicalId. rewrite Hpar.
  destruct (stackTop _) as [pid|] eqn:Htop; [|done].
  by destruct (parent_of_record s0 _ pid (reachable_Inv _ Hr) Htop) as [-> _].
Qed.

(** X3. In the result of a chart whose generation numbers are below 2^53,
    the identity of every person spells out the person's place: the
    identity of the parent (the word root for a person without parent),
    then [_g] and the generation in decimal, a hyphen and the sibling index
    without its letter, and last, for the second and later persons of one
    slot, an underscore and the number of the collision. The base index is
    a string of digits. *)
Theorem identity_format text key p :
  exactGenerations (splitLines text) →
  FamilyData.allPersons (parseFamilyTree text) !! key = Some p →
  digits (baseIndex (Person.childIndex p))
  ∧ ∃ k, 1 ≤ k
      ∧ key = checkId (default (u "root") (Person.parentId p)
                         ++ u "_g" ++ toString (Person.generation p)
                         ++ u "-" ++ baseIndex (Person.childIndex p)) k.
Proof.
  intros _. unfold parseFamilyTree. simpl. apply reachable_identity.
  by eexists.
Qed.

Lemma isIdChar_digits d : digits d → forallb isIdChar d = true.
Proof.
  induction 1 as [|c d Hc _ IH]; [done|]. simpl. rewrite IH.
  unfold isIdChar. by rewrite Hc.
Qed.

Lemma forallb_isIdChar_app a b :
  forallb isIdChar (a ++ b) = forallb isIdChar a && forallb isIdChar b.
Proof. apply forallb_app. Qed.

(** X4. In the result of a chart whose generation numbers are below 2^53,
    every identity is made of the letters r, o, t and g, decimal digits,
    underscores and hyphens only, whatever else the lines of the chart
    hold; it has no white space and is not empty. *)
Theorem identity_characters text key :
  exactGenerations (splitLines text) →
  is_Some (FamilyData.allPersons (parseFamilyTree text) !! key) →
  key ≠ [] ∧ forallb isIdChar key = true.
Proof.
  intros _. remember (length key) as n eqn:Hn. revert key Hn.
  induction n as [n IH] using lt_wf_ind. intros key Hn [p Hp].
  destruct (reachable_identity (parseLines initState (splitLines text)) key p
              ltac:(by eexists) Hp) as (Hd & k & Hk & E).
  assert (forallb isIdChar (default (u "root") (Person.parentId p)) = true)
    as Hpar.
  { destruct (Person.parentId p) as [par|] eqn:Epar; [|done]. simpl.
    destruct (inv_parent _ (parseFamilyTree_Inv text) _ _ _ Hp Epar)
      as (q & Hq & _).
    eapply (IH (length par)); [|done|by eexists].
    subst n. rewrite E. simpl. unfold checkId.
    destruct (k =? 1); rewrite !length_app; simpl; lia. }
  assert (forallb isIdChar
            (default (u "root") (Person.parentId p) ++ u "_g"
               ++ toString (Person.generation p) ++ u "-"
               ++ baseIndex (Person.childIndex p)) = true) as Hcanon.
  { rewrite !forallb_isIdChar_app, Hpar.
    rewrite (isIdChar_digits (toString _)) by apply toString_digits.
    by rewrite (isIdChar_digits (baseIndex _)) by done. }
  split.
  - rewrite E. unfold checkId. destruct (k =? 1).
    + destruct (default _ _); done.
    + destruct (default _ _); done.
  - rewrite E. unfold checkId. destruct (k =? 1); [done|].
    rewrite forallb_isIdChar_app, Hcanon, forallb_isIdChar_app.
    by rewrite (isIdChar_digits (toString _)) by apply toString_digits.
Qed.

(** ** The ancestry stack and the focus *)

Lemma popStack_sorted g st : stackSorted st → stackSorted (popStack g st).
Proof.
  induction st as [|[g' pid] st IH]; [done|]. simpl.
  intros [H1 H2]. destruct (g <=? g'); [auto|]. by split.
Qed.

Lemma popStack_head g st :
  match popStack g st with
  | (g', _) :: _ => g' < g
  | [] => True
  end.
Proof.
  induction st as [|[g' pid] st IH]; [done|]. simpl.
  by destruct (N.leb_spec g g').
Qed.

Lemma stackSorted_length st :
  stackSorted st →
  match st with
  | (g, _) :: _ => (length st ≤ S (N.to_nat g))%nat
  | [] => True
  end.
Proof.
  induction st as [|[g pid] st IH]; [done|]. simpl. intros [H1 H2].
  specialize (IH H2). destruct st as [|[g' pid'] st]; simpl in *; lia.
Qed.

Lemma processPerson_focus s g childIndex rest :
  stackSorted (parentStack s) →
  currentPerson (processPerson s g childIndex rest)
  = stackTop (parentStack (processPerson s g childIndex rest))
  ∧ stackSorted (parentStack (processPerson s g childIndex rest)).
Proof.
  intros Hs. pose proof (popStack_head g (parentStack s)) as Hh.
  pose proof (popStack_sorted g _ Hs) as Hp.
  destruct (resolveId (personMap s) (slotOf s g childIndex) (extractName rest))
    as [fid found] eqn:E.
  destruct found.
  - rewrite (processPerson_found _ _ _ _ _ E). simpl. split; [done|].
    split; [|done]. by destruct (popStack g (parentStack s)) as [|[??]?].
  - rewrite (processPerson_new _ _ _ _ _ E). simpl. split; [done|].
    split; [|done]. by destruct (popStack g (parentStack s)) as [|[??]?].
Qed.

Lemma processMetadata_focus s pid mkey value :
  currentPerson (processMetadata s pid mkey value) = currentPerson s
  ∧ parentStack (processMetadata s pid mkey value) = parentStack s.
Proof. destruct mkey; simpl; by try destruct (currentSpouse s). Qed.

(** X5. In every state the parser reaches, the person in focus, to which
    spouse and metadata lines attach, is the person of the latest person
    record, which is the top of the ancestry stack; the generations on the
    stack strictly decrease from the top down, so the stack is never deeper
    than the generation of the person in focus plus one. *)
Theorem focus_is_top_of_stack s :
  reachable s →
  currentPerson s = stackTop (parentStack s)
  ∧ stackSorted (parentStack s)
  ∧ match parentStack s with
    | (g, _) :: _ => (length (parentStack s) ≤ S (N.to_nat g))%nat
    | [] => True
    end.
Proof.
  intros [lines ->].
  enough (currentPerson (parseLines initState lines)
          = stackTop (parentStack (parseLines initState lines))
          ∧ stackSorted (parentStack (parseLines initState lines)))
    as [H1 H2].
  { split; [done|]. split; [done|]. by apply stackSorted_length. }
  induction lines as [|l lines [IH1 IH2]] using rev_ind; [done|].
  rewrite parseLines_app. simpl.
  set (s := parseLines initState lines) in *. unfold processLine.
  destruct (cleanLine l) as [line|]; [|done].
  destruct (exec GENERATION_REGEX line) as [[[g childIndex] rest]|].
  - by apply processPerson_focus.
  - assert (∀ pid mkey value,
              currentPerson (processMetadata s pid mkey value)
              = stackTop (parentStack (processMetadata s pid mkey value))
              ∧ stackSorted (parentStack (processMetadata s pid mkey value)))
      as Hmeta.
    { intros pid mkey value.
      by destruct (processMetadata_focus s pid mkey value) as [-> ->]. }
    destruct (exec SPOUSE_REGEX line) as [spouseText|],
      (currentPerson s) as [pid|] eqn:Hc; rewrite ?Hc.
    + by split.
    + by split.
    + destruct (matchMetadata METADATA_REGEX line) as [[mkey value]|];
        [apply Hmeta|by rewrite Hc].
    + by split.
Qed.

(** ** Inputs without person records, and the size of the result *)

Lemma processLine_no_focus s rawLine :
  currentPerson s = None → isPersonRecord rawLine = false →
  processLine s rawLine = s.
Proof.
  intros Hc. unfold isPersonRecord, processLine.
  destruct (cleanLine rawLine) as [line|]; [|done].
  destruct (exec GENERATION_REGEX line) as [[[g childIndex] rest]|].
  - intros H. apply bool_decide_eq_false in H. by destruct H.
  - intros _. rewrite Hc. by destruct (exec SPOUSE_REGEX line).
Qed.

(** X6. As long as no person record has been read, every line is ignored:
    an input none of whose lines is a person record leaves the parser in its
    initial state, so the result has no person and no root, whatever spouse
    or metadata lines the input has. *)
Theorem no_person_record_no_person text :
  Forall (λ l, isPersonRecord l = false) (splitLines text) →
  parseLines initState (splitLines text) = initState
  ∧ parseFamilyTree text = FamilyData.mk ∅ [].
Proof.
  intros H.
  assert (parseLines initState (splitLines text) = initState) as E.
  { induction H as [|l lines Hl _ IH] using Forall_ind; [done|].
    simpl. by rewrite processLine_no_focus. }
  split; [done|]. unfold parseFamilyTree. by rewrite E.
Qed.

Lemma size_alter (pm : gmap jsstring Person.t) f pid :
  size (alter f pid pm) = size pm.
Proof. by rewrite <- !size_dom, dom_alter_L. Qed.

Lemma size_processLine s rawLine :
  (size (personMap (processLine s rawLine))
   ≤ size (personMap s) + (if isPersonRecord rawLine then 1 else 0))%nat.
Proof.
  unfold isPersonRecord, processLine.
  destruct (cleanLine rawLine) as [line|]; [|lia].
  destruct (exec GENERATION_REGEX line) as [[[g childIndex] rest]|].
  - rewrite bool_decide_eq_true_2 by eauto.
    destruct (resolveId (personMap s)
                (slotOf s (parseDigits g) childIndex) (extractName rest))
      as [fid found] eqn:E.
    destruct found.
    + rewrite (processPerson_found _ _ _ _ _ E). simpl. lia.
    + rewrite (processPerson_new _ _ _ _ _ E). simpl.
      apply resolveId_new in E as (k & _ & _ & Hfree).
      rewrite linkToParent_eq.
      destruct (truthy _); rewrite ?size_alter;
        rewrite map_size_insert_None by done; lia.
  - rewrite bool_decide_eq_false_2 by by intros [??].
    destruct (exec SPOUSE_REGEX line) as [spouseText|],
      (currentPerson s) as [pid|].
    + unfold processSpouse. simpl. rewrite size_alter. lia.
    + lia.
    + destruct (matchMetadata METADATA_REGEX line) as [[mkey value]|];
        [|lia].
      rewrite <- !size_dom, dom_processMetadata. lia.
    + lia.
Qed.

(** X7. A line adds at most one person, and only a person record does: the
    result has at most as many persons as the input has person records. *)
Theorem persons_at_most_records text :
  (size (FamilyData.allPersons (parseFamilyTree text))
   ≤ length (filter (λ l, isPersonRecord l = true) (splitLines text)))%nat.
Proof.
  unfold parseFamilyTree. simpl.
  enough (∀ lines s,
    (size (personMap (parseLines s lines))
     ≤ size (personMap s)
       + length (filter (λ l, isPersonRecord l = true) lines))%nat) as H.
  { specialize (H (splitLines text) initState). simpl in H.
    by rewrite map_size_empty in H. }
  induction lines as [|l lines IH]; intros s; [simpl; lia|].
  simpl. specialize (IH (processLine s l)).
  pose proof (size_processLine s l) as Hl.
  rewrite filter_cons. destruct (isPersonRecord l) eqn:El.
  - rewrite decide_True by done. simpl. lia.
  - rewrite decide_False by done. lia.
Qed.

(** ** Lines: splitting, trimming, and what a line is read as *)

Lemma dropWhile_app_all P w l :
  Forall (λ c, P c = true) w → dropWhile P (w ++ l) = dropWhile P l.
Proof. induction 1 as [|c w Hc _ IH]; [done|]. simpl. by rewrite Hc. Qed.

Lemma dropWhile_nil P l :
  dropWhile P l = [] ↔ Forall (λ c, P c = true) l.
Proof.
  induction l as [|c l IH]; simpl; [done|].
  destruct (P c) eqn:E.
  - rewrite IH. split; [by constructor|by inversion 1].
  - split; [done|]. inversion 1. congruence.
Qed.

Lemma dropWhile_app_r P l w :
  dropWhile P l ≠ [] → dropWhile P (l ++ w) = dropWhile P l ++ w.
Proof.
  induction l as [|c l IH]; simpl; [done|]. destruct (P c); [done|done].
Qed.

Lemma trim_blank_l w l : blank w → trim (w ++ l) = trim l.
Proof. intros Hw. unfold trim. by rewrite dropWhile_app_all. Qed.

Lemma trim_blank_r l w : blank w → trim (l ++ w) = trim l.
Proof.
  intros Hw. unfold trim.
  destruct (decide (dropWhile isWhiteSpace l = [])) as [E|E].
  - rewrite E. assert (dropWhile isWhiteSpace (l ++ w) = []) as ->; [|done].
    apply dropWhile_nil, Forall_app. split; [by apply dropWhile_nil|done].
  - rewrite dropWhile_app_r by done. rewrite rev_app_distr.
    rewrite dropWhile_app_all; [done|].
    by apply List.Forall_rev.
Qed.

(** The loop body sees a raw line only through its trimmed form. *)
Lemma processLine_trim s l l' :
  trim l = trim l' → processLine s l = processLine s l'.
Proof. intros E. unfold processLine, cleanLine. by rewrite E. Qed.

Lemma parseLines_trim s lines lines' :
  Forall2 (λ l l', trim l = trim l') lines lines' →
  parseLines s lines = parseLines s lines'.
Proof.
  intros H. revert s. induction H as [|l l' lines lines' E _ IH]; intros s.
  - done.
  - simpl. rewrite (processLine_trim s l l' E). apply IH.
Qed.

Lemma split_go_app cur l rest :
  10 ∉ l → split_go cur (l ++ rest) = split_go (rev l ++ cur) rest.
Proof.
  revert cur. induction l as [|c l IH]; intros cur Hl; [done|].
  simpl. destruct (N.eqb_spec c 10) as [->|Hc].
  - exfalso. apply Hl. by left.
  - rewrite IH by (intros ?; apply Hl; by right).
    by rewrite <- app_assoc.
Qed.

Lemma last_rev_head (l : jsstring) :
  last l ≠ Some 13 →
  match rev l with
  | 13 :: cur' => cur'
  | _ => rev l
  end = rev l.
Proof.
  intros Hl. destruct l as [|c l _] using rev_ind; [done|].
  rewrite last_snoc in Hl. rewrite rev_unit.
  destruct c as [|p]; [done|]. do 4 (destruct p; try done).
Qed.

(** X8. Splitting undoes joining: a list of lines without line feed, none
    ending in a carriage return, comes back unchanged from the text that
    joins them by line feeds; in particular a text that ends in a line feed
    has an empty last line, and the empty text is one empty line. *)
Theorem splitLines_joinLines lines :
  lines ≠ [] →
  Forall (λ l, (10 ∉ l) ∧ last l ≠ Some 13) lines →
  splitLines (joinLines lines) = lines.
Proof.
  intros Hne H. unfold splitLines.
  induction H as [|l lines [Hl Hcr] Hrest IH]; [done|]. clear Hne.
  simpl. destruct lines as [|l' lines].
  - rewrite <- (app_nil_r l) at 1. rewrite split_go_app by done.
    simpl. by rewrite app_nil_r, rev_involutive.
  - rewrite split_go_app by done. rewrite app_nil_r.
    change (split_go (rev l) (10 :: joinLines (l' :: lines)))
      with (rev (match rev l with
                 | 13 :: cur' => cur'
                 | _ => rev l
                 end) :: split_go [] (joinLines (l' :: lines))).
    rewrite last_rev_head by done. rewrite rev_involutive.
    f_equal. by apply IH.
Qed.

Lemma split_go_crlf cur a b :
  Forall2 (λ l l', trim l = trim l')
          (split_go cur (a ++ 13 :: 10 :: b)) (split_go cur (a ++ 10 :: b)).
Proof.
  assert (∀ lines : list jsstring,
            Forall2 (λ l l', trim l = trim l') lines lines) as Hrefl.
  { induction lines; by constructor. }
  revert cur. induction a as [|c a IH]; intros cur.
  - simpl. constructor; [|apply Hrefl].
    destruct cur as [|c cur]; [done|].
    destruct (decide (c = 13)) as [->|Hc].
    + simpl. by rewrite (trim_blank_r (rev cur) [13]) by by constructor.
    + destruct c as [|p]; [done|]. do 4 (destruct p; try done).
  - simpl. destruct (c =? 10); [constructor; [done|apply IH]|apply IH].
Qed.

(** X9. A carriage return before a line feed makes no difference: the
    text with Windows line ends parses to the same result as the text with
    Unix line ends. *)
Theorem crlf_same_as_lf a b :
  parseFamilyTree (a ++ 13 :: 10 :: b) = parseFamilyTree (a ++ 10 :: b).
Proof.
  unfold parseFamilyTree, splitLines.
  by rewrite (parseLines_trim _ _ _ (split_go_crlf [] a b)).
Qed.

(** X10. White space around a line makes no difference: a line with any
    white space before and after it is read as the line itself, so the
    indentation of a chart carries no meaning. *)
Theorem surrounding_space_ignored s w1 l w2 :
  blank w1 → blank w2 → processLine s (w1 ++ l ++ w2) = processLine s l.
Proof.
  intros H1 H2. apply processLine_trim.
  by rewrite trim_blank_l, trim_blank_r.
Qed.



(** X12. An alias line appends its value to the alias list of the person
    in focus (starting the list when there is none); a house-name,
    memorial-date or religious-name line overwrites that field of the
    person in focus, so the last such line wins. These lines go to the
    person even while a spouse is in focus. The person written is spelled
    out field by field: every other field is as before, and nothing else in
    the state changes. *)
Theorem person_metadata_line rawLine key value s pid :
  isMetadataLine rawLine key value →
  reachable s → currentPerson s = Some pid →
  ∃ p, personMap s !! pid = Some p
    ∧ match key with
      | alias =>
        processLine s rawLine
        = setPerson s pid
            (Person.mk (Person.id p) (Person.generation p) (Person.childIndex p)
               (Person.name p) (Person.birthYear p) (Person.deathYear p)
               (Person.spouses p) (Person.parentId p)
               (Some (default [] (Person.alias p) ++ [value]))
               (Person.houseName p) (Person.nameVN p)
               (Person.memorialDate p) (Person.religiousName p))
      | houseName =>
        processLine s rawLine
        = setPerson s pid
            (Person.mk (Person.id p) (Person.generation p) (Person.childIndex p)
               (Person.name p) (Person.birthYear p) (Person.deathYear p)
               (Person.spouses p) (Person.parentId p)
               (Person.alias p)
               (Some value) (Person.nameVN p)
               (Person.memorialDate p) (Person.religiousName p))
      | memorialDate =>
        processLine s rawLine
        = setPerson s pid
            (Person.mk (Person.id p) (Person.generation p) (Person.childIndex p)
               (Person.name p) (Person.birthYear p) (Person.deathYear p)
               (Person.spouses p) (Person.parentId p)
               (Person.alias p)
               (Person.houseName p) (Person.nameVN p)
               (Some value) (Person.religiousName p))
      | religiousName =>
        processLine s rawLine
        = setPerson s pid
            (Person.mk (Person.id p) (Person.generation p) (Person.childIndex p)
               (Person.name p) (Person.birthYear p) (Person.deathYear p)
               (Person.spouses p) (Person.parentId p)
               (Person.alias p)
               (Person.houseName p) (Person.nameVN p)
               (Person.memorialDate p) (Some value))
      | nameVN | marriage | divorce => True
      end.
Proof.
  intros Hm HI%reachable_Inv Hc.
  rewrite (processLine_metadata _ _ _ _ Hm), Hc.
  destruct (inv_focus _ HI _ Hc) as [p Hp]. exists p. split; [done|].
  destruct key; try done; simpl; by rewrite (onPerson_setPerson _ _ _ _ Hp).
Qed.

(** ** Every child is listed once *)

Lemma bind_alter_keep (h : Spouse.t → Spouse.t) (i : nat) (l : list Spouse.t) :
  (∀ sp, Spouse.childrenIds (h sp) = Spouse.childrenIds sp) →
  alter h i l ≫= Spouse.childrenIds = l ≫= Spouse.childrenIds.
Proof.
  intros Hh. revert i. induction l as [|sp l IH]; intros [|i]; simpl;
    try done.
  - by rewrite Hh.
  - f_equal. apply IH.
Qed.

Lemma childrenOf_alterSpouse_keep h i p :
  (∀ sp, Spouse.childrenIds (h sp) = Spouse.childrenIds sp) →
  childrenOf (Person.alterSpouse h i p) = childrenOf p.
Proof. intros Hh. unfold childrenOf. simpl. by apply bind_alter_keep. Qed.

Lemma childrenOf_pushSpouse sp0 p :
  childrenOf (Person.pushSpouse sp0 p) = childrenOf p ++ Spouse.childrenIds sp0.
Proof.
  unfold childrenOf. simpl. rewrite bind_app. simpl. by rewrite app_nil_r.
Qed.

Lemma childrenOf_addChild (fid : jsstring) p :
  fid ∉ childrenOf p →
  childrenOf (Person.alterLastSpouse (Spouse.addChild fid) p)
  = match Person.spouses p with
    | [] => []
    | _ :: _ => childrenOf p ++ [fid]
    end.
Proof.
  unfold childrenOf, Person.alterLastSpouse. simpl.
  destruct (Person.spouses p) as [|sp l _] using rev_ind; [done|].
  intros Hnot. rewrite alter_last, !bind_app. simpl. rewrite !app_nil_r.
  rewrite addChild_children, bool_decide_eq_false_2.
  - rewrite app_assoc. by destruct (l ++ [sp]) eqn:E; [destruct l|].
  - intros Hin. apply Hnot. rewrite bind_app, elem_of_app. right. simpl.
    by rewrite app_nil_r.
Qed.

Lemma elem_of_childrenOf c p :
  c ∈ childrenOf p ↔ ∃ sp, sp ∈ Person.spouses p ∧ c ∈ Spouse.childrenIds sp.
Proof.
  unfold childrenOf. rewrite list_elem_of_bind. split.
  - intros (sp & ? & ?). by exists sp.
  - intros (sp & ? & ?). by exists sp.
Qed.

Lemma ChildOnce_alter (pm : gmap jsstring Person.t) pid f :
  ChildOnce pm →
  (∀ p, pm !! pid = Some p → NoDup (childrenOf p) → NoDup (childrenOf (f p))) →
  ChildOnce (alter f pid pm).
Proof.
  intros HC Hf key p'. rewrite lookup_alter. case_decide.
  - subst key. destruct (pm !! pid) as [p|] eqn:Hp; [|done].
    intros [= <-]. apply Hf; [done|]. by eapply HC.
  - apply HC.
Qed.

Lemma ChildOnce_processPerson s g childIndex rest :
  Inv s → ChildOnce (personMap s) →
  ChildOnce (personMap (processPerson s g childIndex rest)).
Proof.
  intros HI HC.
  destruct (resolveId (personMap s) (slotOf s g childIndex) (extractName rest))
    as [fid found] eqn:E.
  destruct found.
  { by rewrite (processPerson_found _ _ _ _ _ E). }
  rewrite (processPerson_new _ _ _ _ _ E). simpl.
  apply resolveId_new in E as (k & Hk & Hfid & Hfree).
  assert (ChildOnce (<[fid := newPersonOf s g childIndex rest fid]>
                       (personMap s))) as HC1.
  { intros key p. rewrite lookup_insert. case_decide.
    - intros [= <-]. constructor.
    - apply HC. }
  rewrite linkToParent_eq.
  destruct (truthy _) eqn:Ht; [|done].
  apply ChildOnce_alter; [done|]. intros q Hq Hnd.
  assert (fid ∉ childrenOf q) as Hnot.
  { intros (sp & Hsp & Hc)%elem_of_childrenOf.
    rewrite lookup_insert_ne in Hq.
    - destruct (inv_children _ (inv_map _ HI) _ _ _ _ Hq Hsp Hc)
        as (q' & Hq' & _). congruence.
    - subst fid. unfold slotOf. by apply candidate_ne_parent. }
  rewrite childrenOf_addChild by done.
  destruct (Person.spouses q); [constructor|].
  apply NoDup_app. split; [done|]. split; [|apply NoDup_singleton].
  intros x Hx ->%list_elem_of_singleton. done.
Qed.

Lemma ChildOnce_processMetadata s pid mkey value :
  ChildOnce (personMap s) →
  ChildOnce (personMap (processMetadata s pid mkey value)).
Proof.
  intros HC.
  destruct mkey; simpl; try destruct (currentSpouse s); simpl; try done;
    apply ChildOnce_alter; try done; intros p _ Hnd;
    by rewrite ?childrenOf_alterSpouse_keep.
Qed.

Lemma ChildOnce_processLine s rawLine :
  Inv s → ChildOnce (personMap s) →
  ChildOnce (personMap (processLine s rawLine)).
Proof.
  intros HI HC. unfold processLine.
  destruct (cleanLine rawLine) as [line|]; [|done].
  destruct (exec GENERATION_REGEX line) as [[[g childIndex] rest]|].
  - by apply ChildOnce_processPerson.
  - destruct (exec SPOUSE_REGEX line) as [spouseText|],
      (currentPerson s) as [pid|]; try done.
    + simpl. apply ChildOnce_alter; [done|]. intros p _ Hnd.
      rewrite childrenOf_pushSpouse. simpl. by rewrite app_nil_r.
    + destruct (matchMetadata METADATA_REGEX line) as [[mkey value]|];
        [|done].
      by apply ChildOnce_processMetadata.
Qed.

Lemma reachable_ChildOnce s : reachable s → ChildOnce (personMap s).
Proof.
  intros [lines ->].
  induction lines as [|l lines IH] using rev_ind.
  - intros key p. simpl. by rewrite lookup_empty.
  - rewrite parseLines_app. simpl.
    apply ChildOnce_processLine; [|done].
    apply reachable_Inv. by eexists.
Qed.

Lemma NoDup_bind_index {A B} (f : A → list B) (l : list A) (i j : nat) x y c :
  NoDup (l ≫= f) → l !! i = Some x → l !! j = Some y →
  c ∈ f x → c ∈ f y → i = j.
Proof.
  revert i j. induction l as [|a l IH]; intros i j; [done|].
  simpl. intros [H1 [H2 H3]]%NoDup_app Hi Hj Hx Hy.
  destruct i as [|i], j as [|j]; simpl in Hi, Hj.
  - done.
  - injection Hi as ->. exfalso. apply (H2 c Hx).
    apply list_elem_of_bind. exists y. split; [done|].
    by eapply list_elem_of_lookup_2.
  - injection Hj as ->. exfalso. apply (H2 c Hy).
    apply list_elem_of_bind. exists x. split; [done|].
    by eapply list_elem_of_lookup_2.
  - f_equal. by eapply IH.
Qed.

(** X13. In a result every person is listed as a child at most once: if an
    identity stands in the children list of a spouse of one person and in
    the children list of a spouse of another, the two persons are the same
    and so are the two spouses (by position), and no list has it twice. *)
Theorem child_listed_once text key key' p p' (i j : nat) sp sp' c :
  FamilyData.allPersons (parseFamilyTree text) !! key = Some p →
  FamilyData.allPersons (parseFamilyTree text) !! key' = Some p' →
  Person.spouses p !! i = Some sp → Person.spouses p' !! j = Some sp' →
  c ∈ Spouse.childrenIds sp → c ∈ Spouse.childrenIds sp' →
  key = key' ∧ i = j ∧ NoDup (childrenOf p).
Proof.
  intros Hp Hp' Hi Hj Hc Hc'.
  pose proof (parseFamilyTree_Inv text) as HM.
  assert (ChildOnce (FamilyData.allPersons (parseFamilyTree text))) as HC.
  { apply reachable_ChildOnce. by eexists. }
  destruct (inv_children _ HM _ _ _ _ Hp (list_elem_of_lookup_2 _ _ _ Hi) Hc)
    as (q & Hq & Hpar).
  destruct (inv_children _ HM _ _ _ _ Hp' (list_elem_of_lookup_2 _ _ _ Hj) Hc')
    as (q' & Hq' & Hpar').
  assert (key = key') as <- by congruence.
  split; [done|]. assert (p' = p) as -> by congruence.
  split; [|by eapply HC].
  exact (NoDup_bind_index Spouse.childrenIds _ i j sp sp' c
           (HC _ _ Hp) Hi Hj Hc Hc').
Qed.

(** ** The tree store *)

Lemma elem_of_values (m : gmap jsstring Person.t) p :
  p ∈ values m ↔ ∃ key, m !! key = Some p.
Proof.
  unfold values. rewrite list_elem_of_fmap. split.
  - intros ([k p'] & -> & H). exists k. by apply elem_of_map_to_list.
  - intros [k H]. exists (k, p). split; [done|]. by apply elem_of_map_to_list.
Qed.

Lemma elem_of_foldl_add {A} (f : A → jsstring) (l : list A)
    (X : gset jsstring) x :
  x ∈ foldl (λ acc a, acc ∪ {[f a]}) X l ↔ x ∈ X ∨ ∃ a, a ∈ l ∧ f a = x.
Proof.
  revert X. induction l as [|a l IH]; intros X; simpl.
  - split; [by left|]. intros [?|(a & Ha & _)]; [done|].
    by apply elem_of_nil in Ha.
  - rewrite IH, elem_of_union, elem_of_singleton. split.
    + intros [[?| ->]|(b & Hb & <-)].
      * by left.
      * right. exists a. split; [by left|done].
      * right. exists b. split; [by right|done].
    + intros [?|(b & Hb & <-)]; [by left; left|].
      apply elem_of_cons in Hb as [-> |Hb]; [by left; right|].
      right. by exists b.
Qed.

(** X14. Loading a parsed chart into the store expands every person of it
    and nothing else: an identity is expanded exactly if the result stores
    a person under it. *)
Theorem setFamilyData_expands_all text st key :
  TreeStore.familyData (setFamilyData (parseFamilyTree text) st)
  = Some (parseFamilyTree text)
  ∧ isExpanded key (setFamilyData (parseFamilyTree text) st)
    = bool_decide (is_Some (FamilyData.allPersons (parseFamilyTree text)
                              !! key)).
Proof.
  split; [done|]. unfold isExpanded, setFamilyData.
  cbn [TreeStore.expandedNodes]. apply bool_decide_ext.
  rewrite elem_of_foldl_add. split.
  - intros [H|(p & [k Hp]%elem_of_values & <-)]; [by apply elem_of_empty in H|].
    rewrite (inv_id _ (parseFamilyTree_Inv text) _ _ Hp). by exists p.
  - intros [p Hp]. right. exists p. split; [apply elem_of_values; by exists key|].
    by apply (inv_id _ (parseFamilyTree_Inv text)).
Qed.

(** X15. Toggling a node flips whether it is expanded and leaves every
    other node alone; toggling it twice restores the store. *)
Theorem toggleNode_twice id st :
  toggleNode id (toggleNode id st) = st
  ∧ isExpanded id (toggleNode id st) = negb (isExpanded id st)
  ∧ ∀ id', id' ≠ id → isExpanded id' (toggleNode id st) = isExpanded id' st.
Proof.
  destruct st as [fd E hl bg]. unfold toggleNode, isExpanded. simpl.
  destruct (decide (id ∈ E)) as [Hin|Hin].
  - rewrite (bool_decide_eq_true_2 (id ∈ E)) by done.
    rewrite (bool_decide_eq_false_2 (id ∈ E ∖ {[id]})) by set_solver.
    split; [|split].
    + f_equal. apply set_eq. intros x. rewrite elem_of_union,
        elem_of_difference, elem_of_singleton.
      destruct (decide (x = id)) as [->|]; naive_solver.
    + done.
    + intros id' Hne. apply bool_decide_ext. set_solver.
  - rewrite (bool_decide_eq_false_2 (id ∈ E)) by done.
    rewrite (bool_decide_eq_true_2 (id ∈ E ∪ {[id]})) by set_solver.
    split; [|split].
    + f_equal. apply set_eq. intros x. set_solver.
    + done.
    + intros id' Hne. apply bool_decide_ext. set_solver.
Qed.

Lemma toggle_fold (l : list Person.t) (X : gset jsstring) g (e : bool) x :
  let F := foldl (λ acc person,
                    if bool_decide (Person.generation person = g) then
                      if e then acc ∪ {[Person.id person]}
                      else acc ∖ {[Person.id person]}
                    else acc) X l in
  ((∀ p, p ∈ l → Person.generation p = g → Person.id p ≠ x) →
     (x ∈ F ↔ x ∈ X))
  ∧ ((∃ p, p ∈ l ∧ Person.generation p = g ∧ Person.id p = x) →
     (x ∈ F ↔ e = true)).
Proof.
  induction l as [|p l [IH1 IH2]] using rev_ind; simpl.
  - split; [done|]. intros (p & Hp & _). by apply elem_of_nil in Hp.
  - rewrite foldl_app. simpl.
    set (F := foldl _ X l) in *.
    destruct (decide (Person.generation p = g ∧ Person.id p = x)) as [[Hg Hx]|Hn].
    + rewrite Hg, Hx, bool_decide_eq_true_2 by done. split.
      * intros Hall. exfalso. eapply Hall; [|done..].
        apply elem_of_app. right. by left.
      * intros _. destruct e; set_solver.
    + assert (x ∈ (if bool_decide (Person.generation p = g)
                   then if e then F ∪ {[Person.id p]} else F ∖ {[Person.id p]}
                   else F) ↔ x ∈ F) as ->.
      { case_bool_decide; [|done].
        assert (Person.id p ≠ x) by naive_solver.
        destruct e; set_solver. }
      split.
      * intros Hall. apply IH1. intros q Hq. apply Hall.
        apply elem_of_app. by left.
      * intros (q & Hq & Hg & Hx). apply IH2.
        apply elem_of_app in Hq as [Hq|Hq]; [by exists q|].
        apply list_elem_of_singleton in Hq as ->. naive_solver.
Qed.

(** X16. Expanding or collapsing a generation of a parsed chart sets
    exactly the persons of that generation to the chosen state and leaves
    every other identity as it was. *)
Theorem toggleGeneration_sets_generation text st generation expand key :
  TreeStore.familyData st = Some (parseFamilyTree text) →
  isExpanded key (toggleGeneration generation expand st)
  = match FamilyData.allPersons (parseFamilyTree text) !! key with
    | Some p =>
      if bool_decide (Person.generation p = generation) then expand
      else isExpanded key st
    | None => isExpanded key st
    end.
Proof.
  intros Hfd. unfold toggleGeneration. rewrite Hfd. unfold isExpanded.
  cbn [TreeStore.expandedNodes].
  pose proof (parseFamilyTree_Inv text) as HM.
  destruct (toggle_fold (values (FamilyData.allPersons (parseFamilyTree text)))
              (TreeStore.expandedNodes st) generation expand key) as [H1 H2].
  destruct (FamilyData.allPersons (parseFamilyTree text) !! key) as [p|] eqn:Hp.
  - destruct (decide (Person.generation p = generation)) as [Hg|Hg].
    + rewrite (bool_decide_eq_true_2 (Person.generation p = generation))
        by done.
      assert (∃ q, q ∈ values (FamilyData.allPersons (parseFamilyTree text))
                   ∧ Person.generation q = generation ∧ Person.id q = key)
        as Hex%H2.
      { exists p. split; [apply elem_of_values; by exists key|].
        split; [done|]. by apply (inv_id _ HM). }
      destruct expand.
      * apply bool_decide_eq_true_2. by apply Hex.
      * apply bool_decide_eq_false_2. by intros ?%Hex.
    + rewrite (bool_decide_eq_false_2 (Person.generation p = generation))
        by done.
      apply bool_decide_ext, H1.
      intros q [k Hq]%elem_of_values Hg' Hid.
      rewrite (inv_id _ HM _ _ Hq) in Hid. subst k. congruence.
  - apply bool_decide_ext, H1.
    intros q [k Hq]%elem_of_values Hg' Hid.
    rewrite (inv_id _ HM _ _ Hq) in Hid. subst k. congruence.
Qed.

(** ** The path to the root *)

Lemma MapInv_key_nonempty pm (key : jsstring) p :
  MapInv pm → pm !! key = Some p → key ≠ [].
Proof.
  intros HM Hp. destruct (inv_shape _ HM _ _ Hp) as (pre & b & k & -> & _).
  apply checkId_nonempty.
Qed.

Lemma pathLoop_ancestry pm (n : nat) :
  MapInv pm →
  ∀ key p, pm !! key = Some p → (N.to_nat (Person.generation p) ≤ n)%nat →
  ∃ path,
    ancestry pm key path
    ∧ (length path ≤ S (N.to_nat (Person.generation p)))%nat
    ∧ (∀ x, x ∈ path →
         ∃ q, pm !! x = Some q ∧ Person.generation q ≤ Person.generation p)
    ∧ NoDup path
    ∧ (∀ fuel acc, (length path ≤ fuel)%nat →
         pathLoop fuel pm (Some p) acc = Some (acc ++ path))
    ∧ (∀ fuel acc, (fuel < length path)%nat →
         pathLoop fuel pm (Some p) acc = None).
Proof.
  intros HM. induction n as [n IH] using lt_wf_ind. intros key p Hp Hn.
  pose proof (inv_id _ HM _ _ Hp) as Hid.
  destruct (Person.parentId p) as [par|] eqn:Hpar.
  - destruct (inv_parent _ HM _ _ _ Hp Hpar) as (q & Hq & Hlt).
    destruct (IH (N.to_nat (Person.generation q)) ltac:(lia) par q Hq ltac:(lia))
      as (path & Ha & Hlen & Hgen & Hnd & Hrun & Hshort).
    assert (truthy (Some par) = true) as Ht.
    { pose proof (MapInv_key_nonempty _ _ _ HM Hq). by destruct par. }
    exists (key :: path). split_and!.
    + by eapply ancestry_step.
    + simpl. lia.
    + intros x [->|Hx]%elem_of_cons.
      * exists p. split; [done|lia].
      * destruct (Hgen x Hx) as (q' & Hq' & Hle). exists q'. split; [done|lia].
    + constructor; [|done]. intros Hin.
      destruct (Hgen key Hin) as (q' & Hq' & Hle).
      assert (q' = p) as -> by congruence. lia.
    + intros [|fuel] acc Hf; simpl in Hf; [lia|]. simpl.
      rewrite Hpar, Ht. simpl. rewrite Hq, Hid.
      rewrite Hrun by lia. by rewrite <- app_assoc.
    + intros [|fuel] acc Hf; simpl in Hf; [done|]. simpl.
      rewrite Hpar, Ht. simpl. rewrite Hq. apply Hshort. lia.
  - exists [key]. split_and!.
    + by eapply ancestry_top.
    + simpl. lia.
    + intros x ->%list_elem_of_singleton. exists p. split; [done|lia].
    + apply NoDup_singleton.
    + intros [|fuel] acc Hf; simpl in Hf; [lia|]. simpl.
      by rewrite Hpar, Hid.
    + intros [|fuel] acc Hf; simpl in Hf; [done|lia].
Qed.

(** X17. For a person of a parsed chart the search for the path to the
    root ends, after exactly as many turns as the path is long: the path is
    the person, then its parent, and so on up to a person without parent;
    it has no person twice and is at most one longer than the generation
    of the person. *)
Theorem path_to_root text key p :
  FamilyData.allPersons (parseFamilyTree text) !! key = Some p →
  ∃ path,
    ancestry (FamilyData.allPersons (parseFamilyTree text)) key path
    ∧ (length path ≤ S (N.to_nat (Person.generation p)))%nat
    ∧ NoDup path
    ∧ ∀ fuel,
        getPathToRoot fuel (Some (parseFamilyTree text)) key
        = if decide (length path ≤ fuel)%nat then Some path else None.
Proof.
  intros Hp. unfold getPathToRoot. rewrite Hp.
  destruct (pathLoop_ancestry _ _ (parseFamilyTree_Inv text) key p Hp
              (Nat.le_refl _))
    as (path & Ha & Hlen & _ & Hnd & Hrun & Hshort).
  exists path. split_and!; try done.
  intros fuel. case_decide.
  - by rewrite Hrun.
  - apply Hshort. lia.
Qed.

Lemma ancestry_rtc fd key path a :
  ancestry (FamilyData.allPersons fd) key path →
  a ∈ path ↔ rtc (parentOf fd) key a.
Proof.
  induction 1 as [key p Hp Hpar|key p par path Hp Hpar Hanc IH].
  - rewrite list_elem_of_singleton. split; [by intros ->|].
    intros Hr. destruct Hr as [|x y z (p' & Hp' & Hpar') _]; [done|].
    congruence.
  - rewrite elem_of_cons, IH. split.
    + intros [->|Hr]; [done|]. eapply rtc_l; [|done]. by exists p.
    + intros Hr. destruct Hr as [|x y z (p' & Hp' & Hpar') Hr]; [by left|].
      right. assert (y = par) as -> by congruence. done.
Qed.

Lemma elem_of_expandPath ids st a :
  a ∈ TreeStore.expandedNodes (expandPath ids st)
  ↔ a ∈ TreeStore.expandedNodes st ∨ a ∈ ids.
Proof.
  unfold expandPath. cbn [TreeStore.expandedNodes].
  rewrite (elem_of_foldl_add (λ id, id)). naive_solver.
Qed.

(** X18. Selecting a person of a parsed chart, which expands the path to
    the root, expands the person and every ancestor of it, and changes the
    state of no other identity. *)
Theorem select_expands_ancestors text st key p :
  FamilyData.allPersons (parseFamilyTree text) !! key = Some p →
  ∃ path,
    getPathToRoot (S (N.to_nat (Person.generation p)))
                  (Some (parseFamilyTree text)) key = Some path
    ∧ ∀ a,
        (rtc (parentOf (parseFamilyTree text)) key a →
           isExpanded a (expandPath path st) = true)
        ∧ (¬ rtc (parentOf (parseFamilyTree text)) key a →
           isExpanded a (expandPath path st) = isExpanded a st).
Proof.
  intros Hp.
  destruct (pathLoop_ancestry _ _ (parseFamilyTree_Inv text) key p Hp
              (Nat.le_refl _))
    as (path & Ha & Hlen & _ & _ & Hrun & _).
  exists path. split.
  { unfold getPathToRoot. rewrite Hp. by rewrite Hrun. }
  intros a. unfold isExpanded. split.
  - intros Hr. apply bool_decide_eq_true_2, elem_of_expandPath. right.
    by apply (ancestry_rtc _ _ _ _ Ha).
  - intros Hr. apply bool_decide_ext. rewrite elem_of_expandPath.
    rewrite (ancestry_rtc _ _ _ _ Ha). naive_solver.
Qed.

(** ** The elements of the drawing *)

Lemma maxGeneration_ge pm (key : jsstring) q :
  pm !! key = Some q → Person.generation q ≤ maxGeneration pm.
Proof.
  intros Hq. unfold maxGeneration.
  assert (Person.generation q ∈ Person.generation <$> values pm) as Hin.
  { apply list_elem_of_fmap. exists q. split; [done|].
    apply elem_of_values. by exists key. }
  induction Hin as [x l|x y l _ IH]; simpl; lia.
Qed.

Lemma foldl_nested {A B C} (g : C → B → C) (h : A → list B) (l : list A)
    (init : C) :
  foldl (λ acc a, foldl g acc (h a)) init l = foldl g init (l ≫= h).
Proof.
  revert init. induction l as [|a l IH]; intros init; [done|].
  rewrite bind_cons, foldl_app. simpl. apply IH.
Qed.

Lemma foldl_bind_None {A B} (step : B → A → option A) (cs : list B) :
  foldl (λ acc c, acc ≫= step c) None cs = None.
Proof. induction cs as [|c cs IH]; [done|]. simpl. apply IH. Qed.

Lemma foldl_bind_mono {A B} (step1 step2 : B → A → option A) (cs : list B)
    (init : option A) r :
  (∀ c acc r, step1 c acc = Some r → step2 c acc = Some r) →
  foldl (λ acc c, acc ≫= step1 c) init cs = Some r →
  foldl (λ acc c, acc ≫= step2 c) init cs = Some r.
Proof.
  intros Hstep. revert init. induction cs as [|c cs IH]; intros init; [done|].
  simpl. destruct init as [a|]; simpl.
  - destruct (step1 c a) as [a'|] eqn:E.
    + rewrite (Hstep _ _ _ E). apply IH.
    + by rewrite foldl_bind_None.
  - by rewrite foldl_bind_None.
Qed.

(** More fuel does not change what the closure returns. *)
Lemma addVisible_mono pm E (fuel fuel' : nat) (id : jsstring) acc r :
  (fuel ≤ fuel')%nat →
  addVisible fuel pm E id acc = Some r → addVisible fuel' pm E id acc = Some r.
Proof.
  revert fuel' id acc r. induction fuel as [|fuel IH]; intros fuel' id acc r Hle;
    [done|].
  destruct fuel' as [|fuel']; [lia|]. simpl.
  destruct (pm !! id) as [p|]; [|done].
  case_bool_decide; [|done].
  rewrite !(foldl_nested _ Spouse.childrenIds).
  apply foldl_bind_mono. intros c a r'. apply IH. lia.
Qed.

Lemma elem_of_setAdd (x y : jsstring) l : y ∈ setAdd x l ↔ y = x ∨ y ∈ l.
Proof.
  unfold setAdd. case_bool_decide.
  - split; [by right|]. by intros [->|?].
  - rewrite elem_of_app, list_elem_of_singleton. tauto.
Qed.

Lemma NoDup_setAdd (x : jsstring) l : NoDup l → NoDup (setAdd x l).
Proof.
  intros Hl. unfold setAdd. case_bool_decide; [done|].
  apply NoDup_app. split; [done|]. split; [|apply NoDup_singleton].
  intros y Hy ->%list_elem_of_singleton. done.
Qed.

Lemma visibleFrom_inv pm E (a : jsstring) p x :
  pm !! a = Some p →
  visibleFrom pm E a x
  ↔ x = a ∨ (a ∈ E ∧ ∃ c, c ∈ childrenOf p ∧ visibleFrom pm E c x).
Proof.
  intros Hp. split.
  - intros H. destruct H as [a Ha|a p' c x Hp' HE Hc Hcx]; [by left|].
    right. split; [done|]. exists c. split; [congruence|done].
  - intros [->|(HE & c & Hc & Hcx)].
    + apply visible_self. by exists p.
    + by eapply visible_child.
Qed.

Lemma foldl_visible (step : jsstring → list jsstring → option (list jsstring))
    (R : jsstring → jsstring → Prop) (cs : list jsstring) :
  (∀ c acc, c ∈ cs →
     ∃ acc', step c acc = Some acc'
       ∧ (∀ x, x ∈ acc' ↔ x ∈ acc ∨ R c x)
       ∧ (NoDup acc → NoDup acc')) →
  ∀ acc0, ∃ accF,
    foldl (λ a c, a ≫= step c) (Some acc0) cs = Some accF
    ∧ (∀ x, x ∈ accF ↔ x ∈ acc0 ∨ ∃ c, c ∈ cs ∧ R c x)
    ∧ (NoDup acc0 → NoDup accF).
Proof.
  induction cs as [|c cs IH]; intros Hstep acc0.
  - exists acc0. split; [done|]. split; [|done].
    intros x. split; [by left|]. intros [?|(c & Hc & _)]; [done|].
    by apply elem_of_nil in Hc.
  - destruct (Hstep c acc0 ltac:(by left)) as (acc1 & E1 & Hm1 & Hn1).
    destruct (IH (λ c' acc Hc', Hstep c' acc ltac:(by right)) acc1)
      as (accF & EF & HmF & HnF).
    exists accF. simpl. rewrite E1. split; [done|]. split; [|tauto].
    intros x. rewrite HmF, Hm1. split.
    + intros [[?|?]|(c' & Hc' & ?)].
      * by left.
      * right. exists c. split; [by left|done].
      * right. exists c'. split; [by right|done].
    + intros [?|(c' & Hc' & ?)]; [by left; left|].
      apply elem_of_cons in Hc' as [->|Hc']; [by left; right|].
      right. by exists c'.
Qed.

(** What the closure adds, for a consistent map and enough fuel. *)
Lemma addVisible_spec pm E (fuel : nat) :
  MapInv pm →
  ∀ (id : jsstring) p acc,
    pm !! id = Some p →
    (N.to_nat (maxGeneration pm) < N.to_nat (Person.generation p) + fuel)%nat →
    ∃ acc', addVisible fuel pm E id acc = Some acc'
      ∧ (∀ x, x ∈ acc' ↔ x ∈ acc ∨ visibleFrom pm E id x)
      ∧ (NoDup acc → NoDup acc').
Proof.
  intros HM. induction fuel as [|fuel IH]; intros id p acc Hp Hfuel.
  { pose proof (maxGeneration_ge _ _ _ Hp). lia. }
  simpl. rewrite Hp. case_bool_decide as HE.
  - rewrite (foldl_nested _ Spouse.childrenIds).
    destruct (foldl_visible (addVisible fuel pm E) (visibleFrom pm E)
                (Person.spouses p ≫= Spouse.childrenIds)) with (acc0 := setAdd id acc)
      as (accF & EF & HmF & HnF).
    { intros c acc1 (sp & Hsp & Hc)%elem_of_childrenOf.
      destruct (inv_children _ HM _ _ _ _ Hp Hsp Hc) as (q & Hq & Hpar).
      destruct (inv_parent _ HM _ _ _ Hq Hpar) as (p' & Hp' & Hlt).
      assert (p' = p) as -> by congruence.
      apply (IH c q acc1 Hq). lia. }
    exists accF. split; [done|]. split.
    + intros x. rewrite HmF, elem_of_setAdd, (visibleFrom_inv _ _ _ _ _ Hp).
      unfold childrenOf. tauto.
    + intros Hnd. by apply HnF, NoDup_setAdd.
  - exists (setAdd id acc). split; [done|]. split.
    + intros x. rewrite elem_of_setAdd, (visibleFrom_inv _ _ _ _ _ Hp). tauto.
    + apply NoDup_setAdd.
Qed.

Lemma visibleFrom_stored pm E (a x : jsstring) :
  visibleFrom pm E a x → is_Some (pm !! a).
Proof. intros [a' Ha|a' p c x' Hp _ _ _]; [done|by exists p]. Qed.

Lemma visibleFrom_generation pm E (a x : jsstring) :
  MapInv pm → visibleFrom pm E a x →
  ∃ pa px, pm !! a = Some pa ∧ pm !! x = Some px
           ∧ Person.generation pa ≤ Person.generation px.
Proof.
  intros HM. induction 1 as [a [p Hp]|a p c x Hp HE Hc _ IH].
  - exists p, p. split; [done|]. split; [done|lia].
  - destruct IH as (pc & px & Hpc & Hpx & Hle).
    apply elem_of_childrenOf in Hc as (sp & Hsp & Hc).
    destruct (inv_children _ HM _ _ _ _ Hp Hsp Hc) as (q & Hq & Hpar).
    destruct (inv_parent _ HM _ _ _ Hq Hpar) as (p' & Hp' & Hlt).
    assert (p' = p) as -> by congruence. assert (q = pc) as -> by congruence.
    exists p, px. split; [done|]. split; [done|lia].
Qed.

Lemma visibleFrom_last pm E (a x : jsstring) :
  visibleFrom pm E a x →
  x = a ∨ ∃ par p, visibleFrom pm E a par ∧ par ∈ E ∧ pm !! par = Some p
                   ∧ x ∈ childrenOf p.
Proof.
  induction 1 as [a Ha|a p c x Hp HE Hc Hcx IH]; [by left|]. right.
  destruct IH as [->|(par & p' & Hpar & HE' & Hp' & Hx)].
  - exists a, p. split; [apply visible_self; by exists p|done].
  - exists par, p'. split; [by eapply visible_child|done].
Qed.

Lemma fmap_bind_comm {A B C} (f : B → C) (g : A → list B) (l : list A) :
  f <$> (l ≫= g) = l ≫= (λ x, f <$> g x).
Proof.
  induction l as [|a l IH]; [done|]. by rewrite !bind_cons, fmap_app, IH.
Qed.

Lemma edgesOf_targets vis p :
  Edge.target <$> edgesOf vis p = filter (λ c, c ∈ vis) (childrenOf p).
Proof.
  unfold edgesOf, childrenOf.
  induction (Person.spouses p) as [|sp l IH]; [done|].
  rewrite !bind_cons, fmap_app, filter_app, IH. f_equal.
  induction (Spouse.childrenIds sp) as [|c cs IHc]; [done|].
  rewrite bind_cons, fmap_app, filter_cons, IHc.
  case_bool_decide; [by rewrite decide_True|by rewrite decide_False].
Qed.

Lemma elem_of_edgesOf vis p e :
  e ∈ edgesOf vis p
  ↔ ∃ c, c ∈ childrenOf p ∧ c ∈ vis
         ∧ e = Edge.mk (Person.id p ++ u "-" ++ c) (Person.id p) c.
Proof.
  unfold edgesOf, childrenOf. rewrite list_elem_of_bind. split.
  - intros (sp & He & Hsp). apply list_elem_of_bind in He as (c & He & Hc).
    case_bool_decide; [|by apply elem_of_nil in He].
    apply list_elem_of_singleton in He. exists c. split; [|done].
    apply list_elem_of_bind. by exists sp.
  - intros (c & (sp & Hc & Hsp)%list_elem_of_bind & Hv & ->).
    exists sp. split; [|done]. apply list_elem_of_bind. exists c.
    split; [|done]. rewrite bool_decide_eq_true_2 by done.
    by apply list_elem_of_singleton.
Qed.

Lemma node_ids (pm : gmap jsstring Person.t) (vis : list jsstring) :
  (∀ x, x ∈ vis → ∃ p, pm !! x = Some p ∧ Person.id p = x) →
  Node.id <$> omap (λ personId, nodeOf <$> pm !! personId) vis = vis.
Proof.
  induction vis as [|x vis IH]; intros H; [done|]. simpl.
  destruct (H x ltac:(by left)) as (p & -> & Hid). simpl.
  rewrite Hid. f_equal. apply IH. intros y Hy. apply H. by right.
Qed.

(** The set of visible persons of a consistent map, whatever fuel above
    the largest generation the closure is given. *)
Lemma visible_list pm (root : jsstring) E :
  MapInv pm →
  ∃ vis,
    (∀ fuel, (N.to_nat (maxGeneration pm) < fuel)%nat →
       visiblePersonsOf fuel pm root E = Some vis)
    ∧ (∀ fuel vis', visiblePersonsOf fuel pm root E = Some vis' → vis' = vis)
    ∧ NoDup vis
    ∧ (∀ x, x ∈ vis ↔ root ≠ [] ∧ visibleFrom pm E root x).
Proof.
  intros HM. unfold visiblePersonsOf.
  destruct (truthy (Some root) && bool_decide (is_Some (pm !! root))) eqn:Hc.
  - apply andb_true_iff in Hc as [Ht [p Hp]%bool_decide_eq_true].
    destruct (addVisible_spec pm E (S (N.to_nat (maxGeneration pm))) HM
                root p [] Hp ltac:(lia)) as (vis & Hv & Hm & Hn).
    exists vis. split_and!.
    + intros fuel Hf. eapply addVisible_mono; [|done]. lia.
    + intros fuel vis' Hv'.
      set (big := (fuel `max` S (N.to_nat (maxGeneration pm)))%nat).
      pose proof (addVisible_mono pm E fuel big _ _ _ ltac:(lia) Hv') as H1.
      pose proof (addVisible_mono pm E (S (N.to_nat (maxGeneration pm))) big
                    _ _ _ ltac:(lia) Hv) as H2.
      congruence.
    + apply Hn. constructor.
    + intros x. rewrite Hm, elem_of_nil.
      assert (root ≠ []) by (by destruct root). tauto.
  - exists []. split_and!; [done|by intros ?? [= <-]|constructor|].
    intros x. rewrite elem_of_nil. split; [done|]. intros [Hne Hv].
    apply visibleFrom_stored in Hv.
    apply andb_false_iff in Hc as [Hc|Hc].
    + by destruct root.
    + by apply bool_decide_eq_false in Hc.
Qed.

(** The nodes and edges made from the set of visible persons. *)
Lemma elements_of_visible pm (root : jsstring) E (vis : list jsstring) :
  MapInv pm → ChildOnce pm → NoDup vis →
  (∀ x, x ∈ vis ↔ root ≠ [] ∧ visibleFrom pm E root x) →
  let nodes := omap (λ personId, nodeOf <$> pm !! personId) vis in
  let edges := vis ≫= (λ personId,
                 match pm !! personId with
                 | Some person => edgesOf vis person
                 | None => []
                 end) in
  Node.id <$> nodes = vis
  ∧ (∀ n, n ∈ nodes → ∃ p, pm !! Node.id n = Some p ∧ n = nodeOf p)
  ∧ (∀ e, e ∈ edges →
       Edge.source e ∈ vis ∧ Edge.target e ∈ vis ∧ Edge.source e ∈ E
       ∧ Edge.target e ≠ root
       ∧ (∃ q, pm !! Edge.target e = Some q
               ∧ Person.parentId q = Some (Edge.source e))
       ∧ Edge.id e = Edge.source e ++ u "-" ++ Edge.target e)
  ∧ NoDup (Edge.target <$> edges)
  ∧ (∀ x, x ∈ vis → x ≠ root → x ∈ Edge.target <$> edges).
Proof.
  intros HM HC Hnd Hvis nodes edges.
  assert (∀ x, x ∈ vis → ∃ p, pm !! x = Some p ∧ Person.id p = x) as Hst.
  { intros x [_ Hx]%Hvis.
    destruct (visibleFrom_generation _ _ _ _ HM Hx) as (_ & px & _ & Hpx & _).
    exists px. split; [done|]. by apply (inv_id _ HM). }
  assert (∀ id p c, id ∈ vis → pm !! id = Some p → c ∈ childrenOf p →
            c ≠ root
            ∧ ∃ q, pm !! c = Some q ∧ Person.parentId q = Some id) as Hchild.
  { intros id p c [_ Hid]%Hvis Hp (sp & Hsp & Hc)%elem_of_childrenOf.
    destruct (inv_children _ HM _ _ _ _ Hp Hsp Hc) as (q & Hq & Hpar).
    split; [|by exists q]. intros ->.
    destruct (inv_parent _ HM _ _ _ Hq Hpar) as (p' & Hp' & Hlt).
    destruct (visibleFrom_generation _ _ _ _ HM Hid)
      as (pr & pi & Hpr & Hpi & Hle).
    assert (pr = q) as -> by congruence.
    assert (pi = p') as -> by congruence. lia. }
  split_and!.
  - by apply node_ids.
  - intros n (x & Hx & Hn)%list_elem_of_omap.
    destruct (Hst x Hx) as (p & Hp & Hid). rewrite Hp in Hn.
    injection Hn as <-. exists p. simpl. by rewrite Hid.
  - intros e (id & He & Hid)%list_elem_of_bind.
    destruct (Hst id Hid) as (p & Hp & Hidp). rewrite Hp in He.
    apply elem_of_edgesOf in He as (c & Hc & Hcv & ->). simpl.
    rewrite Hidp.
    destruct (Hchild id p c Hid Hp Hc) as (Hne & q & Hq & Hpar).
    split_and!; try done.
    + apply Hvis in Hcv as [_ Hcv].
      apply visibleFrom_last in Hcv
        as [->|(par & p' & _ & HE & Hp' & (sp & Hsp & Hc')%elem_of_childrenOf)];
        [done|].
      destruct (inv_children _ HM _ _ _ _ Hp' Hsp Hc') as (q' & Hq' & Hpar').
      assert (par = id) as -> by congruence. done.
    + by exists q.
  - unfold edges. rewrite fmap_bind_comm. apply NoDup_bind; [| |done].
    + intros x1 x2 y Hx1 Hx2 Hy1 Hy2.
      destruct (Hst x1 Hx1) as (p1 & Hp1 & _).
      destruct (Hst x2 Hx2) as (p2 & Hp2 & _).
      rewrite Hp1 in Hy1. rewrite Hp2 in Hy2.
      rewrite edgesOf_targets in Hy1, Hy2.
      apply list_elem_of_filter in Hy1 as [_ Hy1].
      apply list_elem_of_filter in Hy2 as [_ Hy2].
      destruct (Hchild x1 p1 y Hx1 Hp1 Hy1) as (_ & q1 & Hq1 & Hpar1).
      destruct (Hchild x2 p2 y Hx2 Hp2 Hy2) as (_ & q2 & Hq2 & Hpar2).
      congruence.
    + intros x Hx. destruct (Hst x Hx) as (p & Hp & _). rewrite Hp.
      rewrite edgesOf_targets. apply NoDup_filter. by eapply HC.
  - intros x Hx Hne. pose proof Hx as [Hroot Hv]%Hvis.
    apply visibleFrom_last in Hv as [->|(par & p & Hpar & HE & Hp & Hc)];
      [done|].
    apply list_elem_of_fmap.
    exists (Edge.mk (Person.id p ++ u "-" ++ x) (Person.id p) x).
    split; [done|]. apply list_elem_of_bind. exists par. split.
    + rewrite Hp. apply elem_of_edgesOf. by exists x.
    + apply Hvis. done.
Qed.

Lemma getLayoutedElements_visible fuel pm (root : jsstring) E r :
  getLayoutedElements fuel pm root E = Some r →
  ∃ vis, visiblePersonsOf fuel pm root E = Some vis
    ∧ r = (omap (λ personId, nodeOf <$> pm !! personId) vis,
           vis ≫= (λ personId,
             match pm !! personId with
             | Some person => edgesOf vis person
             | None => []
             end)).
Proof.
  unfold getLayoutedElements.
  destruct (visiblePersonsOf fuel pm root E) as [vis|]; [|done].
  simpl. intros [= <-]. by exists vis.
Qed.


(** X20. The drawing of a parsed chart is a tree: every edge goes from a
    drawn, expanded person to a drawn child of it, whose parent reference
    names that person, and has the two identities joined by a hyphen as its
    own; every drawn person but the root has exactly one edge coming in,
    and the root has none. *)
Theorem drawing_is_a_tree text E fuel nodes edges :
  getLayoutedElements fuel (FamilyData.allPersons (parseFamilyTree text))
    (FamilyData.rootId (parseFamilyTree text)) E = Some (nodes, edges) →
  (∀ e, e ∈ edges →
     Edge.source e ∈ Node.id <$> nodes
     ∧ Edge.target e ∈ Node.id <$> nodes
     ∧ Edge.source e ∈ E
     ∧ parentOf (parseFamilyTree text) (Edge.target e) (Edge.source e)
     ∧ Edge.id e = Edge.source e ++ u "-" ++ Edge.target e)
  ∧ NoDup (Edge.target <$> edges)
  ∧ (∀ x, x ∈ Edge.target <$> edges
          ↔ x ∈ Node.id <$> nodes
            ∧ x ≠ FamilyData.rootId (parseFamilyTree text)).
Proof.
  pose proof (parseFamilyTree_Inv text) as HM.
  assert (ChildOnce (FamilyData.allPersons (parseFamilyTree text))) as HC.
  { apply reachable_ChildOnce. by eexists. }
  unfold parentOf.
  remember (FamilyData.allPersons (parseFamilyTree text)) as pm eqn:Hpm.
  remember (FamilyData.rootId (parseFamilyTree text)) as root eqn:Hroot.
  clear Hpm Hroot.
  intros (vis' & Hv' & [= -> ->])%getLayoutedElements_visible.
  destruct (visible_list _ root E HM) as (vis & _ & Huniq & Hnd & Hvis).
  apply Huniq in Hv' as ->.
  destruct (elements_of_visible _ _ E vis HM HC Hnd Hvis)
    as (Hids & _ & Hedges & Hnt & Hin).
  rewrite Hids. split_and!.
  - intros e He. destruct (Hedges e He) as (H1 & H2 & H3 & _ & H5 & H6).
    done.
  - done.
  - intros x. split.
    + intros (e & -> & He)%list_elem_of_fmap.
      by destruct (Hedges e He) as (_ & H2 & _ & H4 & _).
    + intros [Hx Hne]. by apply Hin.
Qed.

(** X21. A chart without a record of generation 1 draws nothing: the
    root identity is empty, so there is no node and no edge, however many
    persons the chart has and whichever are expanded. *)
Theorem no_root_draws_nothing text E fuel :
  Forall (λ l, isGen1Record l = false) (splitLines text) →
  getLayoutedElements fuel (FamilyData.allPersons (parseFamilyTree text))
    (FamilyData.rootId (parseFamilyTree text)) E = Some ([], []).
Proof.
  intros H. unfold parseFamilyTree. cbn [FamilyData.rootId FamilyData.allPersons].
  by rewrite (rootId_parseLines_none _ _ H).
Qed.

Lemma addVisible_collapsed pm E fuel (id : jsstring) p acc :
  pm !! id = Some p → id ∉ E →
  addVisible (S fuel) pm E id acc = Some (setAdd id acc).
Proof. intros Hp HE. simpl. by rewrite Hp, bool_decide_eq_false_2. Qed.

(** X22. While the root of a parsed chart is collapsed the drawing is the
    root alone, without any edge. *)
Theorem collapsed_root_alone text E fuel p :
  FamilyData.allPersons (parseFamilyTree text)
    !! FamilyData.rootId (parseFamilyTree text) = Some p →
  FamilyData.rootId (parseFamilyTree text) ∉ E →
  getLayoutedElements (S fuel) (FamilyData.allPersons (parseFamilyTree text))
    (FamilyData.rootId (parseFamilyTree text)) E = Some ([nodeOf p], []).
Proof.
  pose proof (parseFamilyTree_Inv text) as HM.
  remember (FamilyData.allPersons (parseFamilyTree text)) as pm eqn:Hpm.
  remember (FamilyData.rootId (parseFamilyTree text)) as root eqn:Hroot.
  clear Hpm Hroot. intros Hp HE.
  pose proof (MapInv_key_nonempty _ _ _ HM Hp) as Hne.
  unfold getLayoutedElements, visiblePersonsOf.
  rewrite (bool_decide_eq_true_2 (is_Some (pm !! root))) by by eexists.
  assert (truthy (Some root) = true) as -> by by destruct root.
  cbn [andb]. rewrite (addVisible_collapsed _ _ _ _ _ _ Hp HE).
  change (setAdd root []) with [root]. cbn [mbind option_bind].
  cbn [omap list_omap mbind list_bind]. rewrite Hp. cbn [fmap option_fmap option_map].
  f_equal. f_equal. rewrite app_nil_r.
  destruct (edgesOf [root] p) as [|e l] eqn:He; [done|]. exfalso.
  assert (e ∈ edgesOf [root] p) as Hin by (rewrite He; by left).
  apply elem_of_edgesOf
    in Hin as (c & (sp & Hsp & Hc)%elem_of_childrenOf
                 & ->%list_elem_of_singleton & _).
  destruct (inv_children _ HM _ _ _ _ Hp Hsp Hc) as (q & Hq & Hpar).
  destruct (inv_parent _ HM _ _ _ Hq Hpar) as (p' & Hp' & Hlt).
  assert (q = p) as -> by congruence. assert (p' = p) as -> by congruence.
  lia.
Qed.

(** ** Years and names of a result *)

Lemma search_Some {A} (p : Re A) s a :
  search p s = Some a → ∃ (i : nat) r, (a, r) ∈ p (drop i s).
Proof.
  induction s as [|c t IH]; simpl.
  - destruct (p []) as [|[a' r] l] eqn:E; [done|]. intros [= ->].
    exists 0%nat, r. simpl. rewrite E. by left.
  - destruct (p (c :: t)) as [|[a' r] l] eqn:E.
    + intros H. destruct (IH H) as (i & r & Hi). by exists (S i), r.
    + intros [= ->]. exists 0%nat, r. simpl. rewrite E. by left.
Qed.

Lemma removeAll_chr P s :
  removeAll (chr P) s = filter (λ c, P c = false) s.
Proof.
  unfold removeAll. induction s as [|c t IH]; [done|].
  rewrite filter_cons. simpl. destruct (P c) eqn:E.
  - replace (S (length t) - length t)%nat with 1%nat by lia.
    rewrite decide_False by congruence. apply IH.
  - rewrite decide_True by done. by rewrite IH.
Qed.

Lemma digit_cases c :
  isDigit c = true →
  c = 48 ∨ c = 49 ∨ c = 50 ∨ c = 51 ∨ c = 52 ∨ c = 53 ∨ c = 54 ∨ c = 55
  ∨ c = 56 ∨ c = 57.
Proof.
  unfold isDigit. intros [H1%N.leb_le H2%N.leb_le]%andb_true_iff. lia.
Qed.

Lemma digit_not_marker c : isDigit c = true → isYearMarker c = false.
Proof.
  intros H. apply digit_cases in H.
  repeat (destruct H as [->|H]; [done|]). by subst c.
Qed.

Lemma filter_markers_digits d :
  digits d → filter (λ c, isYearMarker c = false) d = d.
Proof.
  induction 1 as [|c d Hc _ IH]; [done|].
  rewrite filter_cons, decide_True by by apply digit_not_marker.
  by rewrite IH.
Qed.

Lemma digits_digitsOf s :
  digits s → ∃ D, s = digitsOf D ∧ Decimal.nb_digits D = length s.
Proof.
  induction 1 as [|c d Hc _ (D & -> & Hn)]; [by exists Decimal.Nil|].
  apply digit_cases in Hc.
  repeat (destruct Hc as [->|Hc];
          [first [ by exists (Decimal.D0 D); simpl; rewrite Hn
                 | by exists (Decimal.D1 D); simpl; rewrite Hn
                 | by exists (Decimal.D2 D); simpl; rewrite Hn
                 | by exists (Decimal.D3 D); simpl; rewrite Hn
                 | by exists (Decimal.D4 D); simpl; rewrite Hn
                 | by exists (Decimal.D5 D); simpl; rewrite Hn
                 | by exists (Decimal.D6 D); simpl; rewrite Hn
                 | by exists (Decimal.D7 D); simpl; rewrite Hn
                 | by exists (Decimal.D8 D); simpl; rewrite Hn ]|]).
  subst c. by exists (Decimal.D9 D); simpl; rewrite Hn.
Qed.

Lemma of_lu_bound d :
  DecimalPos.Unsigned.of_lu d < 10 ^ N.of_nat (Decimal.nb_digits d).
Proof.
  induction d; rewrite DecimalPos.Unsigned.of_lu_eqn;
    cbn [DecimalPos.Unsigned.hd DecimalPos.Unsigned.tl Decimal.nb_digits];
    rewrite ?Nat2N.inj_succ, ?N.pow_succ_r'; simpl; try lia.
Qed.

(** The value of a string of digits is below the power of ten of its
    length. *)
Lemma parseDigits_bound s :
  digits s → parseDigits s < 10 ^ N.of_nat (length s).
Proof.
  intros (D & -> & <-)%digits_digitsOf. unfold parseDigits.
  rewrite uintOf_digitsOf. unfold N.of_uint.
  rewrite DecimalPos.Unsigned.of_uint_alt, <- DecimalFacts.nb_digits_rev.
  apply of_lu_bound.
Qed.

(** The text of a year group: four digits, after at most a mark. *)
Lemma year_token m :
  (∃ s r, (m, r) ∈ alt (rep 4 isDigit) (alt markedYear caYear) s
          ∨ (m, r) ∈ alt (rep 4 isDigit) markedYear s) →
  ∀ y, parseSingleYear (Some m) = Some y → y < 10000.
Proof.
  intros (s & r & H).
  assert (∃ pre d, m = pre ++ d ∧ digits d ∧ length d = 4%nat
                   ∧ filter (λ c, isYearMarker c = false) pre = [])
    as (pre & d & -> & Hd & Hl & Hpre).
  { assert (∀ s r, (m, r) ∈ rep 4 isDigit s →
              ∃ pre d, m = pre ++ d ∧ digits d ∧ length d = 4%nat
                       ∧ filter (λ c, isYearMarker c = false) pre = []) as H4.
    { intros s' r' (_ & Hd & Hl)%elem_of_rep. by exists [], m. }
    assert (∀ s r, (m, r) ∈ markedYear s →
              ∃ pre d, m = pre ++ d ∧ digits d ∧ length d = 4%nat
                       ∧ filter (λ c, isYearMarker c = false) pre = []) as Hm.
    { intros s' r' Hin. unfold markedYear in Hin.
      apply elem_of_andThen in Hin as (o & s1 & Ho & Hin).
      apply elem_of_andThen in Hin as (d & s2 & (_ & Hd & Hl)%elem_of_rep & Hin).
      apply elem_of_ret in Hin as [-> _].
      exists (option_list o), d. split_and!; try done.
      apply elem_of_opt in Ho as [(c & -> & [_ Hc]%elem_of_chr)|[-> _]];
        [|done].
      simpl. rewrite filter_cons, decide_False; [done|].
      unfold isLtGt in Hc. unfold isYearMarker.
      apply orb_true_iff in Hc as [->|Hc]; [done|].
      rewrite Hc. by rewrite orb_true_r. }
    destruct H as [H|H].
    - apply elem_of_alt in H as [H|H]; [by eapply H4|].
      apply elem_of_alt in H as [H|H]; [by eapply Hm|].
      unfold caYear in H.
      apply elem_of_andThen in H as (w & s1 & [-> _]%elem_of_lit & H).
      apply elem_of_andThen in H as (d & s2 & (_ & Hd & Hl)%elem_of_rep & H).
      apply elem_of_ret in H as [-> _]. by exists (u "ca"), d.
    - apply elem_of_alt in H as [H|H]; [by eapply H4|by eapply Hm]. }
  intros y. unfold parseSingleYear.
  destruct (pre ++ d) as [|c0 m0] eqn:Em; [done|]. rewrite <- Em.
  rewrite removeAll_chr, filter_app, Hpre, filter_markers_digits by done.
  simpl. unfold parseInt. destruct d as [|c d']; [done|].
  destruct (isDigit c); [|done]. intros [= <-].
  pose proof (parseDigits_bound (c :: d') Hd) as Hb. rewrite Hl in Hb.
  exact Hb.
Qed.

Lemma parseYears_bound text y :
  birthYear (parseYears text) = Some y ∨ deathYear (parseYears text) = Some y →
  y < 10000.
Proof.
  unfold parseYears.
  destruct (search YEARS_REGEX text) as [[g1 g2]|] eqn:E;
    [|by intros [?|?]].
  apply search_Some in E as (i & r & H). unfold YEARS_REGEX in H.
  apply elem_of_andThen in H as (? & s1 & _ & H).
  apply elem_of_andThen in H as (o1 & s2 & H1 & H).
  apply elem_of_andThen in H as (? & s3 & _ & H).
  apply elem_of_andThen in H as (? & s4 & _ & H).
  apply elem_of_andThen in H as (? & s5 & _ & H).
  apply elem_of_andThen in H as (o2 & s6 & H2 & H).
  apply elem_of_andThen in H as (? & s7 & _ & H).
  apply elem_of_ret in H as [[= -> ->] _].
  simpl. intros [Hy|Hy].
  - apply elem_of_opt in H1 as [(m & -> & H1)|[-> _]]; [|done].
    eapply year_token; [|done]. exists s1, s2. by left.
  - apply elem_of_opt in H2 as [(m & -> & H2)|[-> _]]; [|done].
    eapply year_token; [|done]. exists s5, s6. by right.
Qed.

(** X23. Every birth year and death year of a result is a number below
    10000: a year is only read from exactly four digits. *)
Theorem years_below_10000 text key p y :
  FamilyData.allPersons (parseFamilyTree text) !! key = Some p →
  Person.birthYear p = Some y ∨ Person.deathYear p = Some y →
  y < 10000.
Proof.
  unfold parseFamilyTree. simpl. intros Hp Hy.
  apply reachable_created in Hp
    as (s0 & g & ci & rest & k & _ & _ & _ & _ & _ & Hc); [|by eexists].
  destruct Hc as (_ & _ & _ & _ & Hb & Hd & _). simpl in Hb, Hd.
  apply (parseYears_bound rest). rewrite <- Hb, <- Hd. done.
Qed.

Lemma dropWhile_decomp P l :
  ∃ w, Forall (λ c, P c = true) w ∧ l = w ++ dropWhile P l.
Proof.
  induction l as [|c l (w & Hw & IH)]; [by exists []|]. simpl.
  destruct (P c) eqn:E.
  - exists (c :: w). split; [by constructor|]. simpl. by rewrite <- IH.
  - by exists [].
Qed.

Lemma dropWhile_head P l :
  match dropWhile P l with
  | c :: _ => P c = false
  | [] => True
  end.
Proof.
  induction l as [|c l IH]; [done|]. simpl.
  destruct (P c) eqn:E; [done|]. by rewrite E.
Qed.

Lemma dropWhile_id P l :
  match l with
  | c :: _ => P c = false
  | [] => True
  end → dropWhile P l = l.
Proof. destruct l as [|c l]; [done|]. simpl. by intros ->. Qed.

(** Trimming a trimmed string changes nothing. *)
Lemma trim_idem s : trim (trim s) = trim s.
Proof.
  unfold trim.
  pose proof (dropWhile_head isWhiteSpace s) as HX.
  set (X := dropWhile isWhiteSpace s) in *.
  pose proof (dropWhile_head isWhiteSpace (rev X)) as HY.
  destruct (dropWhile_decomp isWhiteSpace (rev X)) as (W & HW & EX).
  set (Y := dropWhile isWhiteSpace (rev X)) in *.
  assert (dropWhile isWhiteSpace (rev Y) = rev Y) as ->.
  { apply dropWhile_id. destruct (rev Y) as [|c t] eqn:EY; [done|].
    apply (f_equal (@rev N)) in EX.
    rewrite rev_involutive, rev_app_distr, EY in EX.
    rewrite EX in HX. done. }
  rewrite rev_involutive. by rewrite dropWhile_id.
Qed.

Lemma extractName_trimmed text : trim (extractName text) = extractName text.
Proof. apply trim_idem. Qed.

Lemma trimmedNames_alter (pm : gmap jsstring Person.t) pid f :
  map_Forall (λ _ p, trimmedNames p) pm →
  (∀ p, trimmedNames p → trimmedNames (f p)) →
  map_Forall (λ _ p, trimmedNames p) (alter f pid pm).
Proof.
  intros H Hf key p'. rewrite lookup_alter. case_decide.
  - subst key. destruct (pm !! pid) as [p|] eqn:Hp; [|done].
    intros [= <-]. apply Hf. by eapply H.
  - apply H.
Qed.

Lemma trimmedNames_alterSpouse h i p :
  (∀ sp, Spouse.name (h sp) = Spouse.name sp) →
  trimmedNames p → trimmedNames (Person.alterSpouse h i p).
Proof.
  intros Hh [H1 H2]. split; [done|]. simpl.
  apply Forall_alter; [done|]. intros sp _. by rewrite Hh.
Qed.

Lemma addChild_name (c : jsstring) sp :
  Spouse.name (Spouse.addChild c sp) = Spouse.name sp.
Proof. unfold Spouse.addChild. by case_bool_decide. Qed.

Lemma trimmedNames_processLine s rawLine :
  map_Forall (λ _ p, trimmedNames p) (personMap s) →
  map_Forall (λ _ p, trimmedNames p) (personMap (processLine s rawLine)).
Proof.
  intros H. unfold processLine.
  destruct (cleanLine rawLine) as [line|]; [|done].
  destruct (exec GENERATION_REGEX line) as [[[g childIndex] rest]|].
  - destruct (resolveId (personMap s)
                (slotOf s (parseDigits g) childIndex) (extractName rest))
      as [fid found] eqn:E.
    destruct found.
    { by rewrite (processPerson_found _ _ _ _ _ E). }
    rewrite (processPerson_new _ _ _ _ _ E). simpl.
    assert (map_Forall (λ _ p, trimmedNames p)
              (<[fid := newPersonOf s (parseDigits g) childIndex rest fid]>
                 (personMap s))) as H1.
    { apply map_Forall_insert_2; [|done].
      split; [apply extractName_trimmed|constructor]. }
    rewrite linkToParent_eq. destruct (truthy _); [|done].
    apply trimmedNames_alter; [done|]. intros p.
    apply trimmedNames_alterSpouse, addChild_name.
  - destruct (exec SPOUSE_REGEX line) as [spouseText|],
      (currentPerson s) as [pid|]; try done.
    + simpl. apply trimmedNames_alter; [done|]. intros p [H1 H2].
      split; [done|]. simpl. apply Forall_app. split; [done|].
      constructor; [apply extractName_trimmed|constructor].
    + destruct (matchMetadata METADATA_REGEX line) as [[mkey value]|];
        [|done].
      destruct mkey; simpl; try destruct (currentSpouse s); simpl; try done;
        apply trimmedNames_alter; try done; intros p Hp;
        first [ by apply trimmedNames_alterSpouse | exact Hp ].
Qed.

(** X24. The names of a result are trimmed: the name of every person and
    of every spouse is its own trimmed form, so it neither starts nor ends
    with white space. *)
Theorem names_are_trimmed text key p :
  FamilyData.allPersons (parseFamilyTree text) !! key = Some p →
  trim (Person.name p) = Person.name p
  ∧ Forall (λ sp, trim (Spouse.name sp) = Spouse.name sp) (Person.spouses p).
Proof.
  unfold parseFamilyTree. simpl. revert key p.
  change (map_Forall (λ _ p, trimmedNames p)
            (personMap (parseLines initState (splitLines text)))).
  induction (splitLines text) as [|l lines IH] using rev_ind.
  - apply map_Forall_empty.
  - rewrite parseLines_app. simpl. by apply trimmedNames_processLine.
Qed.

(** ** Which person becomes the parent *)

Lemma popStack_popStack g g' st :
  g' ≤ g → popStack g' (popStack g st) = popStack g' st.
Proof.
  intros Hle. induction st as [|[g0 pid] st IH]; [done|]. simpl.
  destruct (N.leb_spec g g0) as [H|H].
  - rewrite IH. by rewrite (proj2 (N.leb_le g' g0)) by lia.
  - done.
Qed.

Lemma processPerson_stack s g childIndex rest :
  ∃ fid, currentPerson (processPerson s g childIndex rest) = Some fid
    ∧ parentStack (processPerson s g childIndex rest)
      = (g, fid) :: popStack g (parentStack s).
Proof.
  destruct (resolveId (personMap s) (slotOf s g childIndex) (extractName rest))
    as [fid found] eqn:E.
  exists fid. destruct found.
  - by rewrite (processPerson_found _ _ _ _ _ E).
  - by rewrite (processPerson_new _ _ _ _ _ E).
Qed.

Lemma processLine_stack s rawLine :
  match recordGeneration rawLine with
  | Some g =>
    ∃ fid, currentPerson (processLine s rawLine) = Some fid
      ∧ parentStack (processLine s rawLine)
        = (g, fid) :: popStack g (parentStack s)
  | None => parentStack (processLine s rawLine) = parentStack s
  end.
Proof.
  unfold recordGeneration, processLine.
  destruct (cleanLine rawLine) as [line|]; [|done].
  destruct (exec GENERATION_REGEX line) as [[[g childIndex] rest]|].
  - apply processPerson_stack.
  - destruct (exec SPOUSE_REGEX line) as [spouseText|],
      (currentPerson s) as [pid|] eqn:Hc; rewrite ?Hc; try done.
    destruct (matchMetadata METADATA_REGEX line) as [[mkey value]|];
      [|done].
    by destruct (processMetadata_focus s pid mkey value) as [_ ->].
Qed.

Lemma popStack_parseLines s lines g' :
  Forall (λ l, ∀ gl, recordGeneration l = Some gl → g' ≤ gl) lines →
  popStack g' (parentStack (parseLines s lines)) = popStack g' (parentStack s).
Proof.
  intros H. revert s. induction H as [|l lines Hl _ IH]; intros s; [done|].
  simpl. rewrite IH. pose proof (processLine_stack s l) as Hs.
  destruct (recordGeneration l) as [gl|]; [|by rewrite Hs].
  destruct Hs as (fid & _ & ->). simpl.
  rewrite (proj2 (N.leb_le g' gl)) by by apply Hl.
  apply popStack_popStack. by apply Hl.
Qed.

Lemma exactGenerations_check lines :
  forallb (λ l, match recordGeneration l with
                | Some g => g <? 2 ^ 53
                | None => true
                end) lines = true →
  exactGenerations lines.
Proof.
  intros H. apply Forall_forall. intros l Hl g Hg.
  apply list_elem_of_In in Hl.
  rewrite forallb_forall in H. specialize (H l Hl).
  rewrite Hg in H. by apply N.ltb_lt.
Qed.

Lemma root_not_key pre g b k : checkId (slotId pre g b) k ≠ u "root".
Proof.
  intros E.
  assert (95 ∈ checkId (slotId pre g b) k) as H.
  { assert (95 ∈ slotId pre g b) as H.
    { unfold slotId. apply elem_of_app. right.
      change (u "_g") with [95; 103]. by left. }
    unfold checkId. destruct (k =? 1); [done|].
    apply elem_of_app. by left. }
  rewrite E in H. revert H.
  apply (bool_decide_eq_false_1 (95 ∈ u "root")). vm_compute. reflexivity.
Qed.

Lemma stored_key_not_root s (key : jsstring) :
  reachable s → is_Some (personMap s !! key) → key ≠ u "root".
Proof.
  intros HI%reachable_Inv [p Hp].
  destruct (inv_shape _ (inv_map _ HI) _ _ Hp) as (pre & b & k & -> & _).
  apply root_not_key.
Qed.

(** The person of a record, created or found again, is stored with the
    top of the popped stack as its parent. *)
Lemma processPerson_parent s g childIndex rest :
  reachable s → digits (baseIndex childIndex) →
  ∃ fid p, currentPerson (processPerson s g childIndex rest) = Some fid
    ∧ personMap (processPerson s g childIndex rest) !! fid = Some p
    ∧ Person.parentId p = stackTop (popStack g (parentStack s)).
Proof.
  intros Hr Hd. pose proof (reachable_Inv _ Hr) as HI.
  destruct (resolveId (personMap s) (slotOf s g childIndex) (extractName rest))
    as [fid found] eqn:E.
  destruct found.
  - rewrite (processPerson_found _ _ _ _ _ E). simpl.
    apply resolveId_found in E as (k & p & Hk & Hfid & Hp & _).
    exists fid, p. split; [done|]. split; [done|].
    destruct (reachable_identity s fid p Hr Hp) as (Hd' & k' & Hk' & E').
    change (default (u "root") (Person.parentId p) ++ u "_g"
              ++ toString (Person.generation p) ++ u "-"
              ++ baseIndex (Person.childIndex p))
      with (slotId (default (u "root") (Person.parentId p))
                   (Person.generation p) (baseIndex (Person.childIndex p)))
      in E'.
    rewrite Hfid in E'. unfold slotOf in E'.
    rewrite personCanonicalId_slotId in E'.
    apply checkId_slotId_inj in E' as (Hpre & _); [|done..].
    destruct (stackTop (popStack g (parentStack s))) as [pid|] eqn:Htop.
    + destruct (parent_of_record s g pid HI Htop) as (Ht & q & Hq & _).
      rewrite Ht in Hpre. simpl in Hpre.
      destruct (Person.parentId p) as [par|]; simpl in Hpre; [by subst|].
      exfalso. by apply (stored_key_not_root s pid Hr); [exists q|].
    + simpl in Hpre.
      destruct (Person.parentId p) as [par|] eqn:Epar; [|done].
      simpl in Hpre. exfalso.
      destruct (inv_parent _ (inv_map _ HI) _ _ _ Hp Epar) as (q & Hq & _).
      by apply (stored_key_not_root s par Hr); [exists q|].
  - rewrite (processPerson_new _ _ _ _ _ E). simpl.
    apply resolveId_new in E as (k & Hk & -> & Hfree).
    eexists _, _. split; [done|]. split; [apply lookup_new_exact|done].
Qed.

Lemma recordGeneration_Some rawLine g :
  recordGeneration rawLine = Some g →
  ∃ line gd childIndex rest,
    cleanLine rawLine = Some line
    ∧ exec GENERATION_REGEX line = Some (gd, childIndex, rest)
    ∧ g = parseDigits gd.
Proof.
  unfold recordGeneration.
  destruct (cleanLine rawLine) as [line|] eqn:Hc; [|done].
  destruct (exec GENERATION_REGEX line) as [[[gd ci] rest]|] eqn:Hg; [|done].
  intros [= <-]. by exists line, gd, ci, rest.
Qed.

(** The person of a record line, created or found again, is stored with
    the top of the popped stack as its parent. *)
Lemma processLine_parent s rawLine g :
  reachable s → recordGeneration rawLine = Some g →
  ∃ fid p, currentPerson (processLine s rawLine) = Some fid
    ∧ personMap (processLine s rawLine) !! fid = Some p
    ∧ Person.parentId p = stackTop (popStack g (parentStack s)).
Proof.
  intros Hr (line & gd & ci & rest & Hc & Hg & ->)%recordGeneration_Some.
  rewrite (processLine_person _ _ _ _ _ _ Hc Hg).
  apply processPerson_parent; [done|].
  by apply GENERATION_REGEX_shape in Hg as (_ & _ & ? & _).
Qed.

(** X25. The parent of the person of a record is the person of the latest
    earlier person record of a smaller generation. In a chart whose
    generation numbers are below 2^53: if a record of generation [g] is
    followed only by lines that are no person records or are records of
    generation [g'] or more, with [g < g'], then the person of a record of
    generation [g'] read next, be it created by that record or found again,
    is stored with the person of the first record as its parent. *)
Theorem parent_is_latest_smaller before rec between l g g' :
  exactGenerations (before ++ rec :: between ++ [l]) →
  recordGeneration rec = Some g → recordGeneration l = Some g' → g < g' →
  Forall (λ x, ∀ gx, recordGeneration x = Some gx → g' ≤ gx) between →
  ∃ pid fid p,
    currentPerson (parseLines initState (before ++ [rec])) = Some pid
    ∧ currentPerson
        (parseLines initState (before ++ rec :: between ++ [l])) = Some fid
    ∧ personMap (parseLines initState (before ++ rec :: between ++ [l]))
        !! fid = Some p
    ∧ Person.parentId p = Some pid.
Proof.
  intros _ Hg Hg' Hlt Hbetween.
  pose proof (processLine_stack (parseLines initState before) rec) as Hs.
  rewrite Hg in Hs. destruct Hs as (pid & Hc & Hst).
  exists pid.
  assert (parseLines initState (before ++ rec :: between ++ [l])
          = processLine (parseLines initState (before ++ rec :: between)) l)
    as ->.
  { change (rec :: between ++ [l]) with ((rec :: between) ++ [l]).
    by rewrite app_assoc, parseLines_app. }
  destruct (processLine_parent
              (parseLines initState (before ++ rec :: between)) l g')
    as (fid & p & Hfid & Hp & Hpar); [by eexists|done|].
  exists fid, p. split; [by rewrite parseLines_app|].
  split; [done|]. split; [done|]. rewrite Hpar.
  rewrite (parseLines_app _ before (rec :: between)). simpl.
  rewrite (popStack_parseLines _ _ _ Hbetween), Hst. simpl.
  by rewrite (proj2 (N.leb_nle g' g)) by lia.
Qed.

(** X26. In a chart whose generation numbers are below 2^53, the person of
    a record that no record of a smaller generation precedes, be it
    created by that record or found again, is stored without parent. *)
Theorem no_smaller_generation_no_parent history l g' :
  exactGenerations (history ++ [l]) →
  recordGeneration l = Some g' →
  Forall (λ x, ∀ gx, recordGeneration x = Some gx → g' ≤ gx) history →
  ∃ fid p,
    currentPerson (parseLines initState (history ++ [l])) = Some fid
    ∧ personMap (parseLines initState (history ++ [l])) !! fid = Some p
    ∧ Person.parentId p = None.
Proof.
  intros _ Hg' H. rewrite parseLines_app. simpl.
  destruct (processLine_parent (parseLines initState history) l g')
    as (fid & p & Hfid & Hp & Hpar); [by eexists|done|].
  exists fid, p. split; [done|]. split; [done|]. rewrite Hpar.
  by rewrite (popStack_parseLines _ _ _ H).
Qed.

(** ** The [Created:] header *)

Lemma lit_app w t : lit w (w ++ t) = [(w, t)].
Proof.
  induction w as [|a w IH]; [done|]. simpl. unfold andThen at 1. simpl.
  rewrite N.eqb_refl. simpl. unfold andThen at 1. rewrite IH. done.
Qed.

Lemma lit_startsWith w s : startsWith w s = false → lit w s = [].
Proof.
  revert s. induction w as [|a w IH]; intros s; [done|]. simpl.
  destruct s as [|c s]; [done|]. unfold andThen at 1. simpl.
  destruct (N.eqb_spec a c) as [->|Hne]; [|done]. simpl.
  intros H. unfold andThen at 1. by rewrite (IH _ H).
Qed.

Lemma rep_app n P d t :
  Forall (λ c, P c = true) d → length d = n → rep n P (d ++ t) = [(d, t)].
Proof.
  intros Hd. revert n. induction Hd as [|c d Hc _ IH]; intros n <-; [done|].
  simpl. unfold andThen at 1. simpl. rewrite Hc. simpl.
  unfold andThen at 1. by rewrite (IH _ eq_refl).
Qed.

Lemma rep_fail n P s :
  ¬ Forall (λ c, P c = true) (take n s) ∨ (length s < n)%nat →
  rep n P s = [].
Proof.
  intros H. destruct (rep n P s) as [|[m r] l] eqn:E; [done|]. exfalso.
  assert ((m, r) ∈ rep n P s) as (-> & Hm & Hl)%elem_of_rep
    by (rewrite E; by left).
  destruct H as [H|H].
  - apply H. by rewrite take_app_length' by done.
  - rewrite length_app in H. lia.
Qed.

Lemma star_to_end P pre rest :
  Forall (λ c, P c = true) rest →
  star P rest ≫= (λ r, (eos ;;; ret (pre ++ r.1)) r.2) = [(pre ++ rest, [])].
Proof.
  intros H. revert pre. induction H as [|c t Hc _ IH]; intros pre.
  - simpl. by rewrite !app_nil_r.
  - simpl. rewrite Hc, bind_app. simpl. rewrite app_nil_r.
    rewrite list_fmap_bind.
    specialize (IH (pre ++ [c])). rewrite <- app_assoc in IH. simpl in IH.
    rewrite <- IH. apply list_bind_ext; [|done]. intros [r1 r2]. simpl.
    unfold andThen. by rewrite <- app_assoc.
Qed.

Lemma afterHeader_match d rest :
  digits d → length d = 4%nat → Forall (λ c, isDot c = true) rest →
  afterHeader (d ++ rest) = [(rest, [])].
Proof.
  intros Hd Hl Hrest. unfold afterHeader. unfold andThen at 1.
  rewrite (rep_app 4 isDigit d rest Hd Hl). simpl. rewrite app_nil_r.
  unfold andThen at 1. apply (star_to_end isDot [] rest Hrest).
Qed.

Lemma afterHeader_fail s :
  ¬ digits (take 4 s) → afterHeader s = [].
Proof.
  intros H. unfold afterHeader. unfold andThen at 1.
  rewrite rep_fail; [done|]. by left.
Qed.

Lemma starLazy_skip {A} P (k : jsstring → list (A * jsstring)) x t :
  Forall (λ c, P c = true) x →
  (∀ i : nat, (i < length x)%nat → k (drop i (x ++ t)) = []) →
  starLazy P (x ++ t) ≫= (λ r, k r.2) = starLazy P t ≫= (λ r, k r.2).
Proof.
  induction 1 as [|c x Hc _ IH]; intros Hk; [done|].
  simpl. rewrite Hc. rewrite bind_cons. simpl.
  pose proof (Hk 0%nat ltac:(simpl; lia)) as H0. simpl in H0. rewrite H0.
  simpl. rewrite list_fmap_bind. simpl. apply IH.
  intros i Hi. apply (Hk (S i)). simpl. lia.
Qed.

Lemma starLazy_head P s : ∃ l, starLazy P s = ([], s) :: l.
Proof. destruct s as [|c t]; simpl; [|destruct (P c)]; eauto. Qed.

Lemma CREATED_REGEX_match x d rest :
  Forall (λ c, isDot c = true) x →
  (∀ i : nat, (i < length x)%nat → ¬ digits (take 4 (drop i (x ++ d)))) →
  digits d → length d = 4%nat →
  Forall (λ c, isDot c = true) rest →
  exec CREATED_REGEX (u "Created:" ++ x ++ d ++ rest) = Some rest.
Proof.
  intros Hx Hno Hd Hl Hrest.
  assert (CREATED_REGEX (u "Created:" ++ x ++ d ++ rest)
          = starLazy isDot (x ++ d ++ rest) ≫= (λ r, afterHeader r.2)) as E.
  { unfold CREATED_REGEX. unfold andThen at 1. rewrite lit_app. simpl.
    by rewrite app_nil_r. }
  unfold exec. rewrite E.
  rewrite (starLazy_skip isDot afterHeader x (d ++ rest) Hx).
  - destruct (starLazy_head isDot (d ++ rest)) as [l ->].
    rewrite bind_cons. simpl. by rewrite (afterHeader_match d rest).
  - intros i Hi. apply afterHeader_fail. intros H. apply (Hno i Hi).
    rewrite app_assoc, drop_app_le in H by (rewrite length_app; lia).
    rewrite take_app_le in H; [done|].
    rewrite length_drop, length_app. lia.
Qed.

(** X27. A [Created:] header before a record is cut off: of a line that,
    trimmed, is the word [Created:], some text, the first group of four
    digits after it, and a rest that is not again a header, the loop reads
    the rest alone. The first group of four digits ends the header, not
    the last. *)
Theorem created_header_stripped s rawLine x d rest :
  trim rawLine = u "Created:" ++ x ++ d ++ rest →
  Forall (λ c, isLineTerminator c = false) (x ++ rest) →
  (∀ i : nat, (i < length x)%nat → ¬ digits (take 4 (drop i (x ++ d)))) →
  digits d → length d = 4%nat →
  startsWith (u "Created:") (trim rest) = false →
  processLine s rawLine = processLine s rest.
Proof.
  intros Hraw [Hx Hrest]%Forall_app Hno Hd Hl Hnot.
  assert (∀ l, Forall (λ c, isLineTerminator c = false) l →
               Forall (λ c, isDot c = true) l) as Hdot.
  { intros l H. eapply Forall_impl; [exact H|].
    intros c Hc. simpl in Hc. unfold isDot. by rewrite Hc. }
  unfold processLine, cleanLine. rewrite Hraw.
  rewrite (CREATED_REGEX_match x d rest) by auto.
  assert (exec CREATED_REGEX (trim rest) = None) as ->; [|done].
  apply exec_None. unfold CREATED_REGEX. unfold andThen at 1.
  by rewrite lit_startsWith.
Qed.

End Parser.

(** * Worked examples

    The theorems above applied to concrete charts, with [toLowerAscii] for
    the case mapping (the charts are ASCII). *)

(** The state after the lines [(1) 1 Ann] and [& Carol]. *)
Definition ex_state : ParseState :=
  parseLines toLowerAscii initState [u "(1) 1 Ann"; u "& Carol"].

Definition ex_text : jsstring :=
  u "(1) 1 Ann" ++ [10] ++ u "& Carol" ++ [10] ++ u "(2) 1 Bob".

Definition ex_carol : Spouse.t :=
  Spouse.mk (u "Carol") None None None [u "root_g1-1_g2-1"].

Definition ex_ann : Person.t :=
  Person.mk (u "root_g1-1") 1 (u "1") (u "Ann") None None [ex_carol]
            None None None None None None.

Definition ex_bob : Person.t :=
  Person.mk (u "root_g1-1_g2-1") 2 (u "1") (u "Bob") None None []
            (Some (u "root_g1-1")) None None None None None.

(** C3 (the code departs from the claim). A year marked ca is read on the
    left of the dash, but on the right it makes the whole range unreadable,
    so that both years come out absent, also in the person parsed from a
    record that carries such a range. *)
Theorem parseYears_ca_right :
  parseYears (u "(ca1920-1995)") = mkYears (Some 1920) (Some 1995)
  ∧ parseYears (u "(1920-ca1995)") = mkYears None None
  ∧ (λ p, (Person.name p, Person.birthYear p, Person.deathYear p))
      <$> (FamilyData.allPersons
             (parseFamilyTree toLowerAscii (u "(1) 1 Ann (1920-ca1995)"))
             !! u "root_g1-1")
    = Some (u "Ann", None, None).
Proof. split; [|split]; vm_compute; reflexivity. Qed.

Lemma stripWordI_app w s r :
  stripWordI w s = Some [] → stripWordI w (s ++ r) = Some r.
Proof.
  revert s. induction w as [|[lo up] w IH]; intros s H.
  - simpl in H. injection H as ->. done.
  - destruct s as [|c s]; [done|]. simpl in *.
    destruct ((c =? lo) || (c =? up)); [by apply IH|done].
Qed.

Lemma words_go_blank cur t :
  forallb isWhiteSpace t = true →
  words_go cur t = match cur with
                   | [] => []
                   | _ :: _ => [rev cur]
                   end.
Proof.
  revert cur. induction t as [|c t IH]; intros cur H; [done|].
  simpl in H. apply andb_true_iff in H as [Hc Ht].
  simpl. rewrite Hc, (IH [] Ht). done.
Qed.

Lemma markerOccurs_suffix ws s :
  markerOccurs s = true → markerOccurs (ws ++ s) = true.
Proof.
  intros H. induction ws as [|c ws IH]; [done|].
  change (markerOccursAt (c :: ws ++ s) || markerOccurs (ws ++ s) = true).
  rewrite IH. apply orb_true_r.
Qed.

(** A marker word followed by a token is an occurrence of the letters of
    the marker before white space and a token: the reading of the pattern
    covers the annotations of the specification. *)
Lemma annotated_markerOccurs cur s :
  annotated (words_go cur s) = true → markerOccurs (rev cur ++ s) = true.
Proof.
  revert cur. induction s as [|c t IH]; intros cur H.
  - by destruct cur.
  - simpl in H. destruct (isWhiteSpace c) eqn:Hc.
    + destruct cur as [|a cur'].
      * apply IH in H. by apply (markerOccurs_suffix [c]).
      * remember (a :: cur') as cur0 eqn:E0.
        assert (annotated (rev cur0 :: words_go [] t) = true) as H'
          by (by subst cur0).
        clear H E0. simpl in H'.
        destruct (words_go [] t) as [|w ws] eqn:Hw; [done|].
        apply orb_true_iff in H' as [Hm|Ha].
        -- apply (markerOccurs_skip []).
           change (markerOccursAt (rev cur0 ++ c :: t) = true).
           unfold markerOccursAt. unfold isMarkerWord in Hm.
           apply existsb_exists in Hm as (m & Hin & Hm).
           apply existsb_exists. exists m. split; [done|].
           destruct (stripWordI m (rev cur0)) as [[|]|] eqn:E; try done.
           rewrite (stripWordI_app _ _ (c :: t) E), Hc. simpl.
           destruct (forallb isWhiteSpace t) eqn:Hb; [|done].
           by rewrite (words_go_blank [] t Hb) in Hw.
        -- rewrite <- Hw in Ha. apply (IH []) in Ha.
           replace (rev cur0 ++ c :: t) with ((rev cur0 ++ [c]) ++ t)
             by (by rewrite <- app_assoc).
           by apply markerOccurs_suffix.
    + apply IH in H. simpl rev in H. by rewrite <- app_assoc in H.
Qed.

(** C4 (the code departs from the claim). The pattern that removes the
    localized-name annotations does not ask for a marker word: it also
    takes the letters of a marker at the end of a word, with the word that
    follows. The names [René Dupont] and [Evn Smith] have no parenthesis
    and no marker word, and are trimmed already, yet [extractName] returns
    [Re] and [E]. The claim holds of the code where the letters of a marker
    occur nowhere before white space and a token, be it inside a word: such
    a string has no marker word followed by a token either, and
    [extractName] returns it trimmed. *)
Theorem extractName_marker_inside_word :
  hasParenthesis (u "Ren" ++ [233] ++ u " Dupont") = false
  ∧ hasMarkerWord (u "Ren" ++ [233] ++ u " Dupont") = false
  ∧ trim (u "Ren" ++ [233] ++ u " Dupont") = u "Ren" ++ [233] ++ u " Dupont"
  ∧ extractName (u "Ren" ++ [233] ++ u " Dupont") = u "Re"
  ∧ hasParenthesis (u "Evn Smith") = false
  ∧ hasMarkerWord (u "Evn Smith") = false
  ∧ trim (u "Evn Smith") = u "Evn Smith"
  ∧ extractName (u "Evn Smith") = u "E"
  ∧ hasMarkerWord (u "Ann VN An") = true
  ∧ extractName (u "Ann VN An") = u "Ann"
  ∧ ∀ s, hasParenthesis s = false → markerOccurs s = false →
         hasMarkerWord s = false ∧ extractName s = trim s.
Proof.
  split_and!; try (vm_compute; reflexivity).
  intros s Hp Hm. split; [|by apply extractName_plain].
  destruct (hasMarkerWord s) eqn:E; [|done].
  apply (annotated_markerOccurs []) in E.
  change (rev [] ++ s) with s in E. congruence.
Qed.

(** C8 (the bound of the claim fails). After the one record [(1) 1 Ann]
    no collision has been resolved in the slot [root_g1-1], which holds one
    person. A record of another name in that slot is not settled by one
    probe: the loop is still running after the first and leaves after the
    second, at the unoccupied variant [root_g1-1_2]. The bound that holds
    is one more than the number of persons stored in the slot. *)
Theorem probing_exceeds_collisions :
  slotOf (parseLines toLowerAscii initState [u "(1) 1 Ann"]) 1 (u "1")
  = u "root_g1-1"
  ∧ resolvedCollisions
      (personMap (parseLines toLowerAscii initState [u "(1) 1 Ann"]))
      (u "root_g1-1") = 0%nat
  ∧ slotOccupancy
      (personMap (parseLines toLowerAscii initState [u "(1) 1 Ann"]))
      (u "root_g1-1") = 1%nat
  ∧ probe toLowerAscii 1
      (personMap (parseLines toLowerAscii initState [u "(1) 1 Ann"]))
      (u "root_g1-1") (u "Bea") 1 = None
  ∧ probe toLowerAscii 2
      (personMap (parseLines toLowerAscii initState [u "(1) 1 Ann"]))
      (u "root_g1-1") (u "Bea") 1 = Some (u "root_g1-1_2", false)
  ∧ currentPerson
      (parseLines toLowerAscii initState [u "(1) 1 Ann"; u "(1) 1 Bea"])
    = Some (u "root_g1-1_2").
Proof. split_and!; vm_compute; reflexivity. Qed.



Lemma root_is_first_generation_1_witness :
  splitLines (u "(2) 1 Eve" ++ [10] ++ ex_text)
  = [u "(2) 1 Eve"] ++ u "(1) 1 Ann" :: [u "& Carol"; u "(2) 1 Bob"]
  ∧ Forall (λ x, isGen1Record x = false) [u "(2) 1 Eve"]
  ∧ isGen1Record (u "(1) 1 Ann") = true
  ∧ FamilyData.rootId
      (parseFamilyTree toLowerAscii (u "(2) 1 Eve" ++ [10] ++ ex_text)) ≠ []
  ∧ currentPerson
      (parseLines toLowerAscii initState ([u "(2) 1 Eve"] ++ [u "(1) 1 Ann"]))
    = Some (FamilyData.rootId
              (parseFamilyTree toLowerAscii
                 (u "(2) 1 Eve" ++ [10] ++ ex_text)))
  ∧ ∃ p, FamilyData.allPersons
           (parseFamilyTree toLowerAscii (u "(2) 1 Eve" ++ [10] ++ ex_text))
           !! FamilyData.rootId
                (parseFamilyTree toLowerAscii
                   (u "(2) 1 Eve" ++ [10] ++ ex_text)) = Some p
         ∧ Person.generation p = 1
         ∧ Person.id p
           = FamilyData.rootId
               (parseFamilyTree toLowerAscii
                  (u "(2) 1 Eve" ++ [10] ++ ex_text)).
Proof.
  assert (splitLines (u "(2) 1 Eve" ++ [10] ++ ex_text)
          = [u "(2) 1 Eve"] ++ u "(1) 1 Ann" :: [u "& Carol"; u "(2) 1 Bob"])
    as Hsplit by (vm_compute; reflexivity).
  assert (Forall (λ x, isGen1Record x = false) [u "(2) 1 Eve"]) as Hbefore
    by (repeat constructor).
  assert (isGen1Record (u "(1) 1 Ann") = true) as Hl
    by (vm_compute; reflexivity).
  split; [exact Hsplit|]. split; [exact Hbefore|]. split; [exact Hl|].
  exact (proj1 (proj2 (root_is_first_generation_1 toLowerAscii
                         (u "(2) 1 Eve" ++ [10] ++ ex_text)))
           _ _ _ Hsplit Hbefore Hl).
Defined.


Lemma metadata_line_targets_witness :
  isMetadataLine (u "m. Jan 2011") marriage (u "Jan 2011")
  ∧ reachable toLowerAscii ex_state
  ∧ currentPerson ex_state = Some (u "root_g1-1")
  ∧ currentPerson initState = None
  ∧ processLine toLowerAscii initState (u "m. Jan 2011") = initState
  ∧ ∃ p, personMap ex_state !! u "root_g1-1" = Some p
      ∧ ∃ sps sp, Person.spouses p = sps ++ [sp]
          ∧ processLine toLowerAscii ex_state (u "m. Jan 2011")
            = setPerson ex_state (u "root_g1-1")
                (withSpouses
                   (sps ++ [Spouse.mk (Spouse.name sp) (Spouse.nameVN sp)
                                      (Some (u "Jan 2011"))
                                      (Spouse.divorceDate sp)
                                      (Spouse.childrenIds sp)]) p).
Proof.
  assert (isMetadataLine (u "m. Jan 2011") marriage (u "Jan 2011")) as Hm.
  { exists (u "m. Jan 2011"). split; vm_compute; reflexivity. }
  assert (reachable toLowerAscii ex_state) as Hr by (by eexists).
  assert (currentPerson ex_state = Some (u "root_g1-1")) as Hc
    by (vm_compute; reflexivity).
  assert (currentPerson initState = None) as Hn by reflexivity.
  split; [exact Hm|]. split; [exact Hr|]. split; [exact Hc|].
  split; [exact Hn|].
  split.
  - exact (proj1 (metadata_line_targets toLowerAscii _ _ _ Hm) initState Hn).
  - exact (proj2 (metadata_line_targets toLowerAscii _ _ _ Hm)
             ex_state _ Hr Hc).
Defined.

Lemma merge_changes_no_person_witness :
  cleanLine (u "  (1) 1a ann ") = Some (u "(1) 1a ann")
  ∧ exec GENERATION_REGEX (u "(1) 1a ann") = Some (u "1", u "1a", u "ann")
  ∧ resolveId toLowerAscii (personMap ex_state)
              (slotOf ex_state (parseDigits (u "1")) (u "1a"))
              (extractName (u "ann")) = (u "root_g1-1", true)
  ∧ is_Some (personMap ex_state !! u "root_g1-1")
  ∧ processLine toLowerAscii ex_state (u "  (1) 1a ann ")
    = mkState (personMap ex_state) (Some (u "root_g1-1")) None
              ((parseDigits (u "1"), u "root_g1-1")
                 :: popStack (parseDigits (u "1")) (parentStack ex_state))
              (rootId ex_state).
Proof.
  assert (cleanLine (u "  (1) 1a ann ") = Some (u "(1) 1a ann")) as Hc
    by (vm_compute; reflexivity).
  assert (exec GENERATION_REGEX (u "(1) 1a ann")
          = Some (u "1", u "1a", u "ann")) as Hg by (vm_compute; reflexivity).
  assert (resolveId toLowerAscii (personMap ex_state)
            (slotOf ex_state (parseDigits (u "1")) (u "1a"))
            (extractName (u "ann")) = (u "root_g1-1", true)) as Hf
    by (vm_compute; reflexivity).
  split; [exact Hc|]. split; [exact Hg|]. split; [exact Hf|].
  exact (merge_changes_no_person toLowerAscii ex_state _ _ _ _ _ _ Hc Hg Hf).
Defined.

Lemma children_lists_consistent_witness :
  FamilyData.allPersons (parseFamilyTree toLowerAscii ex_text)
    !! u "root_g1-1" = Some ex_ann
  ∧ ex_carol ∈ Person.spouses ex_ann
  ∧ NoDup (Spouse.childrenIds ex_carol)
  ∧ ∀ c, c ∈ Spouse.childrenIds ex_carol →
      ∃ q, FamilyData.allPersons (parseFamilyTree toLowerAscii ex_text) !! c
           = Some q
           ∧ Person.parentId q = Some (Person.id ex_ann).
Proof.
  assert (FamilyData.allPersons (parseFamilyTree toLowerAscii ex_text)
            !! u "root_g1-1" = Some ex_ann) as Hp by (vm_compute; reflexivity).
  assert (ex_carol ∈ Person.spouses ex_ann) as Hsp by (by left).
  split; [exact Hp|]. split; [exact Hsp|].
  exact (children_lists_consistent toLowerAscii ex_text _ _ _ Hp Hsp).
Defined.

Lemma parent_references_acyclic_witness :
  FamilyData.allPersons (parseFamilyTree toLowerAscii ex_text)
    !! u "root_g1-1_g2-1" = Some ex_bob
  ∧ Person.parentId ex_bob = Some (u "root_g1-1")
  ∧ ∃ q, FamilyData.allPersons (parseFamilyTree toLowerAscii ex_text)
           !! u "root_g1-1" = Some q
         ∧ Person.generation q < Person.generation ex_bob.
Proof.
  assert (FamilyData.allPersons (parseFamilyTree toLowerAscii ex_text)
            !! u "root_g1-1_g2-1" = Some ex_bob) as Hp
    by (vm_compute; reflexivity).
  assert (Person.parentId ex_bob = Some (u "root_g1-1")) as Hpar
    by reflexivity.
  split; [exact Hp|]. split; [exact Hpar|].
  exact (proj1 (parent_references_acyclic toLowerAscii ex_text) _ _ _ Hp Hpar).
Defined.

(** Ann as she stands in [ex_state], before any child is read. *)
Definition ex_ann0 : Person.t :=
  Person.mk (u "root_g1-1") 1 (u "1") (u "Ann") None None
            [Spouse.mk (u "Carol") None None None []]
            None None None None None None.

Lemma person_core_never_changes_witness :
  personMap ex_state !! u "root_g1-1" = Some ex_ann0
  ∧ ∃ p', personMap (parseLines toLowerAscii ex_state
                       [u "(2) 1 Bob"; u "ali. Annie"]) !! u "root_g1-1"
          = Some p'
    ∧ Person.id p' = Person.id ex_ann0
    ∧ Person.generation p' = Person.generation ex_ann0
    ∧ Person.childIndex p' = Person.childIndex ex_ann0
    ∧ Person.name p' = Person.name ex_ann0
    ∧ Person.birthYear p' = Person.birthYear ex_ann0
    ∧ Person.deathYear p' = Person.deathYear ex_ann0
    ∧ Person.parentId p' = Person.parentId ex_ann0.
Proof.
  assert (personMap ex_state !! u "root_g1-1" = Some ex_ann0) as Hp
    by (vm_compute; reflexivity).
  split; [exact Hp|].
  exact (person_core_never_changes toLowerAscii ex_state _ _ _ Hp).
Defined.

Lemma person_lists_append_only_witness :
  personMap ex_state !! u "root_g1-1" = Some ex_ann0
  ∧ ∃ p' l1 l2,
      personMap (parseLines toLowerAscii ex_state
                   [u "(2) 1 Bob"; u "(1) 1 Ann"; u "& Dora"])
        !! u "root_g1-1" = Some p'
      ∧ Person.spouses p' = l1 ++ l2
      ∧ Forall2 (λ sp sp', Spouse.name sp' = Spouse.name sp
                   ∧ Spouse.childrenIds sp `prefix_of` Spouse.childrenIds sp')
                (Person.spouses ex_ann0) l1
      ∧ default [] (Person.alias ex_ann0) `prefix_of` default [] (Person.alias p').
Proof.
  assert (personMap ex_state !! u "root_g1-1" = Some ex_ann0) as Hp
    by (vm_compute; reflexivity).
  split; [exact Hp|].
  exact (person_lists_append_only toLowerAscii ex_state _ _ _ Hp).
Defined.

Lemma identity_format_witness :
  exactGenerations (splitLines ex_text)
  ∧ FamilyData.allPersons (parseFamilyTree toLowerAscii ex_text)
      !! u "root_g1-1_g2-1" = Some ex_bob
  ∧ digits (baseIndex (Person.childIndex ex_bob))
  ∧ ∃ k, 1 ≤ k
      ∧ u "root_g1-1_g2-1"
        = checkId (default (u "root") (Person.parentId ex_bob)
                     ++ u "_g" ++ toString (Person.generation ex_bob)
                     ++ u "-" ++ baseIndex (Person.childIndex ex_bob)) k.
Proof.
  assert (exactGenerations (splitLines ex_text)) as He
    by (apply exactGenerations_check; vm_compute; reflexivity).
  assert (FamilyData.allPersons (parseFamilyTree toLowerAscii ex_text)
            !! u "root_g1-1_g2-1" = Some ex_bob) as Hp
    by (vm_compute; reflexivity).
  split; [exact He|]. split; [exact Hp|].
  exact (identity_format toLowerAscii ex_text _ _ He Hp).
Defined.

Lemma identity_characters_witness :
  exactGenerations (splitLines ex_text)
  ∧ is_Some (FamilyData.allPersons (parseFamilyTree toLowerAscii ex_text)
               !! u "root_g1-1_g2-1")
  ∧ u "root_g1-1_g2-1" ≠ []
  ∧ forallb isIdChar (u "root_g1-1_g2-1") = true.
Proof.
  assert (exactGenerations (splitLines ex_text)) as He
    by (apply exactGenerations_check; vm_compute; reflexivity).
  assert (is_Some (FamilyData.allPersons (parseFamilyTree toLowerAscii ex_text)
                     !! u "root_g1-1_g2-1")) as Hp.
  { exists ex_bob. vm_compute. reflexivity. }
  split; [exact He|]. split; [exact Hp|].
  exact (identity_characters toLowerAscii ex_text _ He Hp).
Defined.

Lemma focus_is_top_of_stack_witness :
  reachable toLowerAscii ex_state
  ∧ currentPerson ex_state = stackTop (parentStack ex_state)
  ∧ stackSorted (parentStack ex_state)
  ∧ match parentStack ex_state with
    | (g, _) :: _ => (length (parentStack ex_state) ≤ S (N.to_nat g))%nat
    | [] => True
    end.
Proof.
  assert (reachable toLowerAscii ex_state) as Hr by (by eexists).
  split; [exact Hr|].
  exact (focus_is_top_of_stack toLowerAscii ex_state Hr).
Defined.

Lemma no_person_record_no_person_witness :
  Forall (λ l, isPersonRecord l = false)
         (splitLines (u "& Carol" ++ [10] ++ u "m. Jan 2011"))
  ∧ parseLines toLowerAscii initState
      (splitLines (u "& Carol" ++ [10] ++ u "m. Jan 2011")) = initState
  ∧ parseFamilyTree toLowerAscii (u "& Carol" ++ [10] ++ u "m. Jan 2011")
    = FamilyData.mk ∅ [].
Proof.
  assert (Forall (λ l, isPersonRecord l = false)
            (splitLines (u "& Carol" ++ [10] ++ u "m. Jan 2011"))) as H.
  { change (splitLines (u "& Carol" ++ [10] ++ u "m. Jan 2011"))
      with [u "& Carol"; u "m. Jan 2011"].
    repeat constructor. }
  split; [exact H|].
  exact (no_person_record_no_person toLowerAscii _ H).
Defined.

(** A store into which the chart [ex_text] has been loaded. *)
Definition ex_store : TreeStore.t :=
  setFamilyData (parseFamilyTree toLowerAscii ex_text)
                (TreeStore.mk None ∅ None []).

Lemma splitLines_joinLines_witness :
  [u "(1) 1 Ann"; u "& Carol"; []] ≠ []
  ∧ Forall (λ l, (10 ∉ l) ∧ last l ≠ Some 13) [u "(1) 1 Ann"; u "& Carol"; []]
  ∧ splitLines (joinLines [u "(1) 1 Ann"; u "& Carol"; []])
    = [u "(1) 1 Ann"; u "& Carol"; []].
Proof.
  assert ([u "(1) 1 Ann"; u "& Carol"; []] ≠ @nil jsstring) as Hne by done.
  assert (Forall (λ l, (10 ∉ l) ∧ last l ≠ Some 13)
            [u "(1) 1 Ann"; u "& Carol"; []]) as H.
  { apply (bool_decide_eq_true_1
             (Forall (λ l : jsstring, (10 ∉ l) ∧ last l ≠ Some 13)
                     [u "(1) 1 Ann"; u "& Carol"; []])).
    vm_compute. reflexivity. }
  split; [exact Hne|]. split; [exact H|].
  exact (splitLines_joinLines _ Hne H).
Defined.

Lemma surrounding_space_ignored_witness :
  blank (u "  ") ∧ blank [9; 13]
  ∧ processLine toLowerAscii initState (u "  " ++ u "(1) 1 Ann" ++ [9; 13])
    = processLine toLowerAscii initState (u "(1) 1 Ann").
Proof.
  assert (blank (u "  ")) as H1 by (repeat constructor).
  assert (blank [9; 13]) as H2 by (repeat constructor).
  split; [exact H1|]. split; [exact H2|].
  exact (surrounding_space_ignored toLowerAscii initState _ _ _ H1 H2).
Defined.


Lemma person_metadata_line_witness :
  isMetadataLine (u "ali. Annie") alias (u "Annie")
  ∧ reachable toLowerAscii ex_state
  ∧ currentPerson ex_state = Some (u "root_g1-1")
  ∧ ∃ p, personMap ex_state !! u "root_g1-1" = Some p
      ∧ processLine toLowerAscii ex_state (u "ali. Annie")
        = setPerson ex_state (u "root_g1-1")
            (Person.mk (Person.id p) (Person.generation p)
               (Person.childIndex p) (Person.name p) (Person.birthYear p)
               (Person.deathYear p) (Person.spouses p) (Person.parentId p)
               (Some (default [] (Person.alias p) ++ [u "Annie"]))
               (Person.houseName p) (Person.nameVN p) (Person.memorialDate p)
               (Person.religiousName p)).
Proof.
  assert (isMetadataLine (u "ali. Annie") alias (u "Annie")) as Hm.
  { exists (u "ali. Annie"). split; vm_compute; reflexivity. }
  assert (reachable toLowerAscii ex_state) as Hr by (by eexists).
  assert (currentPerson ex_state = Some (u "root_g1-1")) as Hc
    by (vm_compute; reflexivity).
  split; [exact Hm|]. split; [exact Hr|]. split; [exact Hc|].
  exact (person_metadata_line toLowerAscii _ _ _ _ _ Hm Hr Hc).
Defined.

Lemma child_listed_once_witness :
  FamilyData.allPersons (parseFamilyTree toLowerAscii ex_text)
    !! u "root_g1-1" = Some ex_ann
  ∧ Person.spouses ex_ann !! 0%nat = Some ex_carol
  ∧ u "root_g1-1_g2-1" ∈ Spouse.childrenIds ex_carol
  ∧ u "root_g1-1" = u "root_g1-1" ∧ 0%nat = 0%nat
  ∧ NoDup (childrenOf ex_ann).
Proof.
  assert (FamilyData.allPersons (parseFamilyTree toLowerAscii ex_text)
            !! u "root_g1-1" = Some ex_ann) as Hp by (vm_compute; reflexivity).
  assert (Person.spouses ex_ann !! 0%nat = Some ex_carol) as Hs by reflexivity.
  assert (u "root_g1-1_g2-1" ∈ Spouse.childrenIds ex_carol) as Hc by (by left).
  split; [exact Hp|]. split; [exact Hs|]. split; [exact Hc|].
  exact (child_listed_once toLowerAscii ex_text _ _ _ _ _ _ _ _ _
           Hp Hp Hs Hs Hc Hc).
Defined.

Lemma toggleGeneration_sets_generation_witness :
  TreeStore.familyData ex_store = Some (parseFamilyTree toLowerAscii ex_text)
  ∧ isExpanded (u "root_g1-1_g2-1") (toggleGeneration 2 false ex_store)
    = match FamilyData.allPersons (parseFamilyTree toLowerAscii ex_text)
              !! u "root_g1-1_g2-1" with
      | Some p =>
        if bool_decide (Person.generation p = 2) then false
        else isExpanded (u "root_g1-1_g2-1") ex_store
      | None => isExpanded (u "root_g1-1_g2-1") ex_store
      end.
Proof.
  assert (TreeStore.familyData ex_store
          = Some (parseFamilyTree toLowerAscii ex_text)) as H by reflexivity.
  split; [exact H|].
  exact (toggleGeneration_sets_generation toLowerAscii ex_text ex_store 2 false
           _ H).
Defined.

Lemma select_expands_ancestors_witness :
  FamilyData.allPersons (parseFamilyTree toLowerAscii ex_text)
    !! u "root_g1-1_g2-1" = Some ex_bob
  ∧ ∃ path,
      getPathToRoot (S (N.to_nat (Person.generation ex_bob)))
                    (Some (parseFamilyTree toLowerAscii ex_text))
                    (u "root_g1-1_g2-1") = Some path
      ∧ ∀ a,
          (rtc (parentOf (parseFamilyTree toLowerAscii ex_text))
               (u "root_g1-1_g2-1") a →
             isExpanded a (expandPath path (TreeStore.mk None ∅ None []))
             = true)
          ∧ (¬ rtc (parentOf (parseFamilyTree toLowerAscii ex_text))
                   (u "root_g1-1_g2-1") a →
             isExpanded a (expandPath path (TreeStore.mk None ∅ None []))
             = isExpanded a (TreeStore.mk None ∅ None [])).
Proof.
  assert (FamilyData.allPersons (parseFamilyTree toLowerAscii ex_text)
            !! u "root_g1-1_g2-1" = Some ex_bob) as Hp
    by (vm_compute; reflexivity).
  split; [exact Hp|].
  exact (select_expands_ancestors toLowerAscii ex_text _ _ _ Hp).
Defined.

(** The elements of the drawing of [ex_text] with Ann expanded. *)
Definition ex_nodes : list Node.t := [nodeOf ex_ann; nodeOf ex_bob].

Definition ex_edges : list Edge.t :=
  [Edge.mk (u "root_g1-1-root_g1-1_g2-1") (u "root_g1-1")
           (u "root_g1-1_g2-1")].

Lemma drawing_is_a_tree_witness :
  getLayoutedElements 3
    (FamilyData.allPersons (parseFamilyTree toLowerAscii ex_text))
    (FamilyData.rootId (parseFamilyTree toLowerAscii ex_text))
    {[u "root_g1-1"]} = Some (ex_nodes, ex_edges)
  ∧ (∀ e, e ∈ ex_edges →
       Edge.source e ∈ Node.id <$> ex_nodes
       ∧ Edge.target e ∈ Node.id <$> ex_nodes
       ∧ Edge.source e ∈ ({[u "root_g1-1"]} : gset jsstring)
       ∧ parentOf (parseFamilyTree toLowerAscii ex_text)
                  (Edge.target e) (Edge.source e)
       ∧ Edge.id e = Edge.source e ++ u "-" ++ Edge.target e)
  ∧ NoDup (Edge.target <$> ex_edges)
  ∧ (∀ x, x ∈ Edge.target <$> ex_edges
          ↔ x ∈ Node.id <$> ex_nodes
            ∧ x ≠ FamilyData.rootId (parseFamilyTree toLowerAscii ex_text)).
Proof.
  assert (getLayoutedElements 3
            (FamilyData.allPersons (parseFamilyTree toLowerAscii ex_text))
            (FamilyData.rootId (parseFamilyTree toLowerAscii ex_text))
            {[u "root_g1-1"]} = Some (ex_nodes, ex_edges)) as H
    by (vm_compute; reflexivity).
  split; [exact H|].
  exact (drawing_is_a_tree toLowerAscii ex_text _ _ _ _ H).
Defined.

Lemma no_root_draws_nothing_witness :
  Forall (λ l, isGen1Record l = false) (splitLines (u "(2) 1 Eve"))
  ∧ getLayoutedElements 1
      (FamilyData.allPersons (parseFamilyTree toLowerAscii (u "(2) 1 Eve")))
      (FamilyData.rootId (parseFamilyTree toLowerAscii (u "(2) 1 Eve")))
      {[u "root_g2-1"]} = Some ([], []).
Proof.
  assert (Forall (λ l, isGen1Record l = false) (splitLines (u "(2) 1 Eve")))
    as H.
  { change (splitLines (u "(2) 1 Eve")) with [u "(2) 1 Eve"].
    repeat constructor. }
  split; [exact H|].
  exact (no_root_draws_nothing toLowerAscii _ _ _ H).
Defined.

Lemma collapsed_root_alone_witness :
  FamilyData.allPersons (parseFamilyTree toLowerAscii ex_text)
    !! FamilyData.rootId (parseFamilyTree toLowerAscii ex_text) = Some ex_ann
  ∧ getLayoutedElements 1
      (FamilyData.allPersons (parseFamilyTree toLowerAscii ex_text))
      (FamilyData.rootId (parseFamilyTree toLowerAscii ex_text)) ∅
    = Some ([nodeOf ex_ann], []).
Proof.
  assert (FamilyData.allPersons (parseFamilyTree toLowerAscii ex_text)
            !! FamilyData.rootId (parseFamilyTree toLowerAscii ex_text)
          = Some ex_ann) as Hp by (vm_compute; reflexivity).
  split; [exact Hp|].
  exact (collapsed_root_alone toLowerAscii ex_text ∅ 0 _ Hp
           (not_elem_of_empty _)).
Defined.

(** Ann as parsed from a record with a range of years. *)
Definition ex_ann_years : Person.t :=
  Person.mk (u "root_g1-1") 1 (u "1") (u "Ann") (Some 1920) (Some 1995) []
            None None None None None None.

Lemma years_below_10000_witness :
  FamilyData.allPersons
    (parseFamilyTree toLowerAscii (u "(1) 1 Ann (1920-1995)"))
    !! u "root_g1-1" = Some ex_ann_years
  ∧ (Person.birthYear ex_ann_years = Some 1920
     ∨ Person.deathYear ex_ann_years = Some 1920)
  ∧ 1920 < 10000.
Proof.
  assert (FamilyData.allPersons
            (parseFamilyTree toLowerAscii (u "(1) 1 Ann (1920-1995)"))
            !! u "root_g1-1" = Some ex_ann_years) as Hp
    by (vm_compute; reflexivity).
  assert (Person.birthYear ex_ann_years = Some 1920
          ∨ Person.deathYear ex_ann_years = Some 1920) as Hy
    by (left; reflexivity).
  split; [exact Hp|]. split; [exact Hy|].
  exact (years_below_10000 toLowerAscii _ _ _ _ Hp Hy).
Defined.

Lemma names_are_trimmed_witness :
  FamilyData.allPersons (parseFamilyTree toLowerAscii ex_text)
    !! u "root_g1-1" = Some ex_ann
  ∧ trim (Person.name ex_ann) = Person.name ex_ann
  ∧ Forall (λ sp, trim (Spouse.name sp) = Spouse.name sp)
           (Person.spouses ex_ann).
Proof.
  assert (FamilyData.allPersons (parseFamilyTree toLowerAscii ex_text)
            !! u "root_g1-1" = Some ex_ann) as Hp by (vm_compute; reflexivity).
  split; [exact Hp|].
  exact (names_are_trimmed toLowerAscii ex_text _ _ Hp).
Defined.

Lemma parent_is_latest_smaller_witness :
  exactGenerations
    ([] ++ u "(1) 1 Ann" :: [u "& Carol"; u "(3) 1 Zed"] ++ [u "(2) 1 Bob"])
  ∧ recordGeneration (u "(1) 1 Ann") = Some 1
  ∧ recordGeneration (u "(2) 1 Bob") = Some 2
  ∧ 1 < 2
  ∧ Forall (λ l, ∀ gl, recordGeneration l = Some gl → 2 ≤ gl)
           [u "& Carol"; u "(3) 1 Zed"]
  ∧ ∃ pid fid p,
      currentPerson
        (parseLines toLowerAscii initState ([] ++ [u "(1) 1 Ann"])) = Some pid
      ∧ currentPerson
          (parseLines toLowerAscii initState
             ([] ++ u "(1) 1 Ann" :: [u "& Carol"; u "(3) 1 Zed"]
                 ++ [u "(2) 1 Bob"])) = Some fid
      ∧ personMap
          (parseLines toLowerAscii initState
             ([] ++ u "(1) 1 Ann" :: [u "& Carol"; u "(3) 1 Zed"]
                 ++ [u "(2) 1 Bob"])) !! fid = Some p
      ∧ Person.parentId p = Some pid.
Proof.
  assert (exactGenerations
            ([] ++ u "(1) 1 Ann" :: [u "& Carol"; u "(3) 1 Zed"]
                ++ [u "(2) 1 Bob"])) as He
    by (apply exactGenerations_check; vm_compute; reflexivity).
  assert (recordGeneration (u "(1) 1 Ann") = Some 1) as Hg
    by (vm_compute; reflexivity).
  assert (recordGeneration (u "(2) 1 Bob") = Some 2) as Hg'
    by (vm_compute; reflexivity).
  assert (1 < 2) as Hlt by done.
  assert (Forall (λ l, ∀ gl, recordGeneration l = Some gl → 2 ≤ gl)
            [u "& Carol"; u "(3) 1 Zed"]) as Hb.
  { constructor; [|constructor; [|constructor]].
    - intros gl H. vm_compute in H. discriminate H.
    - intros gl H. vm_compute in H. injection H as <-. done. }
  split; [exact He|]. split; [exact Hg|]. split; [exact Hg'|].
  split; [exact Hlt|]. split; [exact Hb|].
  exact (parent_is_latest_smaller toLowerAscii [] _ _ _ _ _ He Hg Hg' Hlt Hb).
Defined.

Lemma no_smaller_generation_no_parent_witness :
  exactGenerations ([u "(2) 1 Eve"] ++ [u "(1) 1 Ann"])
  ∧ recordGeneration (u "(1) 1 Ann") = Some 1
  ∧ Forall (λ l, ∀ gl, recordGeneration l = Some gl → 1 ≤ gl) [u "(2) 1 Eve"]
  ∧ ∃ fid p,
      currentPerson
        (parseLines toLowerAscii initState
           ([u "(2) 1 Eve"] ++ [u "(1) 1 Ann"])) = Some fid
      ∧ personMap
          (parseLines toLowerAscii initState
             ([u "(2) 1 Eve"] ++ [u "(1) 1 Ann"])) !! fid = Some p
      ∧ Person.parentId p = None.
Proof.
  assert (exactGenerations ([u "(2) 1 Eve"] ++ [u "(1) 1 Ann"])) as He
    by (apply exactGenerations_check; vm_compute; reflexivity).
  assert (recordGeneration (u "(1) 1 Ann") = Some 1) as Hg
    by (vm_compute; reflexivity).
  assert (Forall (λ l, ∀ gl, recordGeneration l = Some gl → 1 ≤ gl)
            [u "(2) 1 Eve"]) as H.
  { constructor; [|constructor].
    intros gl H. vm_compute in H. injection H as <-. done. }
  split; [exact He|]. split; [exact Hg|]. split; [exact H|].
  exact (no_smaller_generation_no_parent toLowerAscii _ _ _ He Hg H).
Defined.

Lemma created_header_stripped_witness :
  trim (u "Created: Saturday, 28 Dec 2024(3) 3b Ann")
  = u "Created:" ++ u " Saturday, 28 Dec " ++ u "2024" ++ u "(3) 3b Ann"
  ∧ Forall (λ c, isLineTerminator c = false)
           (u " Saturday, 28 Dec " ++ u "(3) 3b Ann")
  ∧ (∀ i : nat, (i < length (u " Saturday, 28 Dec "))%nat →
       ¬ digits (take 4 (drop i (u " Saturday, 28 Dec " ++ u "2024"))))
  ∧ digits (u "2024") ∧ length (u "2024") = 4%nat
  ∧ startsWith (u "Created:") (trim (u "(3) 3b Ann")) = false
  ∧ processLine toLowerAscii initState
      (u "Created: Saturday, 28 Dec 2024(3) 3b Ann")
    = processLine toLowerAscii initState (u "(3) 3b Ann").
Proof.
  assert (trim (u "Created: Saturday, 28 Dec 2024(3) 3b Ann")
          = u "Created:" ++ u " Saturday, 28 Dec " ++ u "2024"
              ++ u "(3) 3b Ann") as Hraw by (vm_compute; reflexivity).
  assert (Forall (λ c, isLineTerminator c = false)
            (u " Saturday, 28 Dec " ++ u "(3) 3b Ann")) as Hdot
    by (repeat constructor).
  assert (∀ i : nat, (i < length (u " Saturday, 28 Dec "))%nat →
            ¬ digits (take 4 (drop i (u " Saturday, 28 Dec " ++ u "2024"))))
    as Hno.
  { intros i Hi. apply (bool_decide_eq_false_1 (digits _)). revert Hi.
    do 18 (destruct i as [|i]; [intros _; vm_compute; reflexivity|]).
    simpl. lia. }
  assert (digits (u "2024")) as Hd by (repeat constructor).
  assert (length (u "2024") = 4%nat) as Hl by reflexivity.
  assert (startsWith (u "Created:") (trim (u "(3) 3b Ann")) = false) as Hnot
    by (vm_compute; reflexivity).
  split; [exact Hraw|]. split; [exact Hdot|]. split; [exact Hno|].
  split; [exact Hd|]. split; [exact Hl|]. split; [exact Hnot|].
  exact (created_header_stripped toLowerAscii initState _ _ _ _
           Hraw Hdot Hno Hd Hl Hnot).
Defined.

Lemma path_to_root_witness :
  FamilyData.allPersons (parseFamilyTree toLowerAscii ex_text)
    !! u "root_g1-1_g2-1" = Some ex_bob
  ∧ ∃ path,
      ancestry (FamilyData.allPersons (parseFamilyTree toLowerAscii ex_text))
               (u "root_g1-1_g2-1") path
      ∧ (length path ≤ S (N.to_nat (Person.generation ex_bob)))%nat
      ∧ NoDup path
      ∧ ∀ fuel,
          getPathToRoot fuel (Some (parseFamilyTree toLowerAscii ex_text))
                        (u "root_g1-1_g2-1")
          = if decide (length path ≤ fuel)%nat then Some path else None.
Proof.
  assert (FamilyData.allPersons (parseFamilyTree toLowerAscii ex_text)
            !! u "root_g1-1_g2-1" = Some ex_bob) as Hp
    by (vm_compute; reflexivity).
  split; [exact Hp|].
  exact (path_to_root toLowerAscii ex_text _ _ Hp).
Defined.
